(** * lit-timesheet: validation, save reconciliation, filtering, ordering

    A shallow embedding of [src/lit-timesheet.ts] (the [LitTimesheet]
    component) and of the part of the IndexedDB wrapper it talks to.

    - Entry objects live in a heap; the [entries] map of the component
      and every map returned by [filterMap] hold references into it, so
      a flag written through one reference is seen through all others.
    - A JavaScript [Map] is an insertion-ordered association list with
      pairwise distinct keys.
    - Synchronous methods are computations in a state monad [M].
    - [async] methods are resumable tasks ([Task]): synchronous segments
      separated by [Await] points.  [run] executes a task to completion
      with nothing else scheduled in between, [advance] executes it up
      to the next [Await], and [run_with] executes it with other handlers
      scheduled while it is suspended.
    - The database is the object store and the trace of the calls made
      to it, each call tagged with the connection it goes through.
    - [Date.parse] and [toLocaleTimeString] belong to the host, whose
      behaviour depends on engine, time zone and locale: they are the
      two fields of the class [Platform].  Rendering is left out. *)

From Stdlib Require Import ZArith String Ascii DecimalString Sorting.Sorted Sorting.Permutation.
From stdpp Require Import gmap strings list.

Open Scope Z_scope.

(** ** JavaScript values *)

(** A JavaScript number as the code meets it: an integral count of
    milliseconds, or NaN (what [Date.parse] yields on a string it cannot
    read).  Every comparison with NaN is false. *)
Inductive number : Type :=
| Num (z : Z)
| NaN.

Definition num_lt (a b : number) : bool :=
  match a, b with
  | Num x, Num y => x <? y
  | _, _ => false
  end.

Definition num_le (a b : number) : bool :=
  match a, b with
  | Num x, Num y => x <=? y
  | _, _ => false
  end.

Definition num_gt (a b : number) : bool := num_lt b a.

Definition num_add (a : number) (d : Z) : number :=
  match a with
  | Num x => Num (x + d)
  | NaN => NaN
  end.

(** Relational operators on strings compare code units lexicographically. *)
Definition str_lt (a b : string) : bool := String.ltb a b.
Definition str_gt (a b : string) : bool := String.ltb b a.
Definition str_ge (a b : string) : bool := negb (String.ltb a b).

Inductive JSValue : Type :=
| VString (s : string)
| VBoolean (b : bool)
| VNumber (n : number)
| VUndefined.

(** [===] *)
Definition strict_eq (a b : JSValue) : bool :=
  match a, b with
  | VString s, VString t => String.eqb s t
  | VBoolean x, VBoolean y => Bool.eqb x y
  | VNumber (Num x), VNumber (Num y) => x =? y
  | VUndefined, VUndefined => true
  | _, _ => false
  end.

(** ** The host *)

Class Platform : Type := {
  (** [Date.parse(s)] *)
  Date_parse : string -> number;
  (** [new Date(t).toLocaleTimeString()] *)
  toLocaleTimeString : number -> string;
}.

(** ** Entries *)

Record TimeEntry : Type := mkTimeEntry {
  date : string;
  start : string;
  end_ : string;
  category : string;
  description : string;
  valid : bool;
  dirty : bool;
}.

Inductive TimeEntryKey : Type :=
| Kdate | Kstart | Kend | Kcategory | Kdescription | Kvalid | Kdirty.

(** [entry[field]] *)
Definition get_field (e : TimeEntry) (field : TimeEntryKey) : JSValue :=
  match field with
  | Kdate => VString (date e)
  | Kstart => VString (start e)
  | Kend => VString (end_ e)
  | Kcategory => VString (category e)
  | Kdescription => VString (description e)
  | Kvalid => VBoolean (valid e)
  | Kdirty => VBoolean (dirty e)
  end.

Definition set_valid (b : bool) (e : TimeEntry) : TimeEntry :=
  mkTimeEntry (date e) (start e) (end_ e) (category e) (description e) b (dirty e).

Definition set_dirty (b : bool) (e : TimeEntry) : TimeEntry :=
  mkTimeEntry (date e) (start e) (end_ e) (category e) (description e) (valid e) b.

(** The fields the validator never writes. *)
Definition same_data (e e' : TimeEntry) : Prop :=
  date e = date e' /\ start e = start e' /\ end_ e = end_ e' /\
  category e = category e' /\ description e = description e'.

#[global] Instance TimeEntry_inhabited : Inhabited TimeEntry :=
  populate (mkTimeEntry "" "" "" "" "" false false).

(** ** Object references and maps *)

(** An object reference.  The heap is total on the references a program
    can hold; [!!!] reads through one. *)
Abbreviation loc := positive (only parsing).
Abbreviation Heap := (gmap positive TimeEntry) (only parsing).

(** [Map<string, TimeEntry>]: insertion order, distinct keys. *)
Abbreviation JSMap := (list (string * positive)) (only parsing).

Definition keys (m : JSMap) : list string := map fst m.

(** [map.set(k, v)]: an existing key keeps its position. *)
Fixpoint Map_set (m : JSMap) (k : string) (v : loc) : JSMap :=
  match m with
  | [] => [(k, v)]
  | (k', v') :: rest =>
      if String.eqb k k' then (k, v) :: rest else (k', v') :: Map_set rest k v
  end.

(** [map.get(k)] *)
Fixpoint Map_get (m : JSMap) (k : string) : option loc :=
  match m with
  | [] => None
  | (k', v') :: rest => if String.eqb k k' then Some v' else Map_get rest k
  end.

(** [map.delete(k)] *)
Definition Map_delete (m : JSMap) (k : string) : JSMap :=
  List.filter (fun p => negb (String.eqb k (fst p))) m.

(** [new Map(pairs)] *)
Definition Map_from (pairs : list (string * loc)) : JSMap :=
  fold_left (fun m p => Map_set m (fst p) (snd p)) pairs [].

(** ** The persistence collaborator *)

Inductive Event : Type :=
| EvOpen (db : nat)
| EvClose (db : nat)
| EvGetAllKeys (db : nat)
| EvGet (db : nat) (key : string)
| EvPut (db : nat) (key : string) (value : TimeEntry)
| EvDelete (db : nat) (key : string).

(** The object store ['timesheet-entries'], kept in ascending key order
    (the order in which [getAllKeys] lists it). *)
Fixpoint store_put (s : list (string * TimeEntry)) (k : string) (v : TimeEntry)
  : list (string * TimeEntry) :=
  match s with
  | [] => [(k, v)]
  | (k', v') :: rest =>
      if String.eqb k k' then (k, v) :: rest
      else if String.ltb k k' then (k, v) :: (k', v') :: rest
      else (k', v') :: store_put rest k v
  end.

Definition store_delete (s : list (string * TimeEntry)) (k : string)
  : list (string * TimeEntry) :=
  List.filter (fun p => negb (String.eqb k (fst p))) s.

Fixpoint store_get (s : list (string * TimeEntry)) (k : string) : option TimeEntry :=
  match s with
  | [] => None
  | (k', v') :: rest => if String.eqb k k' then Some v' else store_get rest k
  end.

(** ** Component state *)

Record State : Type := mkState {
  heap : gmap positive TimeEntry;
  entries : list (string * positive);       (* this.entries *)
  store : list (string * TimeEntry);        (* the database *)
  conns : nat;                              (* connections opened so far *)
  trace : list Event;                       (* calls made to the database *)
}.

Definition with_heap (f : Heap -> Heap) (σ : State) : State :=
  mkState (f (heap σ)) (entries σ) (store σ) (conns σ) (trace σ).

Definition with_entries (f : JSMap -> JSMap) (σ : State) : State :=
  mkState (heap σ) (f (entries σ)) (store σ) (conns σ) (trace σ).

(** ** Synchronous code: a state monad *)

Definition M (A : Type) : Type := State -> A * State.

Definition ret {A} (a : A) : M A := fun σ => (a, σ).

Definition bind {A B} (c : M A) (k : A -> M B) : M B :=
  fun σ => let '(a, σ') := c σ in k a σ'.

Definition gets {A} (f : State -> A) : M A := fun σ => (f σ, σ).

Definition modify (f : State -> State) : M unit := fun σ => (tt, f σ).

Declare Scope m_scope.
Delimit Scope m_scope with M.
Notation "x <- c ;; k" := (bind c (fun x => k))
  (at level 100, c at next level, right associativity) : m_scope.
Notation "c ;; k" := (bind c (fun _ => k))
  (at level 100, right associativity) : m_scope.

(** [entry.f] for a reference [entry] *)
Definition read (entry : loc) : M TimeEntry := gets (fun σ => heap σ !!! entry).

(** [entry.valid = b] *)
Definition write_valid (entry : loc) (b : bool) : M unit :=
  modify (with_heap (fun h => <[entry := set_valid b (h !!! entry)]> h)).

(** [entry.dirty = b] *)
Definition write_dirty (entry : loc) (b : bool) : M unit :=
  modify (with_heap (fun h => <[entry := set_dirty b (h !!! entry)]> h)).

(** ** The database calls *)

(** [getDB()]: a new connection *)
Definition getDB : M nat :=
  fun σ => (conns σ,
            mkState (heap σ) (entries σ) (store σ) (S (conns σ))
                    (trace σ ++ [EvOpen (conns σ)])).

(** [db.close()] *)
Definition db_close (db : nat) : M unit :=
  modify (fun σ => mkState (heap σ) (entries σ) (store σ) (conns σ)
                           (trace σ ++ [EvClose db])).

(** [db.put('timesheet-entries', entry, uuid)]: the store receives a
    copy of the object as it is when the call is made. *)
Definition db_put (db : nat) (entry : loc) (uuid : string) : M unit :=
  modify (fun σ =>
    let v := heap σ !!! entry in
    mkState (heap σ) (entries σ) (store_put (store σ) uuid v) (conns σ)
            (trace σ ++ [EvPut db uuid v])).

(** [db.delete('timesheet-entries', uuid)] *)
Definition db_delete (db : nat) (uuid : string) : M unit :=
  modify (fun σ => mkState (heap σ) (entries σ) (store_delete (store σ) uuid) (conns σ)
                           (trace σ ++ [EvDelete db uuid])).

(** [db.getAllKeys('timesheet-entries')] *)
Definition db_getAllKeys (db : nat) : M (list string) :=
  fun σ => (map fst (store σ),
            mkState (heap σ) (entries σ) (store σ) (conns σ)
                    (trace σ ++ [EvGetAllKeys db])).

(** [db.get('timesheet-entries', key)] *)
Definition db_get (db : nat) (key : string) : M (option TimeEntry) :=
  fun σ => (store_get (store σ) key,
            mkState (heap σ) (entries σ) (store σ) (conns σ)
                    (trace σ ++ [EvGet db key])).

(** A new object. *)
Definition alloc (e : TimeEntry) : M loc :=
  fun σ => let l := fresh (dom (heap σ)) in (l, with_heap (fun h => <[l := e]> h) σ).

(** ** Asynchronous code: tasks *)

Inductive Task : Type :=
| Done                                        (* the promise is fulfilled *)
| Throw                                       (* the promise is rejected *)
| Sync {A : Type} (c : M A) (k : A -> Task)   (* synchronous code *)
| Await (t : Task).                           (* suspended at an await *)

Declare Scope task_scope.
Delimit Scope task_scope with T.
Bind Scope task_scope with Task.
Notation "x <- c ;; k" := (Sync c (fun x => k))
  (at level 100, c at next level, right associativity) : task_scope.
Notation "c ;; k" := (Sync c (fun _ => k))
  (at level 100, right associativity) : task_scope.

(** [t] followed by [k]; a rejection of [t] is not caught. *)
Fixpoint andThen (t k : Task) : Task :=
  match t with
  | Done => k
  | Throw => Throw
  | Sync c f => Sync c (fun a => andThen (f a) k)
  | Await t' => Await (andThen t' k)
  end.

(** [await f(); k] for an async [f] *)
Definition call_await (f k : Task) : Task := andThen f (Await k).

(** A task run to completion, nothing else scheduled at its awaits. *)
Fixpoint run (t : Task) (σ : State) : State :=
  match t with
  | Done => σ
  | Throw => σ
  | Sync c k => let '(a, σ') := c σ in run (k a) σ'
  | Await t' => run t' σ
  end.

(** A task run up to its next await: the state there and what remains. *)
Fixpoint advance (t : Task) (σ : State) : State * Task :=
  match t with
  | Done => (σ, Done)
  | Throw => (σ, Throw)
  | Sync c k => let '(a, σ') := c σ in advance (k a) σ'
  | Await t' => (σ, t')
  end.

(** A task run with other handlers scheduled while it is suspended:
    [others] lists, await by await, what they do to the state before the
    task is resumed. *)
Fixpoint run_with (t : Task) (others : list (State -> State)) (σ : State) : State :=
  match t with
  | Done => σ
  | Throw => σ
  | Sync c k => let '(a, σ') := c σ in run_with (k a) others σ'
  | Await t' =>
      match others with
      | [] => run_with t' [] σ
      | f :: fs => run_with t' fs (f σ)
      end
  end.

(** The database calls a task makes itself when it is run with other
    handlers scheduled at its awaits: what each of its own synchronous
    steps adds to the trace, whatever the other handlers add or change in
    between. *)
Fixpoint own_calls (t : Task) (others : list (State -> State)) (σ : State) : list Event :=
  match t with
  | Done => []
  | Throw => []
  | Sync c k =>
      let '(a, σ') := c σ in
      drop (length (trace σ)) (trace σ') ++ own_calls (k a) others σ'
  | Await t' =>
      match others with
      | [] => own_calls t' [] σ
      | f :: fs => own_calls t' fs (f σ)
      end
  end.

Section Component.
Context {host : Platform}.

(** [filterMap(map, field, query)] *)
Definition filterMap (map : JSMap) (field : TimeEntryKey) (query : JSValue) : M JSMap :=
  (h <- gets heap ;;
   ret (Map_from
          (List.filter (fun p => strict_eq (get_field (h !!! snd p) field) query) map)))%M.

(** [`${e.date} ${t}`] parsed *)
Definition stamp (d t : string) : number := Date_parse (d +:+ " " +:+ t).

(** The overlap test of [validateEntry]. *)
Definition overlap (start' end' otherStart otherEnd : number) : bool :=
  (num_le otherStart start' && num_lt start' otherEnd) ||
  (num_le start' otherStart && num_lt otherStart end').

(** The [for ... of otherEntries] loop of [validateEntry]: [true] when it
    leaves through the collision branch. *)
Fixpoint collision (h : Heap) (uuid : string) (start' end' : number)
    (otherEntries : JSMap) : bool :=
  match otherEntries with
  | [] => false
  | (otherUuid, otherEntry) :: rest =>
      if String.eqb uuid otherUuid then collision h uuid start' end' rest
      else
        let o := h !!! otherEntry in
        let otherStart := stamp (date o) (start o) in
        let otherEnd := stamp (date o) (end_ o) in
        if overlap start' end' otherStart otherEnd then true
        else collision h uuid start' end' rest
  end.

Definition validateEntry (entry : loc) (uuid : string) : M bool :=
  (e <- read entry ;;
   if str_ge (start e) (end_ e) then
     write_valid entry false ;;
     ret false
   else
     let start' := stamp (date e) (start e) in
     let end' := stamp (date e) (end_ e) in
     this_entries <- gets entries ;;
     otherEntries <- filterMap this_entries Kdate (VString (date e)) ;;
     h <- gets heap ;;
     if collision h uuid start' end' otherEntries then
       write_valid entry false ;;
       ret false
     else
       write_valid entry true ;;
       ret true)%M.

(** The loop of [updateValidationStatus] over a snapshot of the map. *)
Fixpoint for_each (l : JSMap) (body : string -> loc -> M unit) : M unit :=
  match l with
  | [] => ret tt
  | (uuid, entry) :: rest => (body uuid entry ;; for_each rest body)%M
  end.

Definition updateValidationStatus : M unit :=
  (this_entries <- gets entries ;;
   for_each this_entries (fun uuid entry => _ <- validateEntry entry uuid ;; ret tt))%M.


(** The loop of [saveValidDitryEntries]. *)
Fixpoint cascade (db : nat) (dirtyEntries : JSMap) : Task :=
  match dirtyEntries with
  | [] => Done
  | (dirtyUuid, dirtyEntry) :: rest =>
      (ok <- validateEntry dirtyEntry dirtyUuid ;;
       if ok : bool then
         write_dirty dirtyEntry false ;;
         db_put db dirtyEntry dirtyUuid ;;
         Await (cascade db rest)
       else cascade db rest)%T
  end.

Definition saveValidDitryEntries : Task :=
  (this_entries <- gets entries ;;
   dirtyEntries <- filterMap this_entries Kdirty (VBoolean true) ;;
   db <- getDB ;;
   Await (cascade db dirtyEntries))%T.

Definition saveEntry (entry : loc) (uuid : string) : Task :=
  (e <- read entry ;;
   let oldValidFlag := valid e in
   ok <- validateEntry entry uuid ;;
   if ok : bool then
     write_dirty entry false ;;
     db <- getDB ;;
     Await (
     db_put db entry uuid ;;
     Await (
     db_close db ;;
     if oldValidFlag then call_await saveValidDitryEntries Done else Done))
   else
     write_dirty entry true ;;
     Done)%T.

Definition deleteEntry (entry : loc) (uuid : string) : Task :=
  (modify (with_entries (fun m => Map_delete m uuid)) ;;
   e <- read entry ;;
   andThen (if negb (valid e) then call_await saveValidDitryEntries Done else Done)
       (db <- getDB ;;
        Await (
        db_delete db uuid ;;
        Await (
        db_close db ;;
        Done))))%T.

(** ** Ordering *)

(** The comparator handed to [sort]: negative, zero or positive. *)
Definition compareEntries (a b : TimeEntry) : Z :=
  let timestampA := stamp (date a) (start a) in
  let timestampB := stamp (date b) (start b) in
  if num_lt timestampA timestampB then -1
  else if num_gt timestampA timestampB then 1
  else if str_lt (category a) (category b) then -1
  else if str_gt (category a) (category b) then 1
  else if str_lt (description a) (description b) then -1
  else if str_gt (description a) (description b) then 1
  else 0.

(** [Array.prototype.sort] is stable; on a consistent comparator a
    stable sort has one possible result, computed here by insertion. *)
Fixpoint sort_insert {A} (cmp : A -> A -> Z) (x : A) (l : list A) : list A :=
  match l with
  | [] => [x]
  | y :: rest => if 0 <? cmp x y then y :: sort_insert cmp x rest else x :: y :: rest
  end.

Definition Array_sort {A} (cmp : A -> A -> Z) (l : list A) : list A :=
  foldr (sort_insert cmp) [] l.

Definition sortEntries : M unit :=
  (h <- gets heap ;;
   modify (with_entries (fun m =>
     Map_from (Array_sort (fun a b => compareEntries (h !!! snd a) (h !!! snd b)) m))))%M.

(** ** Loading *)

(** The loop of [loadEntries].  A key listed by [getAllKeys] whose [get]
    finds nothing would put [undefined] into the map, on which the passes
    after the loop fail; [ok] records that this has not happened. *)
Fixpoint load (db : nat) (ks : list string) (ok : bool) (k : bool -> Task) : Task :=
  match ks with
  | [] => k ok
  | key :: rest =>
      (result <- db_get db key ;;
       Await (
       match result with
       | Some v =>
           entry <- alloc v ;;
           modify (with_entries (fun m => Map_set m key entry)) ;;
           load db rest ok k
       | None => load db rest false k
       end))%T
  end.

Definition loadEntries : Task :=
  (db <- getDB ;;
   Await (
   ks <- db_getAllKeys db ;;
   Await (
   load db ks true (fun ok =>
     db_close db ;;
     if ok then
       sortEntries ;;
       updateValidationStatus ;;
       Done
     else Throw))))%T.

(** ** New entries *)

(** What [addNew] reads from [new Date()]. *)
Record JSDate : Type := mkDate {
  getFullYear : Z;
  getMonth : Z;        (* 0 .. 11 *)
  getDate : Z;         (* 1 .. 31 *)
}.

(** [String(n)] for an integer *)
Definition String_of (n : Z) : string := NilZero.string_of_int (Z.to_int n).

(** [s.padStart(n, '0')] *)
Definition padStart (n : nat) (s : string) : string :=
  Nat.iter (n - String.length s) (String "0") s.

(** [s.slice(0, 5)] *)
Definition slice05 (s : string) : string := substring 0 5 s.

Definition dateStringOf (today : JSDate) : string :=
  String_of (getFullYear today) +:+ "-" +:+
  padStart 2 (String_of (getMonth today + 1)) +:+ "-" +:+
  padStart 2 (String_of (getDate today)).

Definition getLatestTime (date' : string) : M string :=
  (this_entries <- gets entries ;;
   entriesFromDate <- filterMap this_entries Kdate (VString date') ;;
   h <- gets heap ;;
   ret (fold_left (fun max current => if str_gt max current then max else current)
                  (map (fun p => end_ (h !!! snd p)) entriesFromDate)
                  "07:00"))%M.

(** [addNew], given the identifier drawn and the clock read. *)
Definition addNew (uuid : string) (today : JSDate) : Task :=
  (let dateString := dateStringOf today in
   start' <- getLatestTime dateString ;;
   let end' :=
     if str_ge start' "23:30" then "23:59"
     else slice05 (toLocaleTimeString (num_add (stamp dateString start') (1000 * 60 * 30))) in
   entry <- alloc (mkTimeEntry dateString start' end' "Meeting" "" false true) ;;
   modify (with_entries (fun m => Map_set m uuid entry)) ;;
   updateValidationStatus ;;
   saveEntry entry uuid)%T.

(** ** Edits *)

(** [current[field] = value] with the string an input element reports.
    The component builds callbacks for the five string fields only; a
    string stored in [valid] or [dirty] has no counterpart in
    [TimeEntry] and is not written. *)
Definition set_field (field : TimeEntryKey) (value : string) (e : TimeEntry) : TimeEntry :=
  match field with
  | Kdate => mkTimeEntry value (start e) (end_ e) (category e) (description e) (valid e) (dirty e)
  | Kstart => mkTimeEntry (date e) value (end_ e) (category e) (description e) (valid e) (dirty e)
  | Kend => mkTimeEntry (date e) (start e) value (category e) (description e) (valid e) (dirty e)
  | Kcategory => mkTimeEntry (date e) (start e) (end_ e) value (description e) (valid e) (dirty e)
  | Kdescription => mkTimeEntry (date e) (start e) (end_ e) (category e) value (valid e) (dirty e)
  | Kvalid | Kdirty => e
  end.

(** [generateInputCallback(field, uuid)]: the callback it returns, as a
    function of the value the input element reports. *)
Definition generateInputCallback (field : TimeEntryKey) (uuid : string) (value : string)
  : Task :=
  (this_entries <- gets entries ;;
   match Map_get this_entries uuid with
   | None => Throw
   | Some current =>
       modify (with_heap (fun h => <[current := set_field field value (h !!! current)]> h)) ;;
       modify (with_entries (fun m => Map_set m uuid current)) ;;
       updateValidationStatus ;;
       call_await (saveEntry current uuid) Done
   end)%T.

End Component.

(** ** Presentation

    [render] as the data its markup is built from: which entries get a
    table row, in which order, what each row shows and how it is marked.
    The markup around these values is constant and left out. *)

(** The two filter properties of the component. *)
Record Filters : Type := mkFilters {
  filterDate : string;
  filterCategory : string;
}.

(** Their initial values. *)
Definition initialFilters : Filters := mkFilters "" "Any".

(** The three callbacks of [renderFilters]: the date input, the category
    select, the reset button. *)
Definition onFilterDate (value : string) (f : Filters) : Filters :=
  mkFilters value (filterCategory f).

Definition onFilterCategory (value : string) (f : Filters) : Filters :=
  mkFilters (filterDate f) value.

Definition onResetFilter (f : Filters) : Filters := mkFilters "" "Any".

(** A row of the table: its class, the values of its five inputs, and the
    identifier and object its callbacks are bound to. *)
Record TableRow : Type := mkRow {
  row_class : string;
  row_date : string;
  row_start : string;
  row_end : string;
  row_category : string;
  row_description : string;
  row_uuid : string;
  row_entry : positive;
}.

Inductive Page : Type :=
| NoEntries
| Table (rows : list TableRow).

(** [renderTableRow(entry, uuid)] *)
Definition renderTableRow (entry : loc) (uuid : string) : M TableRow :=
  (e <- read entry ;;
   ret (mkRow (if valid e then "" else "invalid")
              (date e) (start e) (end_ e) (category e) (description e) uuid entry))%M.

(** [Array.from(filteredEntries, ([uuid, entry]) => this.renderTableRow(entry, uuid))] *)
Fixpoint renderRows (l : JSMap) : M (list TableRow) :=
  match l with
  | [] => ret []
  | (uuid, entry) :: rest =>
      (row <- renderTableRow entry uuid ;;
       rows <- renderRows rest ;;
       ret (row :: rows))%M
  end.

(** [render()] with the filter properties [f] *)
Definition render (f : Filters) : M Page :=
  (this_entries <- gets entries ;;
   byDate <-
     (if negb (String.eqb (filterDate f) "")
      then filterMap this_entries Kdate (VString (filterDate f))
      else ret this_entries) ;;
   filteredEntries <-
     (if negb (String.eqb (filterCategory f) "Any")
      then filterMap byDate Kcategory (VString (filterCategory f))
      else ret byDate) ;;
   if negb (Nat.eqb (length filteredEntries) 0) then
     rows <- renderRows filteredEntries ;;
     ret (Table rows)
   else ret NoEntries)%M.

(** ** A reference host: UTC, 24-hour clock

    One concrete [Platform], used to run the component on examples.
    [Date.parse] reads ["YYYY-MM-DD HH:MM"] as a UTC wall-clock time
    and yields NaN on anything else; [toLocaleTimeString] prints
    ["HH:MM:SS"]. *)
Module RefHost.

Definition digit (c : ascii) : option Z :=
  let n := Z.of_N (N_of_ascii c) in
  if (48 <=? n) && (n <=? 57) then Some (n - 48) else None.

Fixpoint digits (s : string) (acc : Z) : option Z :=
  match s with
  | EmptyString => Some acc
  | String c rest =>
      match digit c with
      | Some d => digits rest (10 * acc + d)
      | None => None
      end
  end.

Definition field (s : string) (from len : nat) : option Z :=
  let t := substring from len s in
  if Nat.eqb (String.length t) len then digits t 0 else None.

Definition sep (s : string) (i : nat) (c : ascii) : bool :=
  match String.get i s with
  | Some c' => Ascii.eqb c c'
  | None => false
  end.

(** Days from 1970-01-01 to the civil date [y]-[m]-[d]. *)
Definition days_from_civil (y m d : Z) : Z :=
  let y' := if m <=? 2 then y - 1 else y in
  let era := y' / 400 in
  let yoe := y' - era * 400 in
  let doy := (153 * (if 2 <? m then m - 3 else m + 9) + 2) / 5 + d - 1 in
  let doe := yoe * 365 + yoe / 4 - yoe / 100 + doy in
  era * 146097 + doe - 719468.

Definition parse (s : string) : number :=
  if Nat.eqb (String.length s) 16
     && sep s 4 "-" && sep s 7 "-" && sep s 10 " " && sep s 13 ":"
  then
    match field s 0 4, field s 5 2, field s 8 2, field s 11 2, field s 14 2 with
    | Some y, Some mo, Some d, Some h, Some mi =>
        if (1 <=? mo) && (mo <=? 12) && (1 <=? d) && (d <=? 31)
           && (h <=? 23) && (mi <=? 59)
        then Num (((days_from_civil y mo d * 24 + h) * 60 + mi) * 60000)
        else NaN
    | _, _, _, _, _ => NaN
    end
  else NaN.

Definition two (n : Z) : string :=
  let s := NilZero.string_of_int (Z.to_int n) in
  if Nat.ltb (String.length s) 2 then "0" +:+ s else s.

Definition timeString (t : number) : string :=
  match t with
  | Num ms =>
      let s := (ms mod 86400000) / 1000 in
      two (s / 3600) +:+ ":" +:+ two ((s / 60) mod 60) +:+ ":" +:+ two (s mod 60)
  | NaN => "Invalid Date"
  end.

#[export] Instance host : Platform :=
  {| Date_parse := parse; toLocaleTimeString := timeString |}.

End RefHost.

(** ** A host with a 12-hour clock

    The same [Date.parse], and [toLocaleTimeString] printing
    ["h:mm:ss AM"] or ["h:mm:ss PM"]. *)
Module TwelveHourHost.

Definition timeString (t : number) : string :=
  match t with
  | Num ms =>
      let s := (ms mod 86400000) / 1000 in
      let h := s / 3600 in
      let h12 := if h mod 12 =? 0 then 12 else h mod 12 in
      NilZero.string_of_int (Z.to_int h12) +:+ ":" +:+ RefHost.two ((s / 60) mod 60)
        +:+ ":" +:+ RefHost.two (s mod 60) +:+ (if h <? 12 then " AM" else " PM")
  | NaN => "Invalid Date"
  end.

Definition host : Platform :=
  {| Date_parse := RefHost.parse; toLocaleTimeString := timeString |}.

End TwelveHourHost.

(** * Vocabulary of the properties *)

(** [a <= b], that is [!(b < a)], which for strings is [b >= a]. *)
Definition str_le (a b : string) : Prop := str_ge b a = true.

(** A task that cannot end in a rejection. *)
Inductive fulfils : Task -> Prop :=
| fulfils_Done : fulfils Done
| fulfils_Sync {A} (c : M A) (k : A -> Task) :
    (forall a, fulfils (k a)) -> fulfils (Sync c k)
| fulfils_Await (t : Task) : fulfils t -> fulfils (Await t).

(** The keys of the component's map are pairwise distinct. *)
Definition map_ok (σ : State) : Prop := NoDup (keys (entries σ)).

(** Every synchronous step of a task keeps [P]. *)
Inductive keeps (P : State -> Prop) : Task -> Prop :=
| keeps_Done : keeps P Done
| keeps_Throw : keeps P Throw
| keeps_Sync {A} (c : M A) (k : A -> Task) :
    (forall σ, P σ -> P (snd (c σ))) -> (forall a, keeps P (k a)) -> keeps P (Sync c k)
| keeps_Await (t : Task) : keeps P t -> keeps P (Await t).

(** Every synchronous step of a task leaves the trace as it was or adds
    calls at its end. *)
Inductive appending : Task -> Prop :=
| appending_Done : appending Done
| appending_Throw : appending Throw
| appending_Sync {A} (c : M A) (k : A -> Task) :
    (forall σ, exists evs, trace (snd (c σ)) = trace σ ++ evs) ->
    (forall a, appending (k a)) -> appending (Sync c k)
| appending_Await (t : Task) : appending t -> appending (Await t).

(** A [put] of an entry that is valid and not dirty. *)
Definition clean_put (ev : Event) : Prop :=
  match ev with
  | EvPut _ _ v => valid v = true /\ dirty v = false
  | _ => True
  end.

Definition is_put (ev : Event) : Prop :=
  match ev with
  | EvPut _ _ _ => True
  | _ => False
  end.

(** The valid branch of [saveEntry] up to [db.close()], as one
    computation. *)
Definition persist (entry : positive) (uuid : string) : M unit :=
  (write_dirty entry false ;;
   db <- getDB ;;
   db_put db entry uuid ;;
   db_close db)%M.

(** The last three segments of [deleteEntry], as one computation. *)
Definition removeFromStore (uuid : string) : M unit :=
  (db <- getDB ;;
   db_delete db uuid ;;
   db_close db)%M.

(** The state after the loop of [loadEntries] over the keys [ks], each of
    them found in the store. *)
Fixpoint loaded (db : nat) (ks : list string) (σ : State) : State :=
  match ks with
  | [] => σ
  | key :: rest =>
      match store_get (store σ) key with
      | Some v =>
          let '(entry, σ1) := alloc v (snd (db_get db key σ)) in
          loaded db rest (with_entries (fun m => Map_set m key entry) σ1)
      | None => σ
      end
  end.



Section Vocabulary.
Context {host : Platform}.

(** The overlap test of [validateEntry] on two entries: the intervals
    [s1, e1) and [s2, e2) of parsed date+start and date+end, tested as
    [s2 <= s1 < e2 || s1 <= s2 < e1]. *)
Definition overlaps (e o : TimeEntry) : bool :=
  overlap (stamp (date e) (start e)) (stamp (date e) (end_ e))
          (stamp (date o) (start o)) (stamp (date o) (end_ o)).

(** Some entry of the map under another identifier has the date of
    [entry] and an interval overlapping its interval. *)
Definition blocked (σ : State) (entry : positive) (uuid : string) : Prop :=
  exists otherUuid otherEntry,
    (otherUuid, otherEntry) ∈ entries σ /\ otherUuid <> uuid /\
    date (heap σ !!! otherEntry) = date (heap σ !!! entry) /\
    overlaps (heap σ !!! entry) (heap σ !!! otherEntry) = true.

(** What [validateEntry] returns. *)
Definition verdict (σ : State) (entry : positive) (uuid : string) : bool :=
  fst (validateEntry entry uuid σ).

(** The timestamps of an entry: what [Date.parse] returns for its date,
    a space and its start, and for its date, a space and its end. *)
Definition starts_at (e : TimeEntry) : number := Date_parse (date e +:+ " " +:+ start e).
Definition ends_at (e : TimeEntry) : number := Date_parse (date e +:+ " " +:+ end_ e).

(** [a <= b] and [a < b] on timestamps; neither holds when one of them is
    not a number. *)
Definition at_or_before (a b : number) : Prop :=
  match a, b with
  | Num x, Num y => x <= y
  | _, _ => False
  end.

Definition before (a b : number) : Prop :=
  match a, b with
  | Num x, Num y => x < y
  | _, _ => False
  end.

(** The half-open test on [s1, e1) and [s2, e2):
    [s2 <= s1 < e2 || s1 <= s2 < e1]. *)
Definition half_open_overlap (s1 e1 s2 e2 : number) : Prop :=
  (at_or_before s2 s1 /\ before s1 e2) \/ (at_or_before s1 s2 /\ before s2 e1).

(** Some entry of the map under another identifier has the date of
    [entry], and the two pass the half-open test on their timestamps. *)
Definition collides (σ : State) (entry : positive) (uuid : string) : Prop :=
  exists otherUuid otherEntry,
    (otherUuid, otherEntry) ∈ entries σ /\ otherUuid <> uuid /\
    date (heap σ !!! otherEntry) = date (heap σ !!! entry) /\
    half_open_overlap (starts_at (heap σ !!! entry)) (ends_at (heap σ !!! entry))
                      (starts_at (heap σ !!! otherEntry)) (ends_at (heap σ !!! otherEntry)).


(** Two states with the same map whose entries differ at most in their
    flags. *)
Definition data_equiv (σ σ' : State) : Prop :=
  entries σ = entries σ' /\ forall l, same_data (heap σ !!! l) (heap σ' !!! l).

(** Every identifier under which the map holds [l] gets verdict [b]. *)
Definition decided (σ : State) (l : positive) (b : bool) : Prop :=
  forall k, (k, l) ∈ entries σ -> verdict σ l k = b.

(** [a] comes no later than [b] in the order by parsed date+start, then
    category, then description. *)
Definition key_le (a b : TimeEntry) : Prop :=
  match starts_at a, starts_at b with
  | Num ta, Num tb =>
      ta < tb \/
      (ta = tb /\
       (str_lt (category a) (category b) = true \/
        (category a = category b /\ str_le (description a) (description b))))
  | _, _ => False
  end.

(** [Date.parse] reads the date and start of [e]. *)
Definition parses (e : TimeEntry) : Prop := starts_at e <> NaN.

End Vocabulary.

(** * Vocabulary of the further properties *)

(** The component's map holds no object under two identifiers. *)
Definition unshared (σ : State) : Prop := NoDup (map snd (entries σ)).

(** Every object the map holds has been created. *)
Definition allocated (σ : State) : Prop :=
  Forall (fun p => is_Some (heap σ !! snd p)) (entries σ).

(** The map as the component builds it: distinct identifiers, each with
    an object of its own. *)
Definition well_formed (σ : State) : Prop :=
  NoDup (keys (entries σ)) /\ unshared σ /\ allocated σ.

(** No object of [σ] is missing in [σ']. *)
Definition grows (σ σ' : State) : Prop :=
  forall o, is_Some (heap σ !! o) -> is_Some (heap σ' !! o).

(** The fields [renderTableRow] builds a callback for. *)
Definition string_field (field : TimeEntryKey) : bool :=
  match field with
  | Kvalid | Kdirty => false
  | _ => true
  end.

(** The pairs of the map that pass the filters [f]: a filter set to its
    initial value lets every entry pass. *)
Definition passes (f : Filters) (e : TimeEntry) : bool :=
  (String.eqb (filterDate f) "" || String.eqb (date e) (filterDate f)) &&
  (String.eqb (filterCategory f) "Any" || String.eqb (category e) (filterCategory f)).

(** The row [render] builds for a pair of the map. *)
Definition row_of (σ : State) (p : string * positive) : TableRow :=
  let e := heap σ !!! snd p in
  mkRow (if valid e then "" else "invalid")
        (date e) (start e) (end_ e) (category e) (description e) (fst p) (snd p).

Section FurtherVocabulary.
Context {host : Platform}.

(** The heap after a validation pass over [l] whose verdicts are those of
    the state [σ0]. *)
Definition settle (σ0 : State) (l : list (string * positive))
    (h : gmap positive TimeEntry) : gmap positive TimeEntry :=
  fold_left (fun h p => <[snd p := set_valid (verdict σ0 (snd p) (fst p)) (h !!! snd p)]> h)
            l h.

(** The verdict of [σ0] under the last identifier of [l] that holds [o]. *)
Fixpoint last_verdict (σ0 : State) (l : list (string * positive)) (o : positive)
  : option bool :=
  match l with
  | [] => None
  | (k, o') :: rest =>
      match last_verdict σ0 rest o with
      | Some b => Some b
      | None => if decide (o' = o) then Some (verdict σ0 o' k) else None
      end
  end.

(** One round of the loop of [saveValidDitryEntries], on the pair
    [(dirtyUuid, dirtyEntry)]. *)
Definition cascade_step (db : nat) (dirtyUuid : string) (dirtyEntry : positive)
    (σ : State) : State :=
  let '(ok, σ1) := validateEntry dirtyEntry dirtyUuid σ in
  if ok : bool then snd (db_put db dirtyEntry dirtyUuid (snd (write_dirty dirtyEntry false σ1)))
  else σ1.

(** The entries [saveValidDitryEntries] goes through. *)
Definition dirtyEntries (σ : State) : list (string * positive) :=
  fst (filterMap (entries σ) Kdirty (VBoolean true) σ).

(** The state right after the assignment [current[field] = value] of an
    input callback. *)
Definition edited (field : TimeEntryKey) (value : string) (current : positive)
    (σ : State) : State :=
  with_heap (fun h => <[current := set_field field value (h !!! current)]> h) σ.

End FurtherVocabulary.

(** * Sample states *)

Module Samples.

Definition entry (d s e : string) (v dty : bool) : TimeEntry :=
  mkTimeEntry d s e "Meeting" "" v dty.

Definition state (objs : list TimeEntry) (m : list (string * positive))
    (db : list (string * TimeEntry)) : State :=
  mkState (list_to_map (zip (map Pos.of_nat (List.seq 1%nat (length objs))) objs)) m db 0 [].

(** Two entries on one day that do not overlap, both flagged invalid and
    dirty, none of them saved. *)
Definition two_unsaved (first_valid : bool) : State :=
  state [entry "2024-01-01" "08:00" "09:00" first_valid true;
         entry "2024-01-01" "10:00" "11:00" false true]
        [("e", 1%positive); ("d", 2%positive)] [].

(** Entries A (08:00-09:00) and B (08:30-09:30) on one day. *)
Definition overlapping : State :=
  state [entry "2024-01-01" "08:00" "09:00" false true;
         entry "2024-01-01" "08:30" "09:30" false true]
        [("a", 1%positive); ("b", 2%positive)] [].

(** Three entries on two days. *)
Definition two_days : State :=
  state [entry "2024-01-01" "09:00" "10:00" true false;
         entry "2024-01-02" "09:00" "10:00" true false;
         entry "2024-01-01" "08:00" "09:00" true false]
        [("x", 1%positive); ("y", 2%positive); ("z", 3%positive)] [].

Definition day_ending_at (e : string) : State :=
  state [entry "2024-01-01" "05:00" e true false] [("a", 1%positive)] [].

Definition new_year : JSDate := mkDate 2024 0 1.

(** E (08:00-09:00) and F (10:00-11:00), both valid and saved. *)
Definition settled : State :=
  state [entry "2024-01-01" "08:00" "09:00" true false;
         entry "2024-01-01" "10:00" "11:00" true false]
        [("e", 1%positive); ("f", 2%positive)]
        [("e", entry "2024-01-01" "08:00" "09:00" true false);
         ("f", entry "2024-01-01" "10:00" "11:00" true false)].

(** A component that has not loaded yet, on a store of two entries. *)
Definition unloaded : State :=
  state [] [] [("k1", entry "2024-01-01" "09:00" "10:00" true false);
               ("k2", entry "2024-01-01" "08:00" "09:00" true false)].

(** The component started again on the store [σ] has left. *)
Definition restarted (σ : State) : State := with_entries (fun _ => []) σ.

(** A (08:00-09:00) and B (08:30-09:30) with their date inputs cleared. *)
Definition undated : State :=
  state [entry "" "08:00" "09:00" false true;
         entry "" "08:30" "09:30" false true]
        [("a", 1%positive); ("b", 2%positive)] [].

(** An entry with a cleared date between one starting at 09:00 and one
    starting at 08:00 on the same day. *)
Definition undated_between : State :=
  state [entry "2024-01-01" "09:00" "10:00" true false;
         entry "" "12:00" "13:00" true false;
         entry "2024-01-01" "08:00" "09:00" true false]
        [("a", 1%positive); ("n", 2%positive); ("b", 3%positive)] [].

(** Midnight of the first of January 2024, in milliseconds. *)
Definition new_year_midnight : Z := 1704067200000.

End Samples.



(** * Properties *)

(** ** Maps with distinct keys *)

Lemma elem_of_keys (m : list (string * positive)) (k : string) :
  k ∈ keys m <-> exists v, (k, v) ∈ m.
Proof.
  unfold keys. rewrite list_elem_of_fmap. split.
  - intros [[k' v] [-> H]]. by exists v.
  - intros [v H]. by exists (k, v).
Qed.

Lemma elem_of_List_filter {A} (f : A -> bool) (l : list A) (x : A) :
  x ∈ List.filter f l <-> x ∈ l /\ f x = true.
Proof. rewrite !list_elem_of_In. apply filter_In. Qed.

Lemma List_filter_sublist {A} (f : A -> bool) (l : list A) :
  sublist (List.filter f l) l.
Proof.
  induction l as [|x l IH]; cbn; [constructor|].
  destruct (f x); by constructor.
Qed.

Lemma NoDup_keys_sublist (m m' : list (string * positive)) :
  sublist m' m -> NoDup (keys m) -> NoDup (keys m').
Proof.
  intros Hsub Hnd. eapply sublist_NoDup; [exact Hnd|]. unfold keys. by apply (fmap_sublist fst).
Qed.

Lemma NoDup_keys_inj (m : list (string * positive)) (k : string) (a b : positive) :
  NoDup (keys m) -> (k, a) ∈ m -> (k, b) ∈ m -> a = b.
Proof.
  induction m as [|[k' v] m IH]; cbn; intros Hnd Ha Hb.
  - by apply elem_of_nil in Ha.
  - apply NoDup_cons in Hnd as [Hk Hnd].
    apply elem_of_cons in Ha as [Ha|Ha]; apply elem_of_cons in Hb as [Hb|Hb].
    + congruence.
    + inversion Ha; subst. exfalso. apply Hk, elem_of_keys. eauto.
    + inversion Hb; subst. exfalso. apply Hk, elem_of_keys. eauto.
    + by apply IH.
Qed.

Lemma Map_set_fresh (m : list (string * positive)) (k : string) (v : positive) :
  k ∉ keys m -> Map_set m k v = m ++ [(k, v)].
Proof.
  induction m as [|[k' v'] m IH]; cbn; intros Hk; [done|].
  apply not_elem_of_cons in Hk as [Hne Hk].
  destruct (String.eqb_spec k k') as [->|_]; [done|].
  by rewrite IH.
Qed.

Lemma Map_from_acc (pairs acc : list (string * positive)) :
  NoDup (keys (acc ++ pairs)) ->
  fold_left (fun m p => Map_set m (fst p) (snd p)) pairs acc = acc ++ pairs.
Proof.
  revert acc. induction pairs as [|[k v] pairs IH]; intros acc Hnd; cbn.
  - by rewrite app_nil_r.
  - rewrite Map_set_fresh.
    + rewrite IH; rewrite <- app_assoc; done.
    + unfold keys in Hnd. rewrite fmap_app in Hnd.
      apply NoDup_app in Hnd as (_ & Hdis & _).
      intros Hin. apply (Hdis k Hin). cbn. left.
Qed.

(** Rebuilding a map from its own pairs changes nothing. *)
Lemma Map_from_NoDup (pairs : list (string * positive)) :
  NoDup (keys pairs) -> Map_from pairs = pairs.
Proof. intros Hnd. unfold Map_from. by rewrite Map_from_acc. Qed.

Lemma Map_set_keys (m : list (string * positive)) (k : string) (v : positive) :
  keys (Map_set m k v) = if bool_decide (k ∈ keys m) then keys m else keys m ++ [k].
Proof.
  unfold keys. induction m as [|[k' v'] m IH]; cbn [Map_set]; [done|].
  destruct (String.eqb_spec k k') as [->|Hne].
  - rewrite bool_decide_eq_true_2; [done|left].
  - cbn [map fst]. rewrite IH.
    destruct (bool_decide_reflect (k ∈ map fst m)) as [Hin|Hin].
    + rewrite bool_decide_eq_true_2; [done|by right].
    + rewrite bool_decide_eq_false_2; [done|].
      intros [?|?]%elem_of_cons; done.
Qed.

(** [set] and [delete] keep the keys of a map distinct. *)
Lemma Map_set_NoDup (m : list (string * positive)) (k : string) (v : positive) :
  NoDup (keys m) -> NoDup (keys (Map_set m k v)).
Proof.
  intros Hnd. rewrite Map_set_keys. case_bool_decide as Hin; [done|].
  apply NoDup_app. split; [done|]. split; [|apply NoDup_singleton].
  intros x Hx ->%list_elem_of_singleton. done.
Qed.

Lemma Map_delete_NoDup (m : list (string * positive)) (k : string) :
  NoDup (keys m) -> NoDup (keys (Map_delete m k)).
Proof. apply NoDup_keys_sublist, List_filter_sublist. Qed.

Lemma Map_delete_gone (m : list (string * positive)) (k : string) :
  k ∉ keys (Map_delete m k).
Proof.
  intros [v Hin]%elem_of_keys. apply elem_of_List_filter in Hin as [_ Hne].
  cbn in Hne. by rewrite String.eqb_refl in Hne.
Qed.

(** ** The order on strings *)

Lemma ascii_compare_refl (a : ascii) : Ascii.compare a a = Eq.
Proof. unfold Ascii.compare. apply N.compare_refl. Qed.

Lemma ascii_compare_lt_trans (a b c : ascii) :
  Ascii.compare a b = Lt -> Ascii.compare b c = Lt -> Ascii.compare a c = Lt.
Proof. unfold Ascii.compare. rewrite !N.compare_lt_iff. apply N.lt_trans. Qed.

Lemma string_compare_refl (a : string) : String.compare a a = Eq.
Proof. induction a as [|c a IH]; cbn; [done|]. by rewrite ascii_compare_refl. Qed.

Lemma string_compare_lt_trans (a b c : string) :
  String.compare a b = Lt -> String.compare b c = Lt -> String.compare a c = Lt.
Proof.
  revert b c. induction a as [|x a IH]; intros [|y b] [|z c]; cbn; try done.
  destruct (Ascii.compare x y) eqn:Hxy; [|clear IH|done].
  - apply Ascii.compare_eq_iff in Hxy as ->.
    destruct (Ascii.compare y z); [apply IH|done|done].
  - intros _. destruct (Ascii.compare y z) eqn:Hyz; [|by rewrite (ascii_compare_lt_trans x y z)|done].
    apply Ascii.compare_eq_iff in Hyz as <-. by rewrite Hxy.
Qed.

Lemma str_le_compare (a b : string) : str_le a b <-> String.compare a b <> Gt.
Proof.
  unfold str_le, str_ge, String.ltb. rewrite String.compare_antisym.
  destruct (String.compare a b); cbn; intuition congruence.
Qed.

Lemma str_lt_compare (a b : string) : str_lt a b = true <-> String.compare a b = Lt.
Proof. unfold str_lt, String.ltb. destruct (String.compare a b); intuition congruence. Qed.

Lemma str_gt_compare (a b : string) : str_gt a b = true <-> String.compare a b = Gt.
Proof.
  unfold str_gt, String.ltb. rewrite (String.compare_antisym a b).
  destruct (String.compare b a); cbn; intuition congruence.
Qed.

Lemma str_le_refl (a : string) : str_le a a.
Proof. apply str_le_compare. by rewrite string_compare_refl. Qed.

Lemma str_lt_trans (a b c : string) :
  str_lt a b = true -> str_lt b c = true -> str_lt a c = true.
Proof. rewrite !str_lt_compare. apply string_compare_lt_trans. Qed.

Lemma str_le_lt_or_eq (a b : string) : str_le a b <-> str_lt a b = true \/ a = b.
Proof.
  rewrite str_le_compare, str_lt_compare. split.
  - destruct (String.compare a b) eqn:H; [|by left|done].
    right. by apply String.compare_eq_iff.
  - intros [->| ->]; [done|]. by rewrite string_compare_refl.
Qed.

Lemma str_le_trans (a b c : string) : str_le a b -> str_le b c -> str_le a c.
Proof.
  rewrite !str_le_lt_or_eq. intros [Hab| ->] [Hbc| ->]; eauto using str_lt_trans.
Qed.

Lemma str_lt_le_trans (a b c : string) :
  str_lt a b = true -> str_le b c -> str_lt a c = true.
Proof. rewrite str_le_lt_or_eq. intros Hab [Hbc| <-]; eauto using str_lt_trans. Qed.

Lemma str_lt_irrefl (a : string) : str_lt a a = false.
Proof. unfold str_lt, String.ltb. by rewrite string_compare_refl. Qed.


Lemma str_le_total (a b : string) : str_le a b \/ str_le b a.
Proof.
  rewrite !str_le_compare, (String.compare_antisym b a).
  destruct (String.compare a b); cbn; intuition congruence.
Qed.

Lemma str_not_lt_gt_eq (a b : string) :
  str_lt a b = false -> str_gt a b = false -> a = b.
Proof.
  intros Hlt Hgt. apply String.compare_eq_iff.
  destruct (String.compare a b) eqn:H; [done| |].
  - apply str_lt_compare in H. congruence.
  - apply str_gt_compare in H. congruence.
Qed.

(** [new Map(pairs)] has distinct keys whatever the pairs. *)
Lemma Map_from_distinct (pairs : list (string * positive)) : NoDup (keys (Map_from pairs)).
Proof.
  unfold Map_from. generalize (NoDup_nil_2 (A := string)).
  change (@nil string) with (keys []). generalize (@nil (string * positive)).
  induction pairs as [|[k v] pairs IH]; intros acc Hacc; cbn [fold_left]; [done|].
  apply IH. by apply Map_set_NoDup.
Qed.

Lemma strict_eq_string (a b : string) :
  strict_eq (VString a) (VString b) = true <-> a = b.
Proof. cbn. apply String.eqb_eq. Qed.

Lemma strict_eq_boolean (a b : bool) :
  strict_eq (VBoolean a) (VBoolean b) = true <-> a = b.
Proof. cbn. destruct a, b; cbn; intuition congruence. Qed.

(** ** Sorting by insertion *)

Lemma StronglySorted_weaken {A} (R R' : A -> A -> Prop) (l : list A) :
  (forall x y, R x y -> R' x y) -> StronglySorted R l -> StronglySorted R' l.
Proof.
  intros HR Hs. induction Hs as [|x l _ IH Hx]; constructor; [done|].
  eapply Forall_impl; [exact Hx|]. intros y. apply HR.
Qed.

Section InsertionSort.
Context {A : Type} (cmp : A -> A -> Z) (R : A -> A -> Prop) (P : A -> Prop).
Hypothesis cmp_not_after : forall x y, P x -> P y -> (0 <? cmp x y) = false -> R x y.
Hypothesis cmp_after : forall x y, P x -> P y -> (0 <? cmp x y) = true -> R y x.

Lemma sort_insert_perm (x : A) (l : list A) : sort_insert cmp x l ≡ₚ x :: l.
Proof.
  induction l as [|y l IH]; cbn [sort_insert]; [done|].
  destruct (0 <? cmp x y); [|done].
  rewrite IH. apply Permutation_swap.
Qed.

Lemma Array_sort_perm (l : list A) : Array_sort cmp l ≡ₚ l.
Proof.
  unfold Array_sort. induction l as [|x l IH]; cbn [foldr]; [done|].
  by rewrite sort_insert_perm, IH.
Qed.

Lemma sort_insert_HdRel (a x : A) (l : list A) :
  R a x -> HdRel R a l -> HdRel R a (sort_insert cmp x l).
Proof.
  intros Hax Hal. destruct l as [|y l]; cbn [sort_insert]; [by constructor|].
  destruct (0 <? cmp x y); constructor; [|done]. by inversion Hal.
Qed.

Lemma sort_insert_Sorted (x : A) (l : list A) :
  P x -> Forall P l -> Sorted R l -> Sorted R (sort_insert cmp x l).
Proof.
  intros Px. induction l as [|y l IH]; intros Pl Hs; cbn [sort_insert].
  - by repeat constructor.
  - apply Forall_cons in Pl as [Py Pl]. inversion Hs as [|? ? Hs' Hhd]; subst.
    destruct (0 <? cmp x y) eqn:Hc.
    + constructor; [by apply IH|]. apply sort_insert_HdRel; [|done].
      by apply cmp_after.
    + constructor; [done|]. constructor. by apply cmp_not_after.
Qed.

Lemma Array_sort_Sorted (l : list A) : Forall P l -> Sorted R (Array_sort cmp l).
Proof.
  unfold Array_sort. induction l as [|x l IH]; intros Pl; cbn [foldr]; [constructor|].
  apply Forall_cons in Pl as [Px Pl]. apply sort_insert_Sorted; [done| |by apply IH].
  fold (Array_sort cmp l). by rewrite Array_sort_perm.
Qed.

End InsertionSort.

Section Properties.
Context {host : Platform}.

(** ** filterMap *)

Lemma filterMap_eq (σ : State) (m : list (string * positive))
    (field : TimeEntryKey) (query : JSValue) :
  NoDup (keys m) ->
  filterMap m field query σ =
  (List.filter (fun p => strict_eq (get_field (heap σ !!! snd p) field) query) m, σ).
Proof.
  intros Hnd. unfold filterMap, bind, gets, ret. cbn.
  rewrite Map_from_NoDup; [done|].
  by eapply NoDup_keys_sublist; [apply List_filter_sublist|].
Qed.

(** C7.  [filterMap] returns the pairs of the map whose entry has the
    named field strictly equal to the query, and no others; what it
    returns is a subsequence of the map, so relative order is kept; the
    component state (the entries, the map it holds) is left as it was. *)
Theorem filterMap_spec (σ : State) (m : list (string * positive))
    (field : TimeEntryKey) (query : JSValue) :
  NoDup (keys m) ->
  (forall uuid entry,
      (uuid, entry) ∈ fst (filterMap m field query σ) <->
      (uuid, entry) ∈ m /\ strict_eq (get_field (heap σ !!! entry) field) query = true) /\
  sublist (fst (filterMap m field query σ)) m /\
  snd (filterMap m field query σ) = σ.
Proof.
  intros Hnd. rewrite filterMap_eq by done. cbn. split; [|split; [|done]].
  - intros uuid entry. by rewrite elem_of_List_filter.
  - apply List_filter_sublist.
Qed.

(** ** validateEntry *)

Lemma collision_true (h : gmap positive TimeEntry) (uuid : string)
    (s e : number) (l : list (string * positive)) :
  collision h uuid s e l = true <->
  exists k o, (k, o) ∈ l /\ k <> uuid /\
    overlap s e (stamp (date (h !!! o)) (start (h !!! o)))
                (stamp (date (h !!! o)) (end_ (h !!! o))) = true.
Proof.
  induction l as [|[k o] l IH]; cbn [collision].
  - split; [done|]. intros (k & o & Hin & _). by apply elem_of_nil in Hin.
  - destruct (String.eqb_spec uuid k) as [->|Hne].
    + rewrite IH. split.
      * intros (k' & o' & Hin & Hk & Hov). exists k', o'. split; [by right|done].
      * intros (k' & o' & Hin & Hk & Hov).
        apply elem_of_cons in Hin as [Heq|Hin]; [congruence|]. eauto.
    + destruct (overlap s e _ _) eqn:Hov.
      * split; [|done]. intros _. exists k, o. split; [left|]. split; [congruence|done].
      * rewrite IH. split.
        -- intros (k' & o' & Hin & Hk & Hov'). exists k', o'. split; [by right|done].
        -- intros (k' & o' & Hin & Hk & Hov').
           apply elem_of_cons in Hin as [Heq|Hin]; [|by eauto].
           inversion Heq; subst. congruence.
Qed.

Lemma verdict_unfold (σ : State) (entry : positive) (uuid : string) :
  NoDup (keys (entries σ)) ->
  verdict σ entry uuid =
  let e := heap σ !!! entry in
  if str_ge (start e) (end_ e) then false
  else negb (collision (heap σ) uuid (stamp (date e) (start e)) (stamp (date e) (end_ e))
               (List.filter (fun p => strict_eq (get_field (heap σ !!! snd p) Kdate)
                                                (VString (date e))) (entries σ))).
Proof.
  intros Hnd. unfold verdict, validateEntry, bind, read, gets, ret, write_valid, modify.
  cbn zeta. cbn [fst snd].
  destruct (str_ge _ _); [done|].
  rewrite filterMap_eq by done.
  by destruct (collision _ _ _ _ _).
Qed.

(** The only effect of [validateEntry] is the flag, set to the value it
    returns. *)
Lemma validateEntry_writes (σ : State) (entry : positive) (uuid : string) :
  validateEntry entry uuid σ =
  (verdict σ entry uuid,
   with_heap (fun h => <[entry := set_valid (verdict σ entry uuid) (h !!! entry)]> h) σ).
Proof.
  unfold verdict, validateEntry, bind, read, gets, ret, write_valid, modify.
  cbn zeta. cbn [fst snd].
  destruct (str_ge _ _); [done|].
  unfold filterMap, bind, gets, ret.
  by destruct (collision _ _ _ _ _).
Qed.

Lemma verdict_blocked (σ : State) (entry : positive) (uuid : string) :
  NoDup (keys (entries σ)) ->
  str_ge (start (heap σ !!! entry)) (end_ (heap σ !!! entry)) = false ->
  verdict σ entry uuid = false <-> blocked σ entry uuid.
Proof.
  intros Hnd Hse. rewrite verdict_unfold by done. cbn zeta. rewrite Hse.
  rewrite negb_false_iff, collision_true. unfold blocked, overlaps.
  split.
  - intros (k & o & Hin & Hk & Hov). exists k, o.
    apply elem_of_List_filter in Hin as [Hin Hd]. cbn in Hd.
    apply String.eqb_eq in Hd. done.
  - intros (k & o & Hin & Hk & Hd & Hov). exists k, o.
    split; [|done]. apply elem_of_List_filter. split; [done|].
    cbn. by apply String.eqb_eq.
Qed.

Lemma starts_at_stamp (e : TimeEntry) : starts_at e = stamp (date e) (start e).
Proof. done. Qed.

Lemma ends_at_stamp (e : TimeEntry) : ends_at e = stamp (date e) (end_ e).
Proof. done. Qed.

(** The test of [validateEntry] is the half-open test on the
    timestamps. *)
Lemma overlap_half_open (s1 e1 s2 e2 : number) :
  overlap s1 e1 s2 e2 = true <-> half_open_overlap s1 e1 s2 e2.
Proof.
  unfold overlap, half_open_overlap, at_or_before, before, num_le, num_lt.
  rewrite orb_true_iff, !andb_true_iff.
  destruct s1 as [s1|], e1 as [e1|], s2 as [s2|], e2 as [e2|];
    rewrite ?Z.leb_le, ?Z.ltb_lt; intuition congruence.
Qed.

Lemma blocked_collides (σ : State) (entry : positive) (uuid : string) :
  blocked σ entry uuid <-> collides σ entry uuid.
Proof.
  unfold blocked, collides, overlaps. rewrite !starts_at_stamp, !ends_at_stamp.
  split; intros (k & o & Hin & Hk & Hd & Hov); exists k, o;
    rewrite !starts_at_stamp, !ends_at_stamp in *; (split; [done|]);
    (split; [done|]); (split; [done|]); by apply overlap_half_open.
Qed.

(** C1.  [validateEntry] changes nothing but the [valid] flag of the
    entry it is given, and returns the value it stores there.  With
    [start >= end] that value is [false] whatever the map holds;
    otherwise it is [false] exactly when an entry under another
    identifier has the same date and, with [s1], [e1] the timestamps of
    the entry and [s2], [e2] those of the other, [s2 <= s1 < e2] or
    [s1 <= s2 < e1]; and [true] exactly when there is no such entry. *)
Theorem validateEntry_spec (σ : State) (entry : positive) (uuid : string) :
  NoDup (keys (entries σ)) ->
  let e := heap σ !!! entry in
  let r := fst (validateEntry entry uuid σ) in
  let σ' := snd (validateEntry entry uuid σ) in
  σ' = with_heap (fun h => <[entry := set_valid r e]> h) σ /\
  valid (heap σ' !!! entry) = r /\
  (str_ge (start e) (end_ e) = true -> r = false) /\
  (str_ge (start e) (end_ e) = false ->
     (r = false <-> collides σ entry uuid) /\
     (r = true <-> ~ collides σ entry uuid)).
Proof.
  intros Hnd e r σ'. subst r σ'. rewrite validateEntry_writes. cbn [fst snd].
  split; [done|]. split.
  - unfold with_heap. cbn [heap]. by rewrite lookup_total_insert_eq.
  - split.
    + intros Hse. rewrite verdict_unfold by done. cbn zeta. fold e. by rewrite Hse.
    + intros Hse. pose proof (verdict_blocked σ entry uuid Hnd Hse) as Hb.
      rewrite blocked_collides in Hb.
      split; [done|]. rewrite <- Hb. by destruct (verdict σ entry uuid).
Qed.

(** ** updateValidationStatus *)

Lemma same_data_refl (e : TimeEntry) : same_data e e.
Proof. by repeat split. Qed.

Lemma same_data_trans (a b c : TimeEntry) : same_data a b -> same_data b c -> same_data a c.
Proof. unfold same_data. intuition congruence. Qed.

Lemma same_data_set_valid (b : bool) (e : TimeEntry) : same_data e (set_valid b e).
Proof. by repeat split. Qed.

Lemma same_data_set_dirty (b : bool) (e : TimeEntry) : same_data e (set_dirty b e).
Proof. by repeat split. Qed.

Lemma data_equiv_refl (σ : State) : data_equiv σ σ.
Proof. split; [done|]. intros l. apply same_data_refl. Qed.

Lemma data_equiv_trans (a b c : State) : data_equiv a b -> data_equiv b c -> data_equiv a c.
Proof.
  intros [He1 Hd1] [He2 Hd2]. split; [congruence|].
  intros l. eapply same_data_trans; eauto.
Qed.

Lemma data_equiv_write (σ : State) (l : positive) (f : TimeEntry -> TimeEntry) :
  (forall e, same_data e (f e)) ->
  data_equiv σ (with_heap (fun h => <[l := f (h !!! l)]> h) σ).
Proof.
  intros Hf. split; [done|]. intros l'. unfold with_heap. cbn [heap].
  destruct (decide (l = l')) as [->|Hne].
  - rewrite lookup_total_insert_eq. apply Hf.
  - rewrite lookup_total_insert_ne by done. apply same_data_refl.
Qed.

Lemma validateEntry_data_equiv (σ : State) (entry : positive) (uuid : string) :
  data_equiv σ (snd (validateEntry entry uuid σ)).
Proof.
  rewrite validateEntry_writes. cbn [snd].
  apply data_equiv_write. intros e. apply same_data_set_valid.
Qed.

Lemma collision_data (h h' : gmap positive TimeEntry) (uuid : string)
    (s e : number) (l : list (string * positive)) :
  (forall o, same_data (h !!! o) (h' !!! o)) ->
  collision h uuid s e l = collision h' uuid s e l.
Proof.
  intros Hd. induction l as [|[k o] l IH]; cbn [collision]; [done|].
  destruct (Hd o) as (-> & -> & -> & _). by rewrite IH.
Qed.

(** The verdict on an entry depends on dates and times only. *)
Lemma verdict_data_equiv (σ σ' : State) (entry : positive) (uuid : string) :
  NoDup (keys (entries σ)) -> data_equiv σ σ' ->
  verdict σ entry uuid = verdict σ' entry uuid.
Proof.
  intros Hnd [He Hd]. rewrite !verdict_unfold by congruence. cbn zeta.
  destruct (Hd entry) as (<- & <- & <- & _). rewrite <- He.
  destruct (str_ge _ _); [done|]. f_equal.
  rewrite (collision_data _ _ _ _ _ _ Hd). f_equal.
  apply filter_ext. intros [k o]. cbn. by destruct (Hd o) as (-> & _).
Qed.

Lemma overlaps_data (a a' b b' : TimeEntry) :
  same_data a a' -> same_data b b' -> overlaps a b = overlaps a' b'.
Proof. unfold overlaps. intros (-> & -> & -> & _) (-> & -> & -> & _). done. Qed.

Lemma overlap_sym (s1 e1 s2 e2 : number) : overlap s1 e1 s2 e2 = overlap s2 e2 s1 e1.
Proof. unfold overlap. apply orb_comm. Qed.

Lemma overlaps_sym (a b : TimeEntry) : overlaps a b = overlaps b a.
Proof. apply overlap_sym. Qed.

Lemma for_each_validate_data_equiv (l : list (string * positive)) (σ : State) :
  data_equiv σ
    (snd (for_each l (fun uuid entry => _ <- validateEntry entry uuid ;; ret tt)%M σ)).
Proof.
  revert σ. induction l as [|[k o] l IH]; intros σ; cbn [for_each].
  - apply data_equiv_refl.
  - unfold bind at 1 2. rewrite validateEntry_writes. cbn [ret].
    eapply data_equiv_trans; [|apply IH].
    apply data_equiv_write. intros e. apply same_data_set_valid.
Qed.

Lemma updateValidationStatus_data_equiv (σ : State) :
  data_equiv σ (snd (updateValidationStatus σ)).
Proof.
  unfold updateValidationStatus, bind at 1, gets. apply for_each_validate_data_equiv.
Qed.

Lemma decided_data_equiv (σ σ' : State) (l : positive) (b : bool) :
  NoDup (keys (entries σ)) -> data_equiv σ σ' -> decided σ l b -> decided σ' l b.
Proof.
  intros Hnd Heq Hd k Hin. rewrite <- (verdict_data_equiv σ σ') by done.
  apply Hd. by rewrite (proj1 Heq).
Qed.

Lemma for_each_validate_decided (rest : list (string * positive)) (σ : State)
    (l : positive) (b : bool) :
  NoDup (keys (entries σ)) -> decided σ l b ->
  (forall p, p ∈ rest -> p ∈ entries σ) ->
  valid (heap σ !!! l) = b \/ l ∈ map snd rest ->
  valid (heap (snd (for_each rest
           (fun uuid entry => _ <- validateEntry entry uuid ;; ret tt)%M σ)) !!! l) = b.
Proof.
  revert σ. induction rest as [|[k o] rest IH]; intros σ Hnd Hdec Hsub Hl; cbn [for_each].
  - destruct Hl as [Hl|Hl]; [done|]. by apply elem_of_nil in Hl.
  - unfold bind at 1 2. rewrite validateEntry_writes. cbn [ret].
    set (σ1 := with_heap _ σ).
    assert (Heq : data_equiv σ σ1).
    { apply data_equiv_write. intros e. apply same_data_set_valid. }
    apply IH.
    + by rewrite <- (proj1 Heq).
    + by eapply decided_data_equiv.
    + intros p Hp. rewrite <- (proj1 Heq). apply Hsub. by right.
    + subst σ1. unfold with_heap. cbn [heap].
      destruct (decide (o = l)) as [->|Hne].
      * left. rewrite lookup_total_insert_eq. cbn.
        apply Hdec, Hsub. left.
      * rewrite lookup_total_insert_ne by done.
        destruct Hl as [Hl|Hl]; [by left|]. right.
        cbn in Hl. apply elem_of_cons in Hl as [Hl|Hl]; [congruence|done].
Qed.

(** After the pass, the flag of an entry held under one identifier only
    is the verdict on it. *)
Lemma updateValidationStatus_flag (σ : State) (k : string) (l : positive) :
  NoDup (keys (entries σ)) -> (k, l) ∈ entries σ ->
  (forall k', (k', l) ∈ entries σ -> k' = k) ->
  valid (heap (snd (updateValidationStatus σ)) !!! l) = verdict σ l k.
Proof.
  intros Hnd Hin Huniq. unfold updateValidationStatus, bind at 1, gets.
  apply for_each_validate_decided; [done| |done|].
  - intros k' Hk'. by rewrite (Huniq k' Hk').
  - right. apply list_elem_of_fmap. by exists (k, l).
Qed.

(** An entry with a same-date overlapping entry under another identifier
    is invalid after the pass. *)
Lemma updateValidationStatus_overlap_invalid (σ : State)
    (k1 : string) (l1 : positive) (k2 : string) (l2 : positive) :
  NoDup (keys (entries σ)) ->
  (k1, l1) ∈ entries σ -> (k2, l2) ∈ entries σ -> k1 <> k2 ->
  date (heap σ !!! l1) = date (heap σ !!! l2) ->
  overlaps (heap σ !!! l1) (heap σ !!! l2) = true ->
  valid (heap (snd (updateValidationStatus σ)) !!! l1) = false.
Proof.
  intros Hnd H1 H2 Hk Hdate Hov.
  unfold updateValidationStatus, bind at 1, gets.
  apply for_each_validate_decided; [done| |done|].
  - intros k Hin.
    destruct (str_ge (start (heap σ !!! l1)) (end_ (heap σ !!! l1))) eqn:Hse.
    + rewrite verdict_unfold by done. cbn zeta. by rewrite Hse.
    + apply verdict_blocked; [done..|].
      destruct (decide (k = k2)) as [->|Hne].
      * assert (l1 = l2) as <- by (by eapply NoDup_keys_inj).
        exists k1, l1. done.
      * exists k2, l2. done.
  - right. apply list_elem_of_fmap. by exists (k1, l1).
Qed.

(** Two intervals of timestamps with an instant in common pass the
    half-open test. *)
Lemma shared_instant_overlap (s1 e1 s2 e2 t : Z) :
  s1 <= t < e1 -> s2 <= t < e2 ->
  half_open_overlap (Num s1) (Num e1) (Num s2) (Num e2).
Proof.
  intros H1 H2. unfold half_open_overlap, at_or_before, before.
  destruct (Z.le_gt_cases s2 s1); [left|right]; lia.
Qed.

(** C2.  After [updateValidationStatus], two entries held under
    different identifiers that have the same date and pass the half-open
    test on their timestamps are not both valid; put the other way, when
    two entries of the same date are both valid and [Date.parse] reads
    the date+start and date+end of both, no instant lies in both
    intervals [start, end). *)
Theorem updateValidationStatus_valid_disjoint (σ : State) :
  NoDup (keys (entries σ)) ->
  let σ' := snd (updateValidationStatus σ) in
  forall k1 l1 k2 l2,
    (k1, l1) ∈ entries σ' -> (k2, l2) ∈ entries σ' -> k1 <> k2 ->
    date (heap σ' !!! l1) = date (heap σ' !!! l2) ->
    (half_open_overlap (starts_at (heap σ' !!! l1)) (ends_at (heap σ' !!! l1))
                       (starts_at (heap σ' !!! l2)) (ends_at (heap σ' !!! l2)) ->
     ~ (valid (heap σ' !!! l1) = true /\ valid (heap σ' !!! l2) = true)) /\
    (forall s1 e1 s2 e2 : Z,
       starts_at (heap σ' !!! l1) = Num s1 -> ends_at (heap σ' !!! l1) = Num e1 ->
       starts_at (heap σ' !!! l2) = Num s2 -> ends_at (heap σ' !!! l2) = Num e2 ->
       valid (heap σ' !!! l1) = true -> valid (heap σ' !!! l2) = true ->
       forall t, ~ (s1 <= t < e1 /\ s2 <= t < e2)).
Proof.
  intros Hnd σ' k1 l1 k2 l2 H1 H2 Hk Hdate.
  destruct (updateValidationStatus_data_equiv σ) as [He Hd]. fold σ' in He, Hd.
  rewrite <- He in H1, H2.
  assert (Hov : half_open_overlap
                  (starts_at (heap σ' !!! l1)) (ends_at (heap σ' !!! l1))
                  (starts_at (heap σ' !!! l2)) (ends_at (heap σ' !!! l2)) ->
                valid (heap σ' !!! l1) = false).
  { intros Hov. apply overlap_half_open in Hov.
    apply (updateValidationStatus_overlap_invalid σ k1 l1 k2 l2); try done.
    - destruct (Hd l1) as (-> & _), (Hd l2) as (-> & _). done.
    - by rewrite (overlaps_data _ _ _ _ (Hd l1) (Hd l2)). }
  split.
  - intros Ho [Hv1 _]. rewrite Hov in Hv1; done.
  - intros s1 e1 s2 e2 Hs1 He1 Hs2 He2 Hv1 _ t [Ht1 Ht2].
    rewrite Hov in Hv1; [done|]. rewrite Hs1, He1, Hs2, He2.
    by eapply shared_instant_overlap.
Qed.

Lemma for_each_validate_cons (k : string) (o : positive)
    (l : list (string * positive)) (σ : State) :
  for_each ((k, o) :: l) (fun uuid entry => _ <- validateEntry entry uuid ;; ret tt)%M σ =
  for_each l (fun uuid entry => _ <- validateEntry entry uuid ;; ret tt)%M
    (with_heap (fun h => <[o := set_valid (verdict σ o k) (h !!! o)]> h) σ).
Proof.
  cbn [for_each]. unfold bind at 1 2. by rewrite validateEntry_writes.
Qed.

Lemma for_each_validate_frame (l : list (string * positive)) (σ : State) :
  let σ' := snd (for_each l (fun uuid entry => _ <- validateEntry entry uuid ;; ret tt)%M σ) in
  trace σ' = trace σ /\ store σ' = store σ /\ conns σ' = conns σ.
Proof.
  revert σ. induction l as [|[k o] l IH]; intros σ; [done|].
  rewrite for_each_validate_cons. cbn zeta.
  destruct (IH (with_heap (fun h => <[o := set_valid (verdict σ o k) (h !!! o)]> h) σ))
    as (-> & -> & ->).
  done.
Qed.

(** The pass makes no call to the database. *)
Lemma updateValidationStatus_trace (σ : State) :
  trace (snd (updateValidationStatus σ)) = trace σ.
Proof.
  unfold updateValidationStatus, bind at 1, gets. apply for_each_validate_frame.
Qed.

(** ** Tasks *)

Lemma run_andThen (t k : Task) (σ : State) :
  fulfils t -> run (andThen t k) σ = run k (run t σ).
Proof.
  intros Ht. revert σ. induction Ht as [|A c f _ IH|t _ IH]; intros σ; cbn [andThen run].
  - done.
  - destruct (c σ) as [a σ1]. apply IH.
  - apply IH.
Qed.

Lemma fulfils_cascade (db : nat) (l : list (string * positive)) : fulfils (cascade db l).
Proof.
  induction l as [|[k o] l IH]; cbn [cascade]; [constructor|].
  constructor. intros [|]; [|done]. repeat (constructor; intros).
  done.
Qed.

Lemma fulfils_saveValidDitryEntries : fulfils saveValidDitryEntries.
Proof. repeat (constructor; intros). apply fulfils_cascade. Qed.

Lemma run_call_await (f : Task) (σ : State) :
  fulfils f -> run (call_await f Done) σ = run f σ.
Proof. intros Hf. unfold call_await. by rewrite run_andThen. Qed.

(** ** The cascade *)

(** What the loop of the cascade does to the state: flags and the store
    change, the map does not; the calls it makes are [put]s of valid,
    clean entries. *)
Lemma cascade_run (db : nat) (l : list (string * positive)) (σ : State) :
  let σ' := run (cascade db l) σ in
  data_equiv σ σ' /\ conns σ' = conns σ /\
  exists puts, trace σ' = trace σ ++ puts /\
               Forall is_put puts /\ Forall clean_put puts.
Proof.
  revert σ. induction l as [|[k o] l IH]; intros σ; cbn [cascade run].
  - split; [apply data_equiv_refl|]. split; [done|].
    exists []. by rewrite app_nil_r.
  - rewrite validateEntry_writes.
    set (σ1 := with_heap _ σ).
    assert (Heq1 : data_equiv σ σ1).
    { apply data_equiv_write. intros e. apply same_data_set_valid. }
    destruct (verdict σ o k) eqn:Hv.
    + cbn [run]. unfold write_dirty, db_put, modify.
      set (σ2 := with_heap _ σ1).
      assert (Heq2 : data_equiv σ1 σ2).
      { apply data_equiv_write. intros e. apply same_data_set_dirty. }
      set (v := heap σ2 !!! o).
      set (σ3 := mkState _ _ _ _ _).
      destruct (IH σ3) as (Heq & Hc & puts & Htr & Hp & Hcl).
      split.
      { eapply data_equiv_trans; [exact Heq1|].
        eapply data_equiv_trans; [exact Heq2|].
        eapply data_equiv_trans; [|exact Heq]. split; [done|].
        intros l'. apply same_data_refl. }
      split; [by rewrite Hc|].
      exists (EvPut db k v :: puts).
      split; [rewrite Htr; cbn; by rewrite <- app_assoc|].
      split; constructor; try done.
      subst v σ2 σ1. unfold with_heap. cbn.
      by rewrite !lookup_total_insert_eq.
    + destruct (IH σ1) as (Heq & Hc & puts & Htr & Hp & Hcl).
      split; [by eapply data_equiv_trans|]. split; [by rewrite Hc|].
      by exists puts.
Qed.

Lemma saveValidDitryEntries_run (σ : State) :
  let σ' := run saveValidDitryEntries σ in
  data_equiv σ σ' /\ conns σ' = S (conns σ) /\
  exists puts, trace σ' = trace σ ++ EvOpen (conns σ) :: puts /\
               Forall is_put puts /\ Forall clean_put puts.
Proof.
  unfold saveValidDitryEntries. cbn [run]. unfold gets at 1.
  unfold filterMap, bind, gets, ret, getDB. cbn [run].
  set (l := Map_from _). set (σ1 := mkState _ _ _ _ _).
  destruct (cascade_run (conns σ) l σ1) as (Heq & Hc & puts & Htr & Hp & Hcl).
  split; [|split].
  - eapply data_equiv_trans; [|exact Heq]. split; [done|]. intros ?. apply same_data_refl.
  - by rewrite Hc.
  - exists puts. split; [|done]. rewrite Htr. cbn. by rewrite <- app_assoc.
Qed.

(** ** saveEntry *)

(** [saveEntry] run without interruption, branch by branch. *)
Lemma saveEntry_run (σ : State) (entry : positive) (uuid : string) :
  run (saveEntry entry uuid) σ =
  let σ1 := snd (validateEntry entry uuid σ) in
  if verdict σ entry uuid then
    let σ2 := snd (persist entry uuid σ1) in
    if valid (heap σ !!! entry) then run saveValidDitryEntries σ2 else σ2
  else snd (write_dirty entry true σ1).
Proof.
  unfold saveEntry. cbn [run]. unfold read at 1, gets at 1.
  rewrite validateEntry_writes. cbn [snd].
  destruct (verdict σ entry uuid).
  - cbn [run]. unfold persist, bind, write_dirty, getDB, db_put, db_close, modify.
    cbn [run snd conns].
    destruct (valid (heap σ !!! entry)); [|done].
    by rewrite run_call_await by apply fulfils_saveValidDitryEntries.
  - done.
Qed.

Lemma persist_effect (σ : State) (entry : positive) (uuid : string) :
  let σ' := snd (persist entry uuid σ) in
  let v := set_dirty false (heap σ !!! entry) in
  data_equiv σ σ' /\ conns σ' = S (conns σ) /\
  store σ' = store_put (store σ) uuid v /\
  trace σ' = trace σ ++ [EvOpen (conns σ); EvPut (conns σ) uuid v; EvClose (conns σ)].
Proof.
  unfold persist, bind, write_dirty, getDB, db_put, db_close, modify. cbn.
  rewrite lookup_total_insert_eq. split; [|split; [done|split; [done|]]].
  - split; [done|]. intros l. cbn.
    destruct (decide (entry = l)) as [->|Hne].
    + rewrite lookup_total_insert_eq. apply same_data_set_dirty.
    + rewrite lookup_total_insert_ne by done. apply same_data_refl.
  - by rewrite <- !app_assoc.
Qed.

(** C4.  When validation fails, [saveEntry] finishes in its first
    synchronous segment: the entry is left invalid and dirty, no call is
    made to the database and the store is what it was, so a copy saved
    before stays as it is. *)
Theorem saveEntry_invalid_not_persisted (σ : State) (entry : positive) (uuid : string) :
  fst (validateEntry entry uuid σ) = false ->
  let σ' := run (saveEntry entry uuid) σ in
  advance (saveEntry entry uuid) σ = (σ', Done) /\
  dirty (heap σ' !!! entry) = true /\
  valid (heap σ' !!! entry) = false /\
  trace σ' = trace σ /\
  store σ' = store σ /\
  store_get (store σ') uuid = store_get (store σ) uuid.
Proof.
  intros Hv σ'. change (fst (validateEntry entry uuid σ)) with (verdict σ entry uuid) in Hv.
  assert (Hrun : σ' = snd (write_dirty entry true (snd (validateEntry entry uuid σ)))).
  { subst σ'. rewrite saveEntry_run. cbn zeta. by rewrite Hv. }
  split.
  - rewrite Hrun. unfold saveEntry. cbn [advance]. unfold read at 1, gets at 1.
    rewrite validateEntry_writes, Hv. cbn [advance snd]. done.
  - rewrite Hrun, validateEntry_writes, Hv. unfold write_dirty, modify, with_heap. cbn.
    by rewrite !lookup_total_insert_eq.
Qed.

(** Every [put] made by [saveEntry] or by the cascade, when the task runs
    from start to end with nothing scheduled at its awaits, writes an
    entry that is valid and not dirty. *)
Lemma saveEntry_trace (σ : State) (entry : positive) (uuid : string) :
  exists evs, trace (run (saveEntry entry uuid) σ) = trace σ ++ evs /\ Forall clean_put evs.
Proof.
  rewrite saveEntry_run. cbn zeta. rewrite validateEntry_writes. cbn [snd].
  set (σ1 := with_heap _ σ).
  destruct (verdict σ entry uuid) eqn:Hv.
  - destruct (persist_effect σ1 entry uuid) as (_ & Hc & _ & Htr).
    set (σ2 := snd (persist entry uuid σ1)) in *.
    assert (Hput : clean_put (EvPut (conns σ1) uuid (set_dirty false (heap σ1 !!! entry)))).
    { subst σ1. unfold with_heap. cbn. by rewrite lookup_total_insert_eq. }
    destruct (valid (heap σ !!! entry)).
    + destruct (saveValidDitryEntries_run σ2) as (_ & _ & puts & Htr2 & _ & Hcl).
      eexists. split.
      * rewrite Htr2, Htr. rewrite <- app_assoc. reflexivity.
      * apply Forall_app. split.
        -- apply Forall_cons. split; [exact I|].
           apply Forall_cons. split; [exact Hput|].
           apply Forall_cons. split; [exact I|]. apply Forall_nil_2.
        -- apply Forall_cons. split; [exact I|exact Hcl].
    + eexists. split; [exact Htr|].
      apply Forall_cons. split; [exact I|].
      apply Forall_cons. split; [exact Hput|].
      apply Forall_cons. split; [exact I|]. apply Forall_nil_2.
  - exists []. by rewrite app_nil_r.
Qed.

(** Where the component itself calls [saveEntry], the pass has just run:
    the flag read as [oldValidFlag] is already the verdict, and a save
    that succeeds is followed by the cascade. *)
Lemma saveEntry_after_pass (σ : State) (uuid : string) (entry : positive) :
  NoDup (keys (entries σ)) -> (uuid, entry) ∈ entries σ ->
  (forall k', (k', entry) ∈ entries σ -> k' = uuid) ->
  let σ1 := snd (updateValidationStatus σ) in
  valid (heap σ1 !!! entry) = verdict σ1 entry uuid /\
  (verdict σ1 entry uuid = true ->
   run (saveEntry entry uuid) σ1 =
   run saveValidDitryEntries
       (snd (persist entry uuid (snd (validateEntry entry uuid σ1))))).
Proof.
  intros Hnd Hin Huniq σ1.
  assert (Hflag : valid (heap σ1 !!! entry) = verdict σ1 entry uuid).
  { subst σ1. rewrite updateValidationStatus_flag with (k := uuid) by done.
    apply verdict_data_equiv; [done|apply updateValidationStatus_data_equiv]. }
  split; [done|]. intros Hv. rewrite saveEntry_run. cbn zeta. by rewrite Hflag, Hv.
Qed.

(** ** deleteEntry *)

Lemma store_get_delete (s : list (string * TimeEntry)) (k : string) :
  store_get (store_delete s k) k = None.
Proof.
  induction s as [|[k' v] s IH]; cbn; [done|].
  destruct (String.eqb_spec k k') as [->|Hne]; cbn; [done|].
  destruct (String.eqb_spec k k'); done.
Qed.

(** C6.  [deleteEntry] takes the identifier out of the map, then runs
    the cascade exactly when the entry it was given is not valid, then
    opens a connection, deletes the identifier from the store and closes
    the connection. *)
Theorem deleteEntry_spec (σ : State) (entry : positive) (uuid : string) :
  let σ' := run (deleteEntry entry uuid) σ in
  let σ1 := with_entries (fun m => Map_delete m uuid) σ in
  let σ2 := if valid (heap σ !!! entry) then σ1 else run saveValidDitryEntries σ1 in
  σ' = snd (removeFromStore uuid σ2) /\
  (uuid ∉ keys (entries σ')) /\
  store_get (store σ') uuid = None /\
  trace σ' = trace σ2 ++ [EvOpen (conns σ2); EvDelete (conns σ2) uuid; EvClose (conns σ2)] /\
  (valid (heap σ !!! entry) = true -> trace σ2 = trace σ) /\
  (valid (heap σ !!! entry) = false ->
   exists puts, trace σ2 = trace σ ++ EvOpen (conns σ) :: puts /\ Forall is_put puts).
Proof.
  intros σ' σ1 σ2.
  assert (Hrun : σ' = snd (removeFromStore uuid σ2)).
  { subst σ' σ2. unfold deleteEntry. cbn [run]. unfold modify at 1, read at 1, gets at 1.
    fold σ1. change (heap σ1) with (heap σ).
    rewrite run_andThen.
    - destruct (valid (heap σ !!! entry)); cbn [negb].
      + done.
      + by rewrite run_call_await by apply fulfils_saveValidDitryEntries.
    - destruct (valid (heap σ !!! entry)); cbn [negb]; [constructor|].
      unfold call_await. generalize fulfils_saveValidDitryEntries.
      generalize saveValidDitryEntries. intros t Ht.
      induction Ht; cbn [andThen]; repeat constructor; done. }
  assert (He : entries σ2 = Map_delete (entries σ) uuid).
  { subst σ2. destruct (valid (heap σ !!! entry)); [done|].
    by destruct (saveValidDitryEntries_run σ1) as ([<- _] & _). }
  split; [done|]. rewrite Hrun.
  unfold removeFromStore, bind, getDB, db_delete, db_close, modify. cbn.
  split; [rewrite He; apply Map_delete_gone|].
  split; [apply store_get_delete|].
  split; [by rewrite <- !app_assoc|].
  subst σ2. split; intros Hv; rewrite Hv; [done|].
  destruct (saveValidDitryEntries_run σ1) as (_ & _ & puts & Htr & Hp & _).
  by exists puts.
Qed.

(** ** Connections *)

(** C9.  [saveValidDitryEntries] opens a connection and makes no call
    but [put]s after that: the connection it opened is still open when it
    has finished. *)
Theorem saveValidDitryEntries_leaves_connection_open (σ : State) :
  exists evs,
    trace (run saveValidDitryEntries σ) = trace σ ++ evs /\
    EvOpen (conns σ) ∈ evs /\ EvClose (conns σ) ∉ evs.
Proof.
  destruct (saveValidDitryEntries_run σ) as (_ & _ & puts & Htr & Hp & _).
  exists (EvOpen (conns σ) :: puts). split; [done|]. split; [left|].
  intros [Heq|Hin]%elem_of_cons; [done|].
  rewrite Forall_forall in Hp. by apply Hp in Hin.
Qed.

(** The other operations close the connection they open. *)
Lemma load_closes (db : nat) (ks : list string) (ok : bool) (σ : State) :
  exists gets_,
    trace (run (load db ks ok (fun ok' =>
             db_close db ;; if ok' then sortEntries ;; updateValidationStatus ;; Done
                            else Throw)%T) σ)
    = trace σ ++ gets_ ++ [EvClose db].
Proof.
  revert ok σ. induction ks as [|key ks IH]; intros ok σ; cbn [load run].
  - exists []. unfold db_close, modify.
    destruct ok; [|done]. cbn [run]. unfold sortEntries, bind, gets, modify.
    cbn [run]. set (σ1 := with_entries _ _).
    destruct (updateValidationStatus σ1) as [[] σ2] eqn:Hu.
    cbn [run]. pose proof (updateValidationStatus_trace σ1) as Ht.
    rewrite Hu in Ht. cbn in Ht. by rewrite Ht.
  - unfold db_get at 1. destruct (store_get (store σ) key) as [v|].
    + cbn [run]. unfold alloc, modify. cbn [run].
      edestruct IH as [g Hg]. rewrite Hg. cbn.
      exists (EvGet db key :: g). by rewrite <- app_assoc.
    + edestruct IH as [g Hg]. rewrite Hg. cbn.
      exists (EvGet db key :: g). by rewrite <- app_assoc.
Qed.

Lemma loadEntries_closes (σ : State) :
  exists reads,
    trace (run loadEntries σ) = trace σ ++ EvOpen (conns σ) :: reads ++ [EvClose (conns σ)].
Proof.
  unfold loadEntries. cbn [run]. unfold getDB at 1, db_getAllKeys at 1. cbn [run].
  edestruct load_closes as [g Hg]. rewrite Hg. cbn.
  exists (EvGetAllKeys (conns σ) :: g). by rewrite <- !app_assoc.
Qed.

(** ** The map keeps distinct keys *)

Lemma keeps_run (P : State -> Prop) (t : Task) (σ : State) :
  keeps P t -> P σ -> P (run t σ).
Proof.
  intros Ht. revert σ. induction Ht as [| |A c k Hc _ IH|t _ IH]; intros σ Hσ; cbn [run].
  - done.
  - done.
  - specialize (Hc σ Hσ). destruct (c σ) as [a σ1]. by apply IH.
  - by apply IH.
Qed.

Lemma keeps_andThen (P : State -> Prop) (t k : Task) :
  keeps P t -> keeps P k -> keeps P (andThen t k).
Proof.
  intros Ht Hk. induction Ht; cbn [andThen]; try by constructor.
  done.
Qed.

Lemma map_ok_same_entries {A} (c : M A) :
  (forall σ, entries (snd (c σ)) = entries σ) ->
  forall σ, map_ok σ -> map_ok (snd (c σ)).
Proof. intros Hc σ. unfold map_ok. by rewrite Hc. Qed.

Lemma validateEntry_entries (entry : positive) (uuid : string) (σ : State) :
  entries (snd (validateEntry entry uuid σ)) = entries σ.
Proof. by rewrite validateEntry_writes. Qed.

Lemma updateValidationStatus_entries (σ : State) :
  entries (snd (updateValidationStatus σ)) = entries σ.
Proof. symmetry. apply updateValidationStatus_data_equiv. Qed.

Lemma sortEntries_map_ok (σ : State) : map_ok (snd (sortEntries σ)).
Proof. unfold sortEntries, bind, gets, modify, map_ok. cbn. apply Map_from_distinct. Qed.

Ltac same_entries :=
  apply map_ok_same_entries; intros ?;
  first [ apply validateEntry_entries | apply updateValidationStatus_entries | reflexivity ].

Ltac keeps_sync x := apply keeps_Sync; [try same_entries | intros x].

Lemma keeps_cascade (db : nat) (l : list (string * positive)) : keeps map_ok (cascade db l).
Proof.
  induction l as [|[k o] l IH]; cbn [cascade]; [constructor|].
  keeps_sync ok. destruct ok; [|done].
  keeps_sync u1. keeps_sync u2. by constructor.
Qed.

Lemma keeps_saveValidDitryEntries : keeps map_ok saveValidDitryEntries.
Proof.
  unfold saveValidDitryEntries. keeps_sync m. keeps_sync d. keeps_sync db.
  constructor. apply keeps_cascade.
Qed.

Lemma keeps_call_await (f : Task) : keeps map_ok f -> keeps map_ok (call_await f Done).
Proof. intros Hf. apply keeps_andThen; [done|repeat constructor]. Qed.

Lemma keeps_saveEntry (entry : positive) (uuid : string) : keeps map_ok (saveEntry entry uuid).
Proof.
  unfold saveEntry. keeps_sync e. keeps_sync ok. destruct ok.
  - keeps_sync u1. keeps_sync db. constructor. keeps_sync u2. constructor. keeps_sync u3.
    destruct (valid e); [|constructor].
    apply keeps_call_await, keeps_saveValidDitryEntries.
  - keeps_sync u1. constructor.
Qed.

Lemma keeps_deleteEntry (entry : positive) (uuid : string) :
  keeps map_ok (deleteEntry entry uuid).
Proof.
  unfold deleteEntry. keeps_sync u1.
  { intros σ Hσ. apply Map_delete_NoDup, Hσ. }
  keeps_sync e. apply keeps_andThen.
  - destruct (negb (valid e)); [|constructor].
    apply keeps_call_await, keeps_saveValidDitryEntries.
  - keeps_sync db. constructor. keeps_sync u2. constructor. keeps_sync u3. constructor.
Qed.

Lemma keeps_addNew (uuid : string) (today : JSDate) : keeps map_ok (addNew uuid today).
Proof.
  unfold addNew. keeps_sync s. keeps_sync entry. keeps_sync u1.
  { intros σ Hσ. apply Map_set_NoDup, Hσ. }
  keeps_sync u2. apply keeps_saveEntry.
Qed.

Lemma keeps_generateInputCallback (field : TimeEntryKey) (uuid value : string) :
  keeps map_ok (generateInputCallback field uuid value).
Proof.
  unfold generateInputCallback. keeps_sync m. destruct (Map_get m uuid) as [current|]; [|constructor].
  keeps_sync u1. keeps_sync u2.
  { intros σ Hσ. apply Map_set_NoDup, Hσ. }
  keeps_sync u3. apply keeps_call_await, keeps_saveEntry.
Qed.

Lemma keeps_loadEntries : keeps map_ok loadEntries.
Proof.
  unfold loadEntries. keeps_sync db. constructor. keeps_sync ks. constructor.
  generalize true. induction ks as [|key ks IH]; intros ok; cbn [load].
  - keeps_sync u1. destruct ok; [|constructor].
    keeps_sync u2. { intros σ _. apply sortEntries_map_ok. }
    keeps_sync u3. constructor.
  - keeps_sync got. constructor. destruct got as [v|]; [|apply IH].
    keeps_sync entry. keeps_sync u1. { intros σ Hσ. apply Map_set_NoDup, Hσ. }
    apply IH.
Qed.

(** Whatever the component does, run to completion, leaves the keys of
    its map distinct. *)
Lemma handlers_keep_map (σ : State) :
  map_ok σ ->
  (forall entry uuid, map_ok (run (saveEntry entry uuid) σ)) /\
  (forall entry uuid, map_ok (run (deleteEntry entry uuid) σ)) /\
  (forall uuid today, map_ok (run (addNew uuid today) σ)) /\
  (forall field uuid value, map_ok (run (generateInputCallback field uuid value) σ)) /\
  map_ok (run loadEntries σ).
Proof.
  intros Hσ. repeat split; intros; apply keeps_run;
    auto using keeps_saveEntry, keeps_deleteEntry, keeps_addNew,
               keeps_generateInputCallback, keeps_loadEntries.
Qed.

(** ** What is written to the store *)

Lemma run_with_nil (t : Task) (σ : State) : run_with t [] σ = run t σ.
Proof.
  revert σ. induction t as [| |A c k IH|t IH]; intros σ; cbn [run run_with]; try done.
  destruct (c σ) as [a σ1]. apply IH.
Qed.

Lemma own_calls_Sync {A} (c : M A) (k : A -> Task) (others : list (State -> State))
    (σ : State) :
  own_calls (Sync c k) others σ =
  drop (length (trace σ)) (trace (snd (c σ))) ++ own_calls (k (fst (c σ))) others (snd (c σ)).
Proof. cbn [own_calls]. by destruct (c σ). Qed.

Lemma own_calls_Await (t : Task) (others : list (State -> State)) (σ : State) :
  own_calls (Await t) others σ =
  match others with
  | [] => own_calls t [] σ
  | f :: fs => own_calls t fs (f σ)
  end.
Proof. done. Qed.

(** Run on its own, a task adds to the trace the calls it makes. *)
Lemma own_calls_run (t : Task) (σ : State) :
  appending t -> trace (run t σ) = trace σ ++ own_calls t [] σ.
Proof.
  intros Ht. revert σ.
  induction Ht as [| |A c k Hc _ IH|t _ IH]; intros σ; cbn [run own_calls].
  - by rewrite app_nil_r.
  - by rewrite app_nil_r.
  - destruct (Hc σ) as [evs Hevs]. destruct (c σ) as [a σ1]. cbn [snd] in Hevs.
    rewrite IH, Hevs, drop_app_length. by rewrite <- app_assoc.
  - apply IH.
Qed.

Ltac appending_step :=
  intros ?; try rewrite validateEntry_writes;
  unfold filterMap, bind, gets, ret, read, write_dirty, db_put, db_close, getDB, modify;
  cbn [snd trace with_heap];
  first [ exists []; by rewrite app_nil_r | eexists; reflexivity ].

Lemma appending_andThen (t k : Task) : appending t -> appending k -> appending (andThen t k).
Proof. intros Ht Hk. induction Ht; cbn [andThen]; [done|constructor|by constructor..]. Qed.

Lemma appending_cascade (db : nat) (l : list (string * positive)) : appending (cascade db l).
Proof.
  induction l as [|[k o] l IH]; cbn [cascade]; [constructor|].
  constructor; [appending_step|]. intros [|]; [|done].
  constructor; [appending_step|]. intros _.
  constructor; [appending_step|]. intros _. by constructor.
Qed.

Lemma appending_saveValidDitryEntries : appending saveValidDitryEntries.
Proof.
  unfold saveValidDitryEntries. constructor; [appending_step|]. intros m.
  constructor; [appending_step|]. intros d.
  constructor; [appending_step|]. intros db. constructor. apply appending_cascade.
Qed.

Lemma appending_saveEntry (entry : positive) (uuid : string) :
  appending (saveEntry entry uuid).
Proof.
  unfold saveEntry. constructor; [appending_step|]. intros e.
  constructor; [appending_step|]. intros [|].
  - constructor; [appending_step|]. intros _.
    constructor; [appending_step|]. intros db. constructor.
    constructor; [appending_step|]. intros _. constructor.
    constructor; [appending_step|]. intros _.
    destruct (valid e); [|constructor].
    apply appending_andThen; [apply appending_saveValidDitryEntries|repeat constructor].
  - constructor; [appending_step|]. intros _. constructor.
Qed.

Lemma own_calls_andThen_Done (t : Task) (others : list (State -> State)) (σ : State) :
  own_calls (andThen t Done) others σ = own_calls t others σ.
Proof.
  revert others σ.
  induction t as [| |A c k IH|t IH]; intros others σ; cbn [andThen own_calls]; try done.
  - destruct (c σ) as [a σ1]. by rewrite IH.
  - destruct others as [|f fs]; apply IH.
Qed.

(** The loop of the cascade validates, clears the dirty flag and calls
    [put] in one synchronous step: whatever runs at its awaits, what it
    writes is valid and not dirty. *)
Lemma own_calls_cascade (db : nat) (l : list (string * positive)) (k : Task)
    (others : list (State -> State)) (σ : State) :
  (forall others' σ', own_calls k others' σ' = []) ->
  Forall clean_put (own_calls (andThen (cascade db l) k) others σ).
Proof.
  intros Hk. revert others σ.
  induction l as [|[uuid o] l IH]; intros others σ; cbn [cascade andThen own_calls].
  - by rewrite Hk.
  - rewrite validateEntry_writes.
    set (σ1 := with_heap _ σ).
    change (trace σ1) with (trace σ). rewrite drop_all. cbn [app].
    destruct (verdict σ o uuid) eqn:Hv; [|apply IH].
    cbn [andThen own_calls]. unfold write_dirty, db_put, modify.
    set (σ2 := with_heap _ σ1). set (v := heap σ2 !!! o). set (σ3 := mkState _ _ _ _ _).
    change (trace σ2) with (trace σ1). rewrite drop_all. cbn [app].
    change (trace σ3) with (trace σ2 ++ [EvPut db uuid v]). rewrite drop_app_length.
    cbn [app]. apply Forall_cons. split.
    + subst v σ2 σ1. unfold with_heap. cbn. by rewrite !lookup_total_insert_eq.
    + destruct others as [|f fs]; apply IH.
Qed.

Lemma own_calls_saveValidDitryEntries (k : Task) (others : list (State -> State))
    (σ : State) :
  (forall others' σ', own_calls k others' σ' = []) ->
  Forall clean_put (own_calls (andThen saveValidDitryEntries k) others σ).
Proof.
  intros Hk. unfold saveValidDitryEntries. cbn [andThen own_calls]. unfold gets at 1.
  rewrite drop_all. cbn [app].
  unfold filterMap, bind, gets, ret, getDB. cbn [own_calls trace].
  rewrite drop_all, drop_app_length. cbn [app].
  apply Forall_cons. split; [exact I|].
  destruct others as [|f fs]; by apply own_calls_cascade.
Qed.

(** Where [saveEntry] waits for the connection, when the entry
    validates. *)
Lemma saveEntry_advance (σ : State) (entry : positive) (uuid : string) :
  verdict σ entry uuid = true ->
  fst (advance (saveEntry entry uuid) σ) =
  snd (getDB (snd (write_dirty entry false (snd (validateEntry entry uuid σ))))).
Proof.
  intros Hv. unfold saveEntry. cbn [advance]. unfold read at 1, gets at 1.
  rewrite validateEntry_writes, Hv. cbn [advance snd]. by unfold write_dirty, getDB, modify.
Qed.

(** C10.  Every [put] the cascade of [saveValidDitryEntries] makes writes
    an entry that is valid and not dirty at that moment, whatever other
    handlers do while the cascade is suspended.  Every [put] that
    [saveEntry] makes, its own and those of the cascade it starts, writes
    such an entry when no handler run while [saveEntry] waits for the
    connection changes the [valid] or the [dirty] flag of the entry, and
    so when none runs.  Run on their own, both add to the trace of
    database calls exactly the calls counted here. *)
Theorem puts_are_valid_and_clean (σ : State) (entry : positive) (uuid : string)
    (others : list (State -> State)) :
  match others with
  | [] => True
  | f :: _ =>
      let σ1 := fst (advance (saveEntry entry uuid) σ) in
      valid (heap (f σ1) !!! entry) = valid (heap σ1 !!! entry) /\
      dirty (heap (f σ1) !!! entry) = dirty (heap σ1 !!! entry)
  end ->
  Forall clean_put (own_calls saveValidDitryEntries others σ) /\
  Forall clean_put (own_calls (saveEntry entry uuid) others σ) /\
  trace (run saveValidDitryEntries σ) = trace σ ++ own_calls saveValidDitryEntries [] σ /\
  trace (run (saveEntry entry uuid) σ) = trace σ ++ own_calls (saveEntry entry uuid) [] σ.
Proof.
  intros Hkeep. split.
  { rewrite <- own_calls_andThen_Done. by apply own_calls_saveValidDitryEntries. }
  split; [|split; [apply own_calls_run, appending_saveValidDitryEntries
                  |apply own_calls_run, appending_saveEntry]].
  destruct (verdict σ entry uuid) eqn:Hv.
  - rewrite (saveEntry_advance σ entry uuid Hv) in Hkeep. revert Hkeep.
    unfold saveEntry. cbn [own_calls]. unfold read at 1, gets at 1.
    rewrite drop_all. cbn [app]. rewrite validateEntry_writes, Hv.
    set (σ1 := with_heap _ σ). change (trace σ1) with (trace σ). rewrite drop_all. cbn [app].
    cbn [own_calls snd]. unfold write_dirty, getDB, modify.
    set (σ2 := with_heap _ σ1). change (trace σ2) with (trace σ1). rewrite drop_all.
    cbn [own_calls snd trace app]. rewrite drop_app_length. cbn [app].
    set (σ3 := mkState _ _ _ _ _).
    assert (H3 : valid (heap σ3 !!! entry) = true /\ dirty (heap σ3 !!! entry) = false).
    { subst σ3 σ2 σ1. unfold with_heap. cbn. by rewrite !lookup_total_insert_eq. }
    intros Hkeep. apply Forall_cons. split; [exact I|].
    assert (Hclose : forall τ' fs',
              Forall clean_put
                (own_calls
                   (db_close (conns σ) ;;
                    if valid (heap σ !!! entry)
                    then call_await saveValidDitryEntries Done else Done)%T fs' τ')).
    { intros τ' fs'. rewrite own_calls_Sync. cbn [db_close modify snd fst trace].
      rewrite drop_app_length. cbn [app].
      apply Forall_cons. split; [exact I|].
      destruct (valid (heap σ !!! entry)); [|constructor].
      unfold call_await. apply own_calls_saveValidDitryEntries.
      intros others' σ'. by destruct others'. }
    assert (Hrest : forall τ fs,
              valid (heap τ !!! entry) = true /\ dirty (heap τ !!! entry) = false ->
              Forall clean_put
                (own_calls
                   (db_put (conns σ) entry uuid ;;
                    Await (db_close (conns σ) ;;
                           if valid (heap σ !!! entry)
                           then call_await saveValidDitryEntries Done else Done))%T fs τ)).
    { intros τ fs Hτ. rewrite own_calls_Sync. cbn [db_put modify snd fst trace].
      rewrite drop_app_length. cbn [app].
      apply Forall_cons. split; [exact Hτ|].
      destruct fs as [|g gs]; rewrite own_calls_Await; apply Hclose. }
    destruct others as [|f fs].
    + exact (Hrest σ3 [] H3).
    + cbn zeta in Hkeep. destruct H3 as [H3v H3d]. rewrite H3v, H3d in Hkeep.
      exact (Hrest (f σ3) fs Hkeep).
  - clear Hkeep. unfold saveEntry. cbn [own_calls]. unfold read at 1, gets at 1.
    rewrite drop_all. cbn [app]. rewrite validateEntry_writes, Hv.
    set (σ1 := with_heap _ σ). change (trace σ1) with (trace σ). rewrite drop_all. cbn [app].
    cbn [own_calls]. unfold write_dirty, modify.
    set (σ2 := with_heap _ σ1). change (trace σ2) with (trace σ1). rewrite drop_all.
    constructor.
Qed.

(** ** addNew *)

Lemma fold_later (ends : list string) (floor : string) :
  let s := fold_left (fun max current => if str_gt max current then max else current)
                     ends floor in
  str_le floor s /\ (forall x, x ∈ ends -> str_le x s) /\ (s = floor \/ s ∈ ends).
Proof.
  revert floor. induction ends as [|x ends IH]; intros floor; cbn [fold_left].
  - split; [apply str_le_refl|]. split; [|by left].
    intros x Hx. by apply elem_of_nil in Hx.
  - set (m := if str_gt floor x then floor else x).
    assert (Hm : str_le floor m /\ str_le x m /\ (m = floor \/ m = x)).
    { subst m. unfold str_gt. destruct (String.ltb x floor) eqn:Hlt.
      - split; [apply str_le_refl|]. split; [|by left].
        apply str_le_lt_or_eq. by left.
      - split; [|split; [apply str_le_refl|by right]].
        unfold str_le, str_ge. by rewrite Hlt. }
    destruct Hm as (Hf & Hx & Hm). destruct (IH m) as (H1 & H2 & H3).
    split; [by eapply str_le_trans|]. split.
    + intros y [->|Hy]%elem_of_cons; [by eapply str_le_trans|by apply H2].
    + destruct H3 as [H3|H3]; [|right; by right].
      rewrite H3. destruct Hm as [->| ->]; [by left|right; left].
Qed.

Lemma getLatestTime_eq (σ : State) (d : string) :
  NoDup (keys (entries σ)) ->
  getLatestTime d σ =
  (fold_left (fun max current => if str_gt max current then max else current)
     (map (fun p => end_ (heap σ !!! snd p))
        (List.filter (fun p => strict_eq (get_field (heap σ !!! snd p) Kdate) (VString d))
           (entries σ)))
     "07:00", σ).
Proof.
  intros Hnd. unfold getLatestTime, bind. unfold gets at 1.
  by rewrite filterMap_eq.
Qed.

(** The start time [getLatestTime] proposes is the greatest, in string
    order, of ["07:00"] and the end times of the entries on that date. *)
Lemma getLatestTime_spec (σ : State) (d : string) :
  NoDup (keys (entries σ)) ->
  let s := fst (getLatestTime d σ) in
  snd (getLatestTime d σ) = σ /\
  str_le "07:00" s /\
  (forall k o, (k, o) ∈ entries σ -> date (heap σ !!! o) = d ->
               str_le (end_ (heap σ !!! o)) s) /\
  (s = "07:00" \/
   exists k o, (k, o) ∈ entries σ /\ date (heap σ !!! o) = d /\ end_ (heap σ !!! o) = s).
Proof.
  intros Hnd. rewrite getLatestTime_eq by done. cbn [fst snd].
  match goal with |- context [fold_left ?f ?l ?a] =>
    destruct (fold_later l a) as (H1 & H2 & H3); set (s := fold_left f l a) in * end.
  split; [done|]. split; [done|]. split.
  - intros k o Hin Hd. apply H2. apply list_elem_of_fmap. exists (k, o).
    split; [done|]. apply elem_of_List_filter. split; [done|].
    cbn. by apply String.eqb_eq.
  - destruct H3 as [H3|H3]; [by left|right].
    apply list_elem_of_fmap in H3 as ([k o] & Hs & Hin).
    apply elem_of_List_filter in Hin as [Hin Hd]. cbn in Hd, Hs.
    apply String.eqb_eq in Hd. by exists k, o.
Qed.


Lemma saveEntry_data_equiv (σ : State) (entry : positive) (uuid : string) :
  data_equiv σ (run (saveEntry entry uuid) σ).
Proof.
  rewrite saveEntry_run. cbn zeta.
  pose proof (validateEntry_data_equiv σ entry uuid) as H1.
  set (σ1 := snd (validateEntry entry uuid σ)) in *.
  destruct (verdict σ entry uuid).
  - destruct (persist_effect σ1 entry uuid) as (H2 & _).
    destruct (valid (heap σ !!! entry)).
    + destruct (saveValidDitryEntries_run (snd (persist entry uuid σ1))) as (H3 & _).
      eauto using data_equiv_trans.
    + eauto using data_equiv_trans.
  - eapply data_equiv_trans; [exact H1|].
    apply data_equiv_write. intros e. apply same_data_set_dirty.
Qed.

(** [addNew] run without interruption: the entry is built, put into
    the map, the map revalidated, the entry saved. *)
Lemma addNew_run (σ : State) (uuid : string) (today : JSDate) :
  run (addNew uuid today) σ =
  let d := dateStringOf today in
  let s := fst (getLatestTime d σ) in
  let σ0 := snd (getLatestTime d σ) in
  let e := if str_ge s "23:30" then "23:59"
           else slice05 (toLocaleTimeString (num_add (stamp d s) (1000 * 60 * 30))) in
  let l := fresh (dom (heap σ0)) in
  let σ2 := with_entries (fun m => Map_set m uuid l)
              (with_heap (fun h => <[l := mkTimeEntry d s e "Meeting" "" false true]> h) σ0) in
  run (saveEntry l uuid) (snd (updateValidationStatus σ2)).
Proof.
  unfold addNew. cbn [run]. destruct (getLatestTime _ σ) as [s σ0]. cbn [fst snd].
  unfold alloc at 1. cbn [run]. unfold modify at 1.
  by destruct (updateValidationStatus _) as [[] σ3].
Qed.






(** ** sortEntries *)

Lemma key_le_trans (a b c : TimeEntry) : key_le a b -> key_le b c -> key_le a c.
Proof.
  unfold key_le. rewrite !starts_at_stamp.
  destruct (stamp (date a) (start a)) as [ta|]; [|done].
  destruct (stamp (date b) (start b)) as [tb|]; [|done].
  destruct (stamp (date c) (start c)) as [tc|]; [|done].
  intros [Hab|[-> Hab]] [Hbc|[-> Hbc]]; [left; lia|by left|by left|].
  right. split; [done|].
  destruct Hab as [Hab|[Eab Hab]], Hbc as [Hbc|[Ebc Hbc]].
  - left. by eapply str_lt_trans.
  - left. by rewrite <- Ebc.
  - left. by rewrite Eab.
  - right. split; [congruence|]. by eapply str_le_trans.
Qed.

Lemma compareEntries_not_after (a b : TimeEntry) :
  parses a -> parses b -> (0 <? compareEntries a b) = false -> key_le a b.
Proof.
  unfold parses, compareEntries, key_le, num_gt. rewrite !starts_at_stamp.
  destruct (stamp (date a) (start a)) as [ta|]; [|done].
  destruct (stamp (date b) (start b)) as [tb|]; [|done].
  intros _ _. cbn [num_lt].
  destruct (Z.ltb_spec ta tb); [by left|].
  destruct (Z.ltb_spec tb ta); [done|].
  intros Hc. right. split; [lia|].
  destruct (str_lt (category a) (category b)) eqn:Hc1; [by left|].
  destruct (str_gt (category a) (category b)) eqn:Hc2; [done|].
  right. split; [by apply str_not_lt_gt_eq|].
  destruct (str_lt (description a) (description b)) eqn:Hd1.
  { apply str_le_lt_or_eq. by left. }
  destruct (str_gt (description a) (description b)) eqn:Hd2; [done|].
  rewrite (str_not_lt_gt_eq _ _ Hd1 Hd2). apply str_le_refl.
Qed.

Lemma compareEntries_after (a b : TimeEntry) :
  parses a -> parses b -> (0 <? compareEntries a b) = true -> key_le b a.
Proof.
  unfold parses, compareEntries, key_le, num_gt. rewrite !starts_at_stamp.
  destruct (stamp (date a) (start a)) as [ta|]; [|done].
  destruct (stamp (date b) (start b)) as [tb|]; [|done].
  intros _ _. cbn [num_lt].
  destruct (Z.ltb_spec ta tb); [done|].
  destruct (Z.ltb_spec tb ta); [by left|].
  intros Hc. right. split; [lia|].
  destruct (str_lt (category a) (category b)) eqn:Hc1; [done|].
  destruct (str_gt (category a) (category b)) eqn:Hc2; [by left|].
  right. split; [symmetry; by apply str_not_lt_gt_eq|].
  destruct (str_lt (description a) (description b)) eqn:Hd1; [done|].
  destruct (str_gt (description a) (description b)) eqn:Hd2; [|done].
  apply str_le_lt_or_eq. by left.
Qed.

(** C8.  When the date+start of every entry parses, [sortEntries]
    leaves the entries as they are and replaces the map by a
    rearrangement of it in which every pair comes no later than all
    pairs after it: ascending by parsed date+start, equal timestamps by
    category, equal categories by description. *)
Theorem sortEntries_sorted (σ : State) :
  NoDup (keys (entries σ)) ->
  (forall k o, (k, o) ∈ entries σ -> parses (heap σ !!! o)) ->
  let σ' := snd (sortEntries σ) in
  heap σ' = heap σ /\
  entries σ' ≡ₚ entries σ /\
  StronglySorted (fun p q => key_le (heap σ !!! snd p) (heap σ !!! snd q)) (entries σ').
Proof.
  intros Hnd Hparse σ'. subst σ'. unfold sortEntries, bind, gets, modify. cbn.
  set (cmp := fun a b : string * positive => compareEntries (heap σ !!! a.2) (heap σ !!! b.2)).
  set (R := fun p q : string * positive => key_le (heap σ !!! p.2) (heap σ !!! q.2)).
  pose proof (Array_sort_perm cmp (entries σ)) as Hperm.
  rewrite Map_from_NoDup.
  2:{ unfold keys. change (map fst ?l) with (fst <$> l). by rewrite Hperm. }
  split; [done|]. split; [done|].
  apply Sorted_StronglySorted.
  { intros x y z. apply key_le_trans. }
  apply (Array_sort_Sorted cmp R (fun p => parses (heap σ !!! p.2))).
  - intros x y. apply compareEntries_not_after.
  - intros x y. apply compareEntries_after.
  - apply Forall_forall. intros [k o] Hin. by eapply Hparse.
Qed.

(** ** Loading *)

(** What [sortEntries] does to a map whose entries all parse, in the
    form the passes after it need. *)
Lemma sortEntries_effect (σ : State) :
  NoDup (keys (entries σ)) ->
  (forall k o, (k, o) ∈ entries σ -> parses (heap σ !!! o)) ->
  heap (snd (sortEntries σ)) = heap σ /\
  entries (snd (sortEntries σ)) ≡ₚ entries σ /\
  Sorted (fun p q => key_le (heap σ !!! snd p) (heap σ !!! snd q))
         (entries (snd (sortEntries σ))).
Proof.
  intros Hnd Hparse. unfold sortEntries, bind, gets, modify. cbn.
  set (cmp := fun a b : string * positive => compareEntries (heap σ !!! a.2) (heap σ !!! b.2)).
  pose proof (Array_sort_perm cmp (entries σ)) as Hperm.
  rewrite Map_from_NoDup.
  2:{ unfold keys. change (map fst ?l) with (fst <$> l). by rewrite Hperm. }
  split; [done|]. split; [done|].
  apply (Array_sort_Sorted cmp _ (fun p => parses (heap σ !!! p.2))).
  - intros x y. apply compareEntries_not_after.
  - intros x y. apply compareEntries_after.
  - apply Forall_forall. intros [k o] Hin. by eapply Hparse.
Qed.

Lemma store_get_listed (st : list (string * TimeEntry)) (key : string) :
  key ∈ map fst st -> exists v, store_get st key = Some v /\ (key, v) ∈ st.
Proof.
  induction st as [|[k v] st IH]; cbn; intros Hin; [by apply elem_of_nil in Hin|].
  destruct (String.eqb_spec key k) as [->|Hne].
  - exists v. split; [done|left].
  - apply elem_of_cons in Hin as [Hin|Hin]; [done|].
    destruct (IH Hin) as (v' & Hget & Hmem). exists v'. split; [done|by right].
Qed.

Lemma loaded_store (db : nat) (ks : list string) (σ : State) :
  store (loaded db ks σ) = store σ.
Proof.
  revert σ. induction ks as [|key ks IH]; intros σ; cbn [loaded]; [done|].
  destruct (store_get (store σ) key) as [v|]; [|done].
  unfold alloc, db_get. cbn [snd]. by rewrite IH.
Qed.

Lemma load_run (db : nat) (ks : list string) (ok : bool) (k : bool -> Task) (σ : State) :
  (forall key, key ∈ ks -> key ∈ map fst (store σ)) ->
  run (load db ks ok k) σ = run (k ok) (loaded db ks σ).
Proof.
  revert σ. induction ks as [|key ks IH]; intros σ Hks; cbn [load loaded run]; [done|].
  destruct (store_get_listed (store σ) key) as (v & Hget & _); [apply Hks; left|].
  unfold db_get at 1. rewrite Hget. cbn [run].
  unfold alloc, db_get, modify. cbn [run snd].
  apply IH. intros key' Hkey'. cbn [store with_entries with_heap]. apply Hks. by right.
Qed.

(** Every entry the map holds has a date+start the host can parse. *)
Lemma loaded_parses (db : nat) (ks : list string) (σ : State) :
  (forall k v, (k, v) ∈ store σ -> parses v) ->
  (forall k o, (k, o) ∈ entries σ -> parses (heap σ !!! o)) ->
  forall k o, (k, o) ∈ entries (loaded db ks σ) -> parses (heap (loaded db ks σ) !!! o).
Proof.
  revert σ. induction ks as [|key ks IH]; intros σ Hst Hent; cbn [loaded]; [done|].
  destruct (store_get (store σ) key) as [v|] eqn:Hget; [|done].
  unfold alloc, db_get. cbn [snd]. apply IH; cbn [store with_entries with_heap heap entries].
  - done.
  - set (l := fresh _). intros k o Hin.
    assert (Hv : parses v).
    { clear -Hget Hst. revert Hget Hst. generalize (store σ) as st.
      induction st as [|[k' v'] st IHst]; cbn; [done|]. intros Hget Hst.
      destruct (String.eqb_spec key k') as [->|Hne].
      - inversion Hget; subst. apply (Hst k'). left.
      - apply IHst; [done|]. intros k0 v0 Hin0. apply (Hst k0). by right. }
    destruct (decide (o = l)) as [->|Hne]; [by rewrite lookup_total_insert_eq|].
    rewrite lookup_total_insert_ne by done. apply (Hent k).
    clear -Hin Hne. revert Hin. generalize (entries σ) as m.
    induction m as [|[k' o'] m IHm]; cbn.
    + intros [Heq|Hin]%elem_of_cons; [congruence|by apply elem_of_nil in Hin].
    + destruct (String.eqb_spec key k') as [->|Hk].
      * intros [Heq|Hin]%elem_of_cons; [congruence|by right].
      * intros [Heq|Hin]%elem_of_cons; [rewrite Heq; left|right; by apply IHm].
Qed.

Lemma loaded_map_ok (db : nat) (ks : list string) (σ : State) :
  map_ok σ -> map_ok (loaded db ks σ).
Proof.
  revert σ. induction ks as [|key ks IH]; intros σ Hσ; cbn [loaded]; [done|].
  destruct (store_get (store σ) key) as [v|]; [|done].
  unfold alloc, db_get. cbn [snd]. apply IH. apply Map_set_NoDup, Hσ.
Qed.

Lemma key_le_data (a a' b b' : TimeEntry) :
  same_data a a' -> same_data b b' -> key_le a b -> key_le a' b'.
Proof.
  unfold key_le, starts_at. intros (-> & -> & _ & -> & ->) (-> & -> & _ & -> & ->). done.
Qed.

(** [loadEntries] run without interruption: the store is read into the
    map, the map sorted and revalidated. *)
Lemma loadEntries_run (σ : State) :
  run loadEntries σ =
  let σ1 := snd (db_getAllKeys (conns σ) (snd (getDB σ))) in
  let σ2 := snd (db_close (conns σ) (loaded (conns σ) (map fst (store σ)) σ1)) in
  snd (updateValidationStatus (snd (sortEntries σ2))).
Proof.
  unfold loadEntries. cbn [run]. unfold getDB at 1, db_getAllKeys at 1. cbn [run].
  rewrite load_run by (intros key Hkey; exact Hkey).
  cbn [run]. unfold db_close at 1, modify at 1. cbn [run].
  destruct (sortEntries _) as [[] σ3]. cbn [run snd].
  by destruct (updateValidationStatus σ3) as [[] σ4].
Qed.

(** X17.  [loadEntries] leaves the map sorted: when the date+start of
    every entry in the store and in the map parses, the map comes out
    ascending by timestamp, then category, then description, each pair no
    later than all pairs after it. *)
Theorem loadEntries_sorted (σ : State) :
  map_ok σ ->
  (forall k v, (k, v) ∈ store σ -> parses v) ->
  (forall k o, (k, o) ∈ entries σ -> parses (heap σ !!! o)) ->
  let σ' := run loadEntries σ in
  StronglySorted (fun p q => key_le (heap σ' !!! snd p) (heap σ' !!! snd q)) (entries σ').
Proof.
  intros Hok Hst Hent σ'. subst σ'. rewrite loadEntries_run. cbn zeta.
  set (σ1 := snd (db_getAllKeys (conns σ) (snd (getDB σ)))).
  set (σ2 := snd (db_close (conns σ) (loaded (conns σ) (map fst (store σ)) σ1))).
  assert (Hok2 : NoDup (keys (entries σ2))) by (by apply (loaded_map_ok _ _ σ1)).
  assert (Hp2 : forall k o, (k, o) ∈ entries σ2 -> parses (heap σ2 !!! o)).
  { apply (loaded_parses (conns σ) (map fst (store σ)) σ1); done. }
  destruct (sortEntries_effect σ2 Hok2 Hp2) as (Hheap & _ & Hsorted).
  apply Sorted_StronglySorted in Hsorted; [|intros x y z; apply key_le_trans].
  set (σ3 := snd (sortEntries σ2)) in *.
  pose proof (updateValidationStatus_data_equiv σ3) as [He Hd].
  set (σ4 := snd (updateValidationStatus σ3)) in *.
  rewrite <- He. eapply StronglySorted_weaken; [|exact Hsorted].
  intros p q Hpq. cbn beta in *. rewrite <- Hheap in Hpq.
  eapply key_le_data; [apply Hd|apply Hd|exact Hpq].
Qed.

End Properties.

(** * Further properties *)

Section Further.
Context {host : Platform}.

(** ** The validation pass *)

Lemma set_valid_set_valid (b b' : bool) (e : TimeEntry) :
  set_valid b' (set_valid b e) = set_valid b' e.
Proof. done. Qed.

Lemma set_valid_id (e : TimeEntry) : set_valid (valid e) e = e.
Proof. by destruct e. Qed.

Lemma for_each_validate_only_valid (l : list (string * positive)) (σ : State) :
  let σ' := snd (for_each l (fun uuid entry => _ <- validateEntry entry uuid ;; ret tt)%M σ) in
  entries σ' = entries σ /\ store σ' = store σ /\ trace σ' = trace σ /\
  conns σ' = conns σ /\
  forall o, heap σ' !!! o = set_valid (valid (heap σ' !!! o)) (heap σ !!! o).
Proof.
  revert σ. induction l as [|[k o] l IH]; intros σ.
  - cbn. repeat split; try done. intros o. by rewrite set_valid_id.
  - rewrite for_each_validate_cons. cbn zeta.
    set (σ1 := with_heap _ σ).
    destruct (IH σ1) as (He & Hs & Ht & Hc & Hh).
    repeat split; try done.
    intros o'. rewrite (Hh o'). subst σ1. unfold with_heap. cbn [heap].
    destruct (decide (o = o')) as [->|Hne].
    + by rewrite lookup_total_insert_eq.
    + by rewrite lookup_total_insert_ne.
Qed.

(** X2.  [updateValidationStatus] writes [valid] flags and nothing else:
    the map, the store and the trace of database calls are what they
    were, and every entry object is what it was but for its [valid]
    flag. *)
Theorem updateValidationStatus_writes_valid_only (σ : State) :
  let σ' := snd (updateValidationStatus σ) in
  entries σ' = entries σ /\ store σ' = store σ /\ trace σ' = trace σ /\
  conns σ' = conns σ /\
  forall o, heap σ' !!! o = set_valid (valid (heap σ' !!! o)) (heap σ !!! o).
Proof.
  unfold updateValidationStatus, bind at 1, gets.
  apply for_each_validate_only_valid.
Qed.

Lemma settle_cons (σ0 : State) (k : string) (o : positive)
    (l : list (string * positive)) (h : gmap positive TimeEntry) :
  settle σ0 ((k, o) :: l) h = settle σ0 l (<[o := set_valid (verdict σ0 o k) (h !!! o)]> h).
Proof. done. Qed.

Lemma for_each_validate_settle (σ0 : State) (l : list (string * positive)) (σ : State) :
  NoDup (keys (entries σ0)) -> data_equiv σ0 σ ->
  snd (for_each l (fun uuid entry => _ <- validateEntry entry uuid ;; ret tt)%M σ)
  = with_heap (settle σ0 l) σ.
Proof.
  intros Hnd. revert σ. induction l as [|[k o] l IH]; intros σ Heq.
  - by destruct σ.
  - rewrite for_each_validate_cons.
    rewrite <- (verdict_data_equiv σ0 σ) by done.
    rewrite IH.
    + unfold with_heap. cbn [heap entries store conns trace]. by rewrite settle_cons.
    + eapply data_equiv_trans; [exact Heq|].
      apply data_equiv_write. intros e. apply same_data_set_valid.
Qed.

Lemma updateValidationStatus_settle (σ : State) :
  NoDup (keys (entries σ)) ->
  snd (updateValidationStatus σ) = with_heap (settle σ (entries σ)) σ.
Proof.
  intros Hnd. unfold updateValidationStatus, bind at 1, gets.
  apply for_each_validate_settle; [done|apply data_equiv_refl].
Qed.

Lemma lookup_settle (σ0 : State) (l : list (string * positive))
    (h : gmap positive TimeEntry) (o : positive) :
  settle σ0 l h !! o =
  match last_verdict σ0 l o with
  | Some b => Some (set_valid b (h !!! o))
  | None => h !! o
  end.
Proof.
  revert h. induction l as [|[k o'] l IH]; intros h; [done|].
  rewrite settle_cons, IH. cbn [last_verdict].
  destruct (last_verdict σ0 l o) as [b|].
  - f_equal. destruct (decide (o' = o)) as [->|Hne].
    + by rewrite lookup_total_insert_eq.
    + by rewrite lookup_total_insert_ne.
  - destruct (decide (o' = o)) as [->|Hne].
    + by rewrite lookup_insert_eq.
    + by rewrite lookup_insert_ne.
Qed.

Lemma settle_settle (σ0 : State) (l : list (string * positive))
    (h : gmap positive TimeEntry) :
  settle σ0 l (settle σ0 l h) = settle σ0 l h.
Proof.
  apply map_eq. intros o. rewrite lookup_settle.
  pose proof (lookup_settle σ0 l h o) as Hlook.
  destruct (last_verdict σ0 l o) as [b|]; [|done].
  rewrite Hlook. by rewrite (lookup_total_correct _ _ _ Hlook).
Qed.

Lemma settle_verdicts (σ0 σ1 : State) (l : list (string * positive))
    (h : gmap positive TimeEntry) :
  (forall k o, verdict σ0 o k = verdict σ1 o k) -> settle σ0 l h = settle σ1 l h.
Proof.
  intros Hv. revert h. induction l as [|[k o] l IH]; intros h; [done|].
  by rewrite !settle_cons, Hv, IH.
Qed.

(** X3.  A second validation pass changes nothing: the state after two
    passes is the state after one. *)
Theorem updateValidationStatus_idempotent (σ : State) :
  NoDup (keys (entries σ)) ->
  snd (updateValidationStatus (snd (updateValidationStatus σ)))
  = snd (updateValidationStatus σ).
Proof.
  intros Hnd. pose proof (updateValidationStatus_data_equiv σ) as Heq.
  rewrite (updateValidationStatus_settle σ) in * by done.
  set (σ1 := with_heap _ σ) in *.
  rewrite updateValidationStatus_settle by (by rewrite <- (proj1 Heq)).
  assert (Hv : forall k o, verdict σ o k = verdict σ1 o k)
    by (intros k o; by apply verdict_data_equiv).
  unfold with_heap at 1. rewrite <- (settle_verdicts σ σ1) by done.
  subst σ1. unfold with_heap. cbn [heap entries store conns trace].
  by rewrite settle_settle.
Qed.

(** X1.  After the pass, an entry the map holds under one identifier is
    valid exactly when its start is before its end, in string order, and
    no entry under another identifier has the same date and passes the
    half-open test with it on the timestamps [Date.parse] returns, a
    comparison with a timestamp that is not a number being false. *)
Theorem updateValidationStatus_valid_iff (σ : State) (uuid : string) (entry : positive) :
  NoDup (keys (entries σ)) ->
  (uuid, entry) ∈ entries σ ->
  (forall k, (k, entry) ∈ entries σ -> k = uuid) ->
  let σ' := snd (updateValidationStatus σ) in
  valid (heap σ' !!! entry) = true <->
  str_lt (start (heap σ' !!! entry)) (end_ (heap σ' !!! entry)) = true /\
  ~ collides σ' entry uuid.
Proof.
  intros Hnd Hin Huniq σ'.
  pose proof (updateValidationStatus_data_equiv σ) as Heq. fold σ' in Heq.
  assert (Hnd' : NoDup (keys (entries σ'))) by (by rewrite <- (proj1 Heq)).
  assert (Hflag : valid (heap σ' !!! entry) = verdict σ' entry uuid).
  { subst σ'. rewrite (updateValidationStatus_flag σ uuid entry) by done.
    by apply verdict_data_equiv. }
  rewrite Hflag. unfold str_lt.
  destruct (String.ltb (start (heap σ' !!! entry)) (end_ (heap σ' !!! entry))) eqn:Hlt.
  - assert (Hge : str_ge (start (heap σ' !!! entry)) (end_ (heap σ' !!! entry)) = false)
      by (unfold str_ge; by rewrite Hlt).
    pose proof (verdict_blocked σ' entry uuid Hnd' Hge) as Hb.
    rewrite blocked_collides in Hb.
    destruct (verdict σ' entry uuid); split.
    + intros _. split; [done|]. intros Hbl. apply Hb in Hbl. done.
    + done.
    + done.
    + intros [_ Hnb]. exfalso. apply Hnb, Hb. done.
  - rewrite verdict_unfold by done. cbn zeta. unfold str_ge. rewrite Hlt. cbn.
    split; [done|]. by intros [? _].
Qed.

(** ** The store *)

Lemma store_get_put_eq (st : list (string * TimeEntry)) (k : string) (v : TimeEntry) :
  store_get (store_put st k v) k = Some v.
Proof.
  induction st as [|[k' v'] st IH]; cbn.
  - by rewrite String.eqb_refl.
  - destruct (String.eqb_spec k k') as [->|Hne]; cbn.
    + by rewrite String.eqb_refl.
    + destruct (String.ltb k k'); cbn.
      * by rewrite String.eqb_refl.
      * by destruct (String.eqb_spec k k').
Qed.

Lemma store_get_put_ne (st : list (string * TimeEntry)) (k k' : string) (v : TimeEntry) :
  k <> k' -> store_get (store_put st k' v) k = store_get st k.
Proof.
  intros Hne. induction st as [|[k0 v0] st IH]; cbn.
  - by destruct (String.eqb_spec k k').
  - destruct (String.eqb_spec k' k0) as [->|Hne0]; cbn.
    + by destruct (String.eqb_spec k k0).
    + destruct (String.ltb k' k0); cbn.
      * by destruct (String.eqb_spec k k').
      * destruct (String.eqb_spec k k0); [done|apply IH].
Qed.

Lemma store_get_delete_ne (st : list (string * TimeEntry)) (k k' : string) :
  k <> k' -> store_get (store_delete st k') k = store_get st k.
Proof.
  intros Hne. induction st as [|[k0 v0] st IH]; cbn; [done|].
  destruct (String.eqb_spec k' k0) as [->|Hne0]; cbn.
  - by destruct (String.eqb_spec k k0).
  - destruct (String.eqb_spec k k0); [done|apply IH].
Qed.

(** ** One round of the cascade *)

Lemma cascade_cons (db : nat) (k : string) (o : positive)
    (l : list (string * positive)) (σ : State) :
  run (cascade db ((k, o) :: l)) σ = run (cascade db l) (cascade_step db k o σ).
Proof.
  cbn [cascade run]. unfold cascade_step.
  destruct (validateEntry o k σ) as [[|] σ1]; [|done].
  cbn [run]. unfold write_dirty, db_put, modify. by cbn [run snd].
Qed.

Lemma cascade_step_heap (db : nat) (k : string) (o : positive) (σ : State) :
  heap (cascade_step db k o σ) =
  <[o := if verdict σ o k then set_dirty false (set_valid true (heap σ !!! o))
         else set_valid false (heap σ !!! o)]> (heap σ).
Proof.
  unfold cascade_step. rewrite validateEntry_writes.
  destruct (verdict σ o k).
  - unfold write_dirty, db_put, modify, with_heap. cbn.
    by rewrite lookup_total_insert_eq, insert_insert_eq.
  - done.
Qed.

Lemma cascade_step_store (db : nat) (k : string) (o : positive) (σ : State) :
  store (cascade_step db k o σ) =
  if verdict σ o k
  then store_put (store σ) k (set_dirty false (set_valid true (heap σ !!! o)))
  else store σ.
Proof.
  unfold cascade_step. rewrite validateEntry_writes.
  destruct (verdict σ o k).
  - unfold write_dirty, db_put, modify, with_heap. cbn.
    by rewrite !lookup_total_insert_eq.
  - done.
Qed.

Lemma cascade_step_data_equiv (db : nat) (k : string) (o : positive) (σ : State) :
  data_equiv σ (cascade_step db k o σ).
Proof.
  split.
  - unfold cascade_step. rewrite validateEntry_writes.
    by destruct (verdict σ o k).
  - intros l. rewrite cascade_step_heap.
    destruct (decide (o = l)) as [->|Hne].
    + rewrite lookup_total_insert_eq. by destruct (verdict σ l k).
    + rewrite lookup_total_insert_ne by done. apply same_data_refl.
Qed.

(** ** What the cascade leaves alone *)

Lemma cascade_heap_frame (db : nat) (l : list (string * positive)) (σ : State) (o : positive) :
  o ∉ map snd l -> heap (run (cascade db l) σ) !! o = heap σ !! o.
Proof.
  revert σ. induction l as [|[k o'] l IH]; intros σ Ho; [done|].
  cbn [map snd] in Ho. apply not_elem_of_cons in Ho as [Hne Ho].
  rewrite cascade_cons, IH by done.
  rewrite cascade_step_heap. by rewrite lookup_insert_ne.
Qed.

Lemma cascade_store_frame (db : nat) (l : list (string * positive)) (σ : State) (k : string) :
  k ∉ keys l -> store_get (store (run (cascade db l) σ)) k = store_get (store σ) k.
Proof.
  revert σ. induction l as [|[k' o] l IH]; intros σ Hk; [done|].
  unfold keys in Hk. cbn [map fst] in Hk. apply not_elem_of_cons in Hk as [Hne Hk].
  rewrite cascade_cons, IH by done.
  rewrite cascade_step_store. destruct (verdict σ o k'); [|done].
  by apply store_get_put_ne.
Qed.

(** What the loop does to the entries it goes through, none of them
    listed twice. *)
Lemma cascade_outcome (σ0 : State) (db : nat) (l : list (string * positive)) (σ : State) :
  NoDup (keys (entries σ0)) -> data_equiv σ0 σ ->
  NoDup (keys l) -> NoDup (map snd l) ->
  forall k o, (k, o) ∈ l ->
    heap (run (cascade db l) σ) !! o =
      Some (if verdict σ0 o k then set_dirty false (set_valid true (heap σ !!! o))
            else set_valid false (heap σ !!! o)) /\
    store_get (store (run (cascade db l) σ)) k =
      (if verdict σ0 o k then Some (set_dirty false (set_valid true (heap σ !!! o)))
       else store_get (store σ) k).
Proof.
  intros Hnd. revert σ. induction l as [|[k' o'] l IH]; intros σ Heq Hk Ho k o Hin.
  { by apply elem_of_nil in Hin. }
  unfold keys in Hk. cbn [map fst snd] in Hk, Ho.
  apply NoDup_cons in Hk as [Hk' Hk]. apply NoDup_cons in Ho as [Ho' Ho].
  rewrite cascade_cons.
  assert (Hv : verdict σ o' k' = verdict σ0 o' k')
    by (symmetry; by apply verdict_data_equiv).
  assert (Heq1 : data_equiv σ0 (cascade_step db k' o' σ))
    by (eapply data_equiv_trans; [exact Heq|apply cascade_step_data_equiv]).
  apply elem_of_cons in Hin as [Hin|Hin].
  - inversion Hin; subst k' o'. clear Hin.
    rewrite cascade_heap_frame, cascade_store_frame by done.
    rewrite cascade_step_heap, cascade_step_store, lookup_insert_eq, Hv.
    destruct (verdict σ0 o k); [|done]. by rewrite store_get_put_eq.
  - destruct (IH (cascade_step db k' o' σ) Heq1 Hk Ho k o Hin) as [Hh Hs].
    assert (Hne : o' <> o).
    { intros ->. apply Ho'. apply list_elem_of_fmap. by exists (k, o). }
    assert (Hnk : k <> k').
    { intros ->. apply Hk'. apply list_elem_of_fmap. by exists (k', o). }
    rewrite Hh, Hs. rewrite cascade_step_heap, cascade_step_store.
    rewrite lookup_total_insert_ne by done.
    split; [done|]. destruct (verdict σ0 o k); [done|].
    destruct (verdict σ o' k'); [|done]. by apply store_get_put_ne.
Qed.

(** ** The cascade *)

Lemma Map_set_elem (m : list (string * positive)) (k : string) (v : positive)
    (p : string * positive) :
  p ∈ Map_set m k v -> p ∈ m \/ p = (k, v).
Proof.
  induction m as [|[k' v'] m IH]; cbn.
  - intros ->%list_elem_of_singleton. by right.
  - destruct (String.eqb_spec k k') as [->|Hne].
    + intros [->|Hin]%elem_of_cons; [by right|left; by right].
    + intros [->|Hin]%elem_of_cons; [left; left|].
      destruct (IH Hin) as [?|?]; [left; by right|by right].
Qed.

Lemma Map_from_elem (pairs : list (string * positive)) (p : string * positive) :
  p ∈ Map_from pairs -> p ∈ pairs.
Proof.
  unfold Map_from.
  assert (H : forall acc, p ∈ fold_left (fun m q => Map_set m (fst q) (snd q)) pairs acc ->
                          p ∈ acc \/ p ∈ pairs).
  { induction pairs as [|[k v] pairs IH]; intros acc Hin; cbn in Hin; [by left|].
    destruct (IH _ Hin) as [Hacc|Hp]; [|right; by right].
    destruct (Map_set_elem _ _ _ _ Hacc) as [?|Heq]; [by left|].
    right. rewrite Heq. left. }
  intros Hin. destruct (H [] Hin) as [Hnil|?]; [|done]. by apply elem_of_nil in Hnil.
Qed.

(** The entries the cascade goes through are entries of the map that are
    dirty. *)
Lemma dirtyEntries_elem (σ : State) (k : string) (o : positive) :
  (k, o) ∈ dirtyEntries σ -> (k, o) ∈ entries σ /\ dirty (heap σ !!! o) = true.
Proof.
  unfold dirtyEntries, filterMap, bind, gets, ret. cbn [fst].
  intros Hin%Map_from_elem. apply elem_of_List_filter in Hin as [Hin Hd].
  split; [done|]. cbn in Hd. by destruct (dirty (heap σ !!! o)).
Qed.

Lemma dirtyEntries_eq (σ : State) :
  NoDup (keys (entries σ)) ->
  dirtyEntries σ =
  List.filter (fun p => strict_eq (get_field (heap σ !!! snd p) Kdirty) (VBoolean true))
              (entries σ).
Proof. intros Hnd. unfold dirtyEntries. by rewrite filterMap_eq. Qed.

Lemma saveValidDitryEntries_unfold (σ : State) :
  run saveValidDitryEntries σ = run (cascade (conns σ) (dirtyEntries σ)) (snd (getDB σ)).
Proof.
  unfold saveValidDitryEntries, dirtyEntries. cbn [run]. unfold gets at 1.
  unfold filterMap, bind, gets, ret, getDB. by cbn [run fst snd].
Qed.

Lemma lookup_total_eq (h h' : gmap positive TimeEntry) (o : positive) :
  h' !! o = h !! o -> h' !!! o = h !!! o.
Proof. intros H. by rewrite !lookup_total_alt, H. Qed.

(** The cascade never writes to an entry that is not dirty. *)
Lemma saveValidDitryEntries_clean_untouched (σ : State) (o : positive) :
  dirty (heap σ !!! o) = false ->
  heap (run saveValidDitryEntries σ) !! o = heap σ !! o.
Proof.
  intros Hd. rewrite saveValidDitryEntries_unfold, cascade_heap_frame; [done|].
  intros Hin. apply list_elem_of_fmap in Hin as ([k o'] & -> & Hin).
  apply dirtyEntries_elem in Hin as [_ Hdirty]. cbn in Hd. congruence.
Qed.

(** What the cascade does to a dirty entry of the map. *)
Lemma saveValidDitryEntries_dirty_outcome (σ : State) (k : string) (o : positive) :
  NoDup (keys (entries σ)) -> unshared σ ->
  (k, o) ∈ entries σ -> dirty (heap σ !!! o) = true ->
  heap (run saveValidDitryEntries σ) !! o =
    Some (if verdict σ o k then set_dirty false (set_valid true (heap σ !!! o))
          else set_valid false (heap σ !!! o)) /\
  store_get (store (run saveValidDitryEntries σ)) k =
    (if verdict σ o k then Some (set_dirty false (set_valid true (heap σ !!! o)))
     else store_get (store σ) k).
Proof.
  intros Hnd Hun Hin Hd. rewrite saveValidDitryEntries_unfold.
  assert (Hl : (k, o) ∈ dirtyEntries σ).
  { rewrite dirtyEntries_eq by done. apply elem_of_List_filter. split; [done|].
    cbn. by rewrite Hd. }
  assert (Hsub : sublist (dirtyEntries σ) (entries σ)).
  { rewrite dirtyEntries_eq by done. apply List_filter_sublist. }
  destruct (cascade_outcome σ (conns σ) (dirtyEntries σ) (snd (getDB σ))) with (k := k) (o := o)
    as [Hh Hs]; try done.
  - by eapply NoDup_keys_sublist.
  - eapply sublist_NoDup; [exact Hun|]. by apply (fmap_sublist snd).
Qed.

(** X6.  With no object held under two identifiers, the cascade settles
    every dirty entry of the map: one that validates ends valid and not
    dirty, with the store holding under its identifier a copy of the
    entry as it now is; one that does not validate ends invalid and still
    dirty, with the store under its identifier as it was.  An entry that
    is not dirty is not written to. *)
Theorem saveValidDitryEntries_settles (σ : State) :
  NoDup (keys (entries σ)) -> unshared σ ->
  let σ' := run saveValidDitryEntries σ in
  (forall o, dirty (heap σ !!! o) = false -> heap σ' !! o = heap σ !! o) /\
  (forall k o, (k, o) ∈ entries σ -> dirty (heap σ !!! o) = true ->
     valid (heap σ' !!! o) = verdict σ o k /\
     dirty (heap σ' !!! o) = negb (verdict σ o k) /\
     same_data (heap σ !!! o) (heap σ' !!! o) /\
     store_get (store σ') k =
       (if verdict σ o k then Some (heap σ' !!! o) else store_get (store σ) k)).
Proof.
  intros Hnd Hun σ'. split.
  { intros o. apply saveValidDitryEntries_clean_untouched. }
  intros k o Hin Hd. subst σ'.
  destruct (saveValidDitryEntries_dirty_outcome σ k o) as [Hh Hs]; try done.
  rewrite Hs, (lookup_total_correct _ _ _ Hh).
  destruct (verdict σ o k); cbn; by repeat split.
Qed.

(** A pass of the loop over entries that do not validate and are flagged
    so changes nothing. *)
Lemma cascade_noop (db : nat) (l : list (string * positive)) (σ : State) :
  (forall k o, (k, o) ∈ l ->
     verdict σ o k = false /\ exists e, heap σ !! o = Some e /\ valid e = false) ->
  run (cascade db l) σ = σ.
Proof.
  induction l as [|[k o] l IH]; intros H; [done|].
  rewrite cascade_cons.
  assert (Hstep : cascade_step db k o σ = σ).
  { destruct (H k o) as (Hv & e & He & Hval); [left|].
    unfold cascade_step. rewrite validateEntry_writes, Hv.
    unfold with_heap. rewrite (lookup_total_correct _ _ _ He).
    replace (set_valid false e) with e by (destruct e; cbn in *; by subst).
    rewrite insert_id by done. by destruct σ. }
  rewrite Hstep. apply IH. intros k' o' Hin. apply H. by right.
Qed.

(** X7.  One pass of the cascade is enough: with no object held under
    two identifiers, running [saveValidDitryEntries] again right after
    it has run opens one more connection and changes nothing else, in
    memory or in the store. *)
Theorem saveValidDitryEntries_once_suffices (σ : State) :
  NoDup (keys (entries σ)) -> unshared σ ->
  let σ1 := run saveValidDitryEntries σ in
  let σ2 := run saveValidDitryEntries σ1 in
  heap σ2 = heap σ1 /\ entries σ2 = entries σ1 /\ store σ2 = store σ1 /\
  trace σ2 = trace σ1 ++ [EvOpen (conns σ1)].
Proof.
  intros Hnd Hun σ1 σ2.
  destruct (saveValidDitryEntries_run σ) as (Heq & _). fold σ1 in Heq.
  assert (Hnoop : run (cascade (conns σ1) (dirtyEntries σ1)) (snd (getDB σ1)) = snd (getDB σ1)).
  { apply cascade_noop. intros k o Hin.
    apply dirtyEntries_elem in Hin as [Hin Hd].
    pose proof Heq as [He Hdata]. rewrite <- He in Hin.
    destruct (dirty (heap σ !!! o)) eqn:Hd0.
    - destruct (saveValidDitryEntries_dirty_outcome σ k o) as [Hh _]; try done.
      fold σ1 in Hh. rewrite (lookup_total_correct _ _ _ Hh) in Hd.
      destruct (verdict σ o k) eqn:Hv; [done|]. split.
      + rewrite <- Hv. symmetry. apply verdict_data_equiv; [done|].
        eapply data_equiv_trans; [exact Heq|]. split; [done|]. intros l. apply same_data_refl.
      + exists (set_valid false (heap σ !!! o)). by split.
    - pose proof (saveValidDitryEntries_clean_untouched σ o Hd0) as Hsame.
      apply lookup_total_eq in Hsame. fold σ1 in Hsame. congruence. }
  subst σ2. by rewrite saveValidDitryEntries_unfold, Hnoop.
Qed.

(** ** saveEntry *)

(** The entry [saveEntry] is given, when it has finished. *)
Lemma saveEntry_entry (σ : State) (entry : positive) (uuid : string) :
  heap (run (saveEntry entry uuid) σ) !! entry =
  Some (set_dirty (negb (verdict σ entry uuid))
          (set_valid (verdict σ entry uuid) (heap σ !!! entry))).
Proof.
  rewrite saveEntry_run, validateEntry_writes. cbn zeta. cbn [snd].
  destruct (verdict σ entry uuid); cbn [negb].
  - set (σ2 := snd (persist _ _ _)).
    assert (H2 : heap σ2 !! entry = Some (set_dirty false (set_valid true (heap σ !!! entry)))).
    { subst σ2. unfold persist, bind, write_dirty, getDB, db_put, db_close, modify, with_heap.
      cbn. by rewrite lookup_total_insert_eq, lookup_insert_eq. }
    destruct (valid (heap σ !!! entry)); [|done].
    rewrite saveValidDitryEntries_clean_untouched; [done|].
    by rewrite (lookup_total_correct _ _ _ H2).
  - unfold write_dirty, modify, with_heap. cbn.
    by rewrite lookup_total_insert_eq, lookup_insert_eq.
Qed.


(** The copy [saveEntry] leaves in the store when the entry validates. *)
Lemma saveEntry_stored (σ : State) (entry : positive) (uuid : string) :
  NoDup (keys (entries σ)) -> (uuid, entry) ∈ entries σ ->
  fst (validateEntry entry uuid σ) = true ->
  store_get (store (run (saveEntry entry uuid) σ)) uuid =
  Some (set_dirty false (set_valid true (heap σ !!! entry))).
Proof.
  intros Hnd Hin Hok. fold (verdict σ entry uuid) in Hok.
  rewrite saveEntry_run, validateEntry_writes, Hok. cbn zeta. cbn [snd].
  set (σ2 := snd (persist _ _ _)).
  assert (H2 : heap σ2 !!! entry = set_dirty false (set_valid true (heap σ !!! entry)) /\
               entries σ2 = entries σ /\
               store_get (store σ2) uuid =
                 Some (set_dirty false (set_valid true (heap σ !!! entry)))).
  { subst σ2. unfold persist, bind, write_dirty, getDB, db_put, db_close, modify, with_heap.
    cbn. rewrite !lookup_total_insert_eq. split; [done|]. split; [done|].
    apply store_get_put_eq. }
  destruct H2 as (Hh2 & He2 & Hs2).
  destruct (valid (heap σ !!! entry)); [|done].
  rewrite saveValidDitryEntries_unfold, cascade_store_frame; [done|].
  intros Hk. apply elem_of_keys in Hk as [o Hk].
  apply dirtyEntries_elem in Hk as [Hk Hd]. rewrite He2 in Hk.
  assert (o = entry) by (by eapply NoDup_keys_inj). subst o.
  rewrite Hh2 in Hd. done.
Qed.

(** X4.  When an entry held in the map under [uuid] validates, the store
    holds under [uuid], once [saveEntry] has finished, a copy of the
    entry as it then is in memory: valid and not dirty.  The cascade that
    may follow the put does not write over it. *)
Theorem saveEntry_valid_stored (σ : State) (entry : positive) (uuid : string) :
  NoDup (keys (entries σ)) -> (uuid, entry) ∈ entries σ ->
  fst (validateEntry entry uuid σ) = true ->
  let σ' := run (saveEntry entry uuid) σ in
  store_get (store σ') uuid = Some (heap σ' !!! entry) /\
  valid (heap σ' !!! entry) = true /\ dirty (heap σ' !!! entry) = false.
Proof.
  intros Hnd Hin Hok σ'. subst σ'. rewrite saveEntry_stored by done.
  fold (verdict σ entry uuid) in Hok.
  by rewrite (lookup_total_correct _ _ _ (saveEntry_entry σ entry uuid)), Hok.
Qed.

(** ** deleteEntry *)

(** [deleteEntry] run without interruption. *)
Lemma deleteEntry_run (σ : State) (entry : positive) (uuid : string) :
  run (deleteEntry entry uuid) σ =
  let σ1 := with_entries (fun m => Map_delete m uuid) σ in
  snd (removeFromStore uuid
         (if valid (heap σ !!! entry) then σ1 else run saveValidDitryEntries σ1)).
Proof.
  unfold deleteEntry. cbn [run]. unfold modify at 1, read at 1, gets at 1.
  cbn zeta. set (σ1 := with_entries _ σ). change (heap σ1) with (heap σ).
  rewrite run_andThen.
  - destruct (valid (heap σ !!! entry)); cbn [negb].
    + done.
    + by rewrite run_call_await by apply fulfils_saveValidDitryEntries.
  - destruct (valid (heap σ !!! entry)); cbn [negb]; [constructor|].
    unfold call_await. generalize fulfils_saveValidDitryEntries.
    generalize saveValidDitryEntries. intros t Ht.
    induction Ht; cbn [andThen]; repeat constructor; done.
Qed.

Lemma store_get_put_some (st : list (string * TimeEntry)) (k k' : string) (v : TimeEntry) :
  is_Some (store_get st k') -> is_Some (store_get (store_put st k v) k').
Proof.
  intros H. destruct (decide (k = k')) as [->|Hne].
  - rewrite store_get_put_eq. by eexists.
  - by rewrite store_get_put_ne.
Qed.

(** The loop of the cascade takes nothing out of the store. *)
Lemma cascade_store_some (db : nat) (l : list (string * positive)) (σ : State) (k : string) :
  is_Some (store_get (store σ) k) -> is_Some (store_get (store (run (cascade db l) σ)) k).
Proof.
  revert σ. induction l as [|[k' o] l IH]; intros σ H; [done|].
  rewrite cascade_cons. apply IH. rewrite cascade_step_store.
  destruct (verdict σ o k'); [|done]. by apply store_get_put_some.
Qed.

Lemma Map_delete_absent (m : list (string * positive)) (k : string) :
  k ∉ keys m -> Map_delete m k = m.
Proof.
  unfold Map_delete, keys. induction m as [|[k' o] m IH]; cbn; [done|].
  intros [Hne Hk]%not_elem_of_cons.
  destruct (String.eqb_spec k k') as [->|_]; [done|]. cbn. by rewrite IH.
Qed.

(** X8.  [deleteEntry] takes out of the map the pairs under the
    identifier and keeps the others in their order; an identifier the
    map does not hold leaves it as it is.  No entry that is not dirty is
    written to, and no other identifier loses its copy in the store;
    when the entry given is flagged valid, every other identifier keeps
    the very copy it had. *)
Theorem deleteEntry_keeps_others (σ : State) (entry : positive) (uuid : string) :
  let σ' := run (deleteEntry entry uuid) σ in
  entries σ' = List.filter (fun p => negb (String.eqb uuid (fst p))) (entries σ) /\
  (uuid ∉ keys (entries σ) -> entries σ' = entries σ) /\
  (forall o, dirty (heap σ !!! o) = false -> heap σ' !! o = heap σ !! o) /\
  (forall k, k <> uuid -> is_Some (store_get (store σ) k) ->
             is_Some (store_get (store σ') k)) /\
  (valid (heap σ !!! entry) = true ->
   heap σ' = heap σ /\
   forall k, k <> uuid -> store_get (store σ') k = store_get (store σ) k).
Proof.
  intros σ'. subst σ'. rewrite deleteEntry_run. cbn zeta.
  set (σ1 := with_entries _ σ).
  assert (He : entries (snd (removeFromStore uuid
                 (if valid (heap σ !!! entry) then σ1 else run saveValidDitryEntries σ1))) =
               Map_delete (entries σ) uuid).
  { change (entries (snd (removeFromStore uuid ?τ))) with (entries τ).
    destruct (valid (heap σ !!! entry)); [done|].
    by destruct (saveValidDitryEntries_run σ1) as ([<- _] & _). }
  split; [exact He|]. split.
  { intros Hk. rewrite He. by apply Map_delete_absent. }
  change (heap (snd (removeFromStore uuid ?τ))) with (heap τ).
  change (store (snd (removeFromStore uuid ?τ))) with (store_delete (store τ) uuid).
  split; [|split].
  - intros o Hd. destruct (valid (heap σ !!! entry)); [done|].
    by rewrite saveValidDitryEntries_clean_untouched.
  - intros k Hne Hs. rewrite store_get_delete_ne by done.
    destruct (valid (heap σ !!! entry)); [done|].
    rewrite saveValidDitryEntries_unfold. by apply cascade_store_some.
  - intros Hv. rewrite Hv. split; [done|].
    intros k Hne. by rewrite store_get_delete_ne.
Qed.

(** Taking an identifier out of the map changes no verdict on the other
    entries of the map when the entry it held validates. *)
Lemma verdict_Map_delete (σ : State) (uuid : string) (entry : positive)
    (k : string) (o : positive) :
  NoDup (keys (entries σ)) -> (uuid, entry) ∈ entries σ ->
  verdict σ entry uuid = true ->
  (k, o) ∈ entries σ -> k <> uuid ->
  verdict (with_entries (fun m => Map_delete m uuid) σ) o k = verdict σ o k.
Proof.
  intros Hnd Hin Hok Hko Hne.
  assert (Hnd' : NoDup (keys (Map_delete (entries σ) uuid))) by (by apply Map_delete_NoDup).
  rewrite !verdict_unfold by done. cbn zeta. cbn [heap entries with_entries].
  destruct (str_ge (start (heap σ !!! o)) (end_ (heap σ !!! o))); [done|].
  f_equal. apply eq_true_iff_eq. rewrite !collision_true.
  split; intros (k' & o' & Hmem & Hk' & Hov); exists k', o'; (split; [|done]).
  - apply elem_of_List_filter in Hmem as [Hmem Hd].
    apply elem_of_List_filter in Hmem as [Hmem _].
    apply elem_of_List_filter. done.
  - apply elem_of_List_filter in Hmem as [Hmem Hd].
    apply elem_of_List_filter. split; [|done].
    apply elem_of_List_filter. split; [done|]. cbn.
    destruct (String.eqb_spec uuid k') as [<-|_]; [|done]. exfalso.
    assert (o' = entry) by exact (NoDup_keys_inj _ _ _ _ Hnd Hmem Hin). subst o'.
    cbn in Hd. apply String.eqb_eq in Hd.
    assert (Hse : str_ge (start (heap σ !!! entry)) (end_ (heap σ !!! entry)) = false).
    { rewrite verdict_unfold in Hok by done. cbn zeta in Hok.
      by destruct (str_ge _ _). }
    assert (Hb : blocked σ entry uuid).
    { exists k, o. split; [done|]. split; [done|]. split; [done|].
      by rewrite overlaps_sym. }
    apply (verdict_blocked σ entry uuid Hnd Hse) in Hb. congruence.
Qed.

(** X9.  Deleting an entry that validates changes the verdict on no
    other entry of the map: what [validateEntry] returns for each of
    them after [deleteEntry] is what it returned before.  So the cascade
    [deleteEntry] leaves out for a valid entry would have found nothing
    new to save. *)
Theorem deleteEntry_valid_keeps_verdicts (σ : State) (entry : positive) (uuid : string) :
  NoDup (keys (entries σ)) -> (uuid, entry) ∈ entries σ ->
  fst (validateEntry entry uuid σ) = true ->
  let σ' := run (deleteEntry entry uuid) σ in
  forall k o, (k, o) ∈ entries σ -> k <> uuid ->
    fst (validateEntry o k σ') = fst (validateEntry o k σ).
Proof.
  intros Hnd Hin Hok σ' k o Hko Hne. subst σ'.
  fold (verdict σ entry uuid) in Hok.
  fold (verdict σ o k). fold (verdict (run (deleteEntry entry uuid) σ) o k).
  rewrite <- (verdict_Map_delete σ uuid entry k o) by done.
  symmetry. apply verdict_data_equiv; [by apply Map_delete_NoDup|].
  rewrite deleteEntry_run. cbn zeta. set (σ1 := with_entries _ σ).
  assert (Hrm : forall τ, data_equiv τ (snd (removeFromStore uuid τ))).
  { intros τ. split; [done|]. intros l. apply same_data_refl. }
  destruct (valid (heap σ !!! entry)); [apply Hrm|].
  eapply data_equiv_trans; [|apply Hrm].
  by destruct (saveValidDitryEntries_run σ1) as (Heq & _).
Qed.

(** ** loadEntries *)

Lemma Map_set_in (m : list (string * positive)) (k : string) (v : positive) :
  (k, v) ∈ Map_set m k v.
Proof.
  induction m as [|[k' v'] m IH]; cbn; [left|].
  destruct (String.eqb_spec k k'); [left|by right].
Qed.

Lemma Map_set_other (m : list (string * positive)) (k : string) (v : positive)
    (k' : string) (o : positive) :
  (k', o) ∈ m -> k' <> k -> (k', o) ∈ Map_set m k v.
Proof.
  intros Hin Hne. induction m as [|[k0 v0] m IH]; cbn; [by apply elem_of_nil in Hin|].
  apply elem_of_cons in Hin as [Heq|Hin].
  - inversion Heq; subst k0 v0. destruct (String.eqb_spec k k'); [congruence|left].
  - destruct (String.eqb_spec k k0); right; [done|by apply IH].
Qed.

Lemma store_get_some_listed (st : list (string * TimeEntry)) (k : string) (v : TimeEntry) :
  store_get st k = Some v -> k ∈ map fst st.
Proof.
  induction st as [|[k' v'] st IH]; cbn; [done|].
  destruct (String.eqb_spec k k') as [->|Hne]; [left|]. intros H. right. by apply IH.
Qed.

(** The loop of [loadEntries] makes one [get] for each key. *)
Lemma loaded_trace (db : nat) (ks : list string) (σ : State) :
  (forall key, key ∈ ks -> key ∈ map fst (store σ)) ->
  trace (loaded db ks σ) = trace σ ++ map (EvGet db) ks.
Proof.
  revert σ. induction ks as [|key ks IH]; intros σ Hks; cbn [loaded map].
  { by rewrite app_nil_r. }
  destruct (store_get_listed (store σ) key) as (v & Hget & _); [apply Hks; left|].
  rewrite Hget. unfold alloc, db_get. cbn [snd].
  rewrite IH.
  - cbn. by rewrite <- app_assoc.
  - intros key' Hkey'. cbn. apply Hks. by right.
Qed.

(** The identifiers of the map after the loop: those it had and the
    keys read. *)
Lemma loaded_keys (db : nat) (ks : list string) (σ : State) (k : string) :
  (forall key, key ∈ ks -> key ∈ map fst (store σ)) ->
  k ∈ keys (entries (loaded db ks σ)) <-> k ∈ keys (entries σ) \/ k ∈ ks.
Proof.
  revert σ. induction ks as [|key ks IH]; intros σ Hks; cbn [loaded].
  { split; [by left|]. intros [?|Hnil]; [done|by apply elem_of_nil in Hnil]. }
  destruct (store_get_listed (store σ) key) as (v & Hget & _); [apply Hks; left|].
  rewrite Hget. unfold alloc, db_get. cbn [snd].
  rewrite IH by (intros key' Hkey'; cbn; apply Hks; by right).
  cbn [entries with_entries with_heap]. rewrite Map_set_keys.
  case_bool_decide as Hin.
  - split; intros [H|H]; try (by left); try (right; by right).
    apply elem_of_cons in H as [->|H]; [by left|by right].
  - rewrite elem_of_app, list_elem_of_singleton, elem_of_cons. tauto.
Qed.

(** A key of the store that is read, or was in the map with the stored
    value, is in the map with the stored value after the loop. *)
Lemma loaded_holds (db : nat) (ks : list string) (σ : State) (k : string) (v : TimeEntry) :
  (forall key, key ∈ ks -> key ∈ map fst (store σ)) ->
  store_get (store σ) k = Some v ->
  k ∈ ks \/ (exists o, (k, o) ∈ entries σ /\ heap σ !! o = Some v) ->
  exists o, (k, o) ∈ entries (loaded db ks σ) /\ heap (loaded db ks σ) !! o = Some v.
Proof.
  revert σ. induction ks as [|key ks IH]; intros σ Hks Hget Hk; cbn [loaded].
  { destruct Hk as [Hk|Hk]; [by apply elem_of_nil in Hk|done]. }
  destruct (store_get_listed (store σ) key) as (v' & Hget' & _); [apply Hks; left|].
  rewrite Hget'. unfold alloc, db_get. cbn [snd heap].
  set (l := fresh (dom (heap σ))).
  apply IH.
  - intros key' Hkey'. cbn. apply Hks. by right.
  - done.
  - cbn [entries heap with_entries with_heap].
    destruct (decide (key = k)) as [->|Hne].
    + right. exists l. split; [apply Map_set_in|].
      rewrite lookup_insert_eq. congruence.
    + destruct Hk as [Hk|(o & Hin & Ho)].
      * left. apply elem_of_cons in Hk as [Hk|Hk]; [congruence|done].
      * right. exists o. split; [by apply Map_set_other|].
        rewrite lookup_insert_ne; [done|].
        intros <-. pose proof (is_fresh (dom (heap σ))) as Hfresh.
        apply Hfresh. apply elem_of_dom. by eexists.
Qed.

(** [sortEntries] rearranges the map and touches nothing else. *)
Lemma sortEntries_perm (σ : State) :
  NoDup (keys (entries σ)) ->
  let σ' := snd (sortEntries σ) in
  entries σ' ≡ₚ entries σ /\ heap σ' = heap σ /\ store σ' = store σ /\
  trace σ' = trace σ /\ conns σ' = conns σ.
Proof.
  intros Hnd. unfold sortEntries, bind, gets, modify. cbn.
  set (cmp := fun a b : string * positive => compareEntries (heap σ !!! a.2) (heap σ !!! b.2)).
  pose proof (Array_sort_perm cmp (entries σ)) as Hperm.
  rewrite Map_from_NoDup; [done|].
  unfold keys. change (map fst ?l) with (fst <$> l). by rewrite Hperm.
Qed.

(** What [loadEntries] leaves in the map for a key of the store. *)
Lemma loadEntries_holds (σ : State) (k : string) (v : TimeEntry) :
  NoDup (keys (entries σ)) -> store_get (store σ) k = Some v ->
  let σ' := run loadEntries σ in
  exists o, (k, o) ∈ entries σ' /\ heap σ' !!! o = set_valid (valid (heap σ' !!! o)) v.
Proof.
  intros Hnd Hget. cbn zeta. rewrite loadEntries_run. cbn zeta.
  set (σ1 := snd (db_getAllKeys (conns σ) (snd (getDB σ)))).
  set (σ2 := snd (db_close (conns σ) (loaded (conns σ) (map fst (store σ)) σ1))).
  assert (Hok2 : NoDup (keys (entries σ2))) by (by apply (loaded_map_ok _ _ σ1)).
  destruct (sortEntries_perm σ2 Hok2) as (Hperm & Hheap & _).
  set (σ3 := snd (sortEntries σ2)) in *.
  destruct (for_each_validate_only_valid (entries σ3) σ3) as (He & _ & _ & _ & Hh).
  change (snd (for_each _ _ σ3)) with (snd (updateValidationStatus σ3)) in He, Hh.
  destruct (loaded_holds (conns σ) (map fst (store σ)) σ1 k v) as (o & Hin & Ho).
  - done.
  - done.
  - left. by eapply store_get_some_listed.
  - exists o. split.
    + rewrite He, Hperm. exact Hin.
    + rewrite (Hh o), Hheap. f_equal. by apply lookup_total_correct.
Qed.

(** X10.  [loadEntries] reads the store and does not write to it: it
    opens a connection, lists the keys, makes one [get] per key and
    closes the connection.  Afterwards the map holds an entry under every
    key of the store, equal to the stored value but for its [valid] flag,
    which the pass at the end sets anew; the identifiers of the map are
    those it had before and the keys of the store. *)
Theorem loadEntries_reads_store (σ : State) :
  NoDup (keys (entries σ)) ->
  let σ' := run loadEntries σ in
  store σ' = store σ /\
  trace σ' = trace σ ++ [EvOpen (conns σ); EvGetAllKeys (conns σ)] ++
             map (EvGet (conns σ)) (map fst (store σ)) ++ [EvClose (conns σ)] /\
  (forall k, k ∈ keys (entries σ') <-> k ∈ keys (entries σ) \/ k ∈ map fst (store σ)) /\
  (forall k v, store_get (store σ) k = Some v ->
     exists o, (k, o) ∈ entries σ' /\
               heap σ' !!! o = set_valid (valid (heap σ' !!! o)) v).
Proof.
  intros Hnd σ'. split; [|split; [|split]].
  4:{ intros k v Hget. by apply loadEntries_holds. }
  all: subst σ'; rewrite loadEntries_run; cbn zeta.
  all: set (σ1 := snd (db_getAllKeys (conns σ) (snd (getDB σ)))).
  all: set (σ2 := snd (db_close (conns σ) (loaded (conns σ) (map fst (store σ)) σ1))).
  all: assert (Hok2 : NoDup (keys (entries σ2))) by (by apply (loaded_map_ok _ _ σ1)).
  all: destruct (sortEntries_perm σ2 Hok2) as (Hperm & Hheap & Hstore & Htrace & _).
  all: set (σ3 := snd (sortEntries σ2)) in *.
  all: destruct (for_each_validate_only_valid (entries σ3) σ3) as (He & Hs & Ht & _ & _).
  all: change (snd (for_each _ _ σ3)) with (snd (updateValidationStatus σ3)) in He, Hs, Ht.
  - rewrite Hs, Hstore. subst σ2. cbn [db_close modify snd store].
    by rewrite loaded_store.
  - rewrite Ht, Htrace. subst σ2. cbn [db_close modify snd trace].
    rewrite loaded_trace by (intros key Hkey; exact Hkey).
    subst σ1. cbn. by rewrite <- !app_assoc.
  - intros k. unfold keys. rewrite He.
    change (map fst ?l) with (fst <$> l). rewrite Hperm.
    subst σ2. cbn [db_close modify snd entries].
    apply (loaded_keys (conns σ) (map fst (store σ)) σ1 k).
    intros key Hkey; exact Hkey.
Qed.

(** X11.  What [saveEntry] has saved, [loadEntries] brings back: after a
    save that validates, a component on the same store finds, once it has
    loaded, an entry under the same identifier with the same date, times,
    category and description, and not dirty. *)
Theorem saveEntry_then_loadEntries (σ τ : State) (entry : positive) (uuid : string) :
  NoDup (keys (entries σ)) -> (uuid, entry) ∈ entries σ ->
  fst (validateEntry entry uuid σ) = true ->
  NoDup (keys (entries τ)) -> store τ = store (run (saveEntry entry uuid) σ) ->
  let τ' := run loadEntries τ in
  exists o, (uuid, o) ∈ entries τ' /\
            same_data (heap σ !!! entry) (heap τ' !!! o) /\
            dirty (heap τ' !!! o) = false.
Proof.
  intros Hnd Hin Hok Hndτ Hst τ'. subst τ'.
  pose proof (saveEntry_stored σ entry uuid Hnd Hin Hok) as Hget.
  rewrite <- Hst in Hget.
  destruct (loadEntries_holds τ uuid _ Hndτ Hget) as (o & Ho & Hh).
  exists o. split; [done|]. rewrite Hh. by repeat split.
Qed.

(** ** addNew *)

Lemma verdict_start_ge_end (σ : State) (entry : positive) (uuid : string) :
  str_ge (start (heap σ !!! entry)) (end_ (heap σ !!! entry)) = true ->
  verdict σ entry uuid = false.
Proof.
  intros H. unfold verdict, validateEntry, bind, read, gets. cbn zeta. by rewrite H.
Qed.


(** X13.  On a day that already has an entry ending at ["23:59"] or
    later in string order, the entry [addNew] creates starts at or after
    its own end ["23:59"]: it is invalid and stays dirty, and [addNew]
    makes no call to the database. *)
Theorem addNew_day_full (σ : State) (uuid : string) (today : JSDate)
    (k : string) (o : positive) :
  NoDup (keys (entries σ)) -> (k, o) ∈ entries σ ->
  date (heap σ !!! o) = dateStringOf today ->
  str_le "23:59" (end_ (heap σ !!! o)) ->
  let σ' := run (addNew uuid today) σ in
  let e := heap σ' !!! fresh (dom (heap σ)) in
  str_le "23:59" (start e) /\ end_ e = "23:59" /\ valid e = false /\ dirty e = true /\
  store σ' = store σ /\ trace σ' = trace σ.
Proof.
  intros Hnd Hin Hdate Hlate σ'. subst σ'. rewrite addNew_run. cbn zeta.
  destruct (getLatestTime_spec σ (dateStringOf today) Hnd) as (Hσ & _ & Hub & _).
  specialize (Hub k o Hin Hdate).
  destruct (getLatestTime (dateStringOf today) σ) as [s σ0]. cbn [fst snd] in *. subst σ0.
  assert (Hs : str_le "23:59" s) by (by eapply str_le_trans).
  assert (Hs' : str_ge s "23:30" = true).
  { apply (str_le_trans "23:30" "23:59" s); [by vm_compute|done]. }
  rewrite Hs'. set (l := fresh (dom (heap σ))).
  set (σ2 := with_entries _ _).
  destruct (for_each_validate_only_valid (entries σ2) σ2) as (_ & Hst & Htr & _ & Hh).
  change (snd (for_each _ _ σ2)) with (snd (updateValidationStatus σ2)) in Hst, Htr, Hh.
  set (σ3 := snd (updateValidationStatus σ2)) in *.
  assert (H3 : heap σ3 !!! l =
               set_valid (valid (heap σ3 !!! l))
                 (mkTimeEntry (dateStringOf today) s "23:59" "Meeting" "" false true)).
  { rewrite (Hh l). subst σ2. cbn [heap with_entries with_heap].
    by rewrite lookup_total_insert_eq. }
  assert (Hv : verdict σ3 l uuid = false).
  { apply verdict_start_ge_end. rewrite H3. exact Hs. }
  rewrite (lookup_total_correct _ _ _ (saveEntry_entry σ3 l uuid)), Hv, H3.
  split; [exact Hs|]. split; [done|]. split; [done|]. split; [done|].
  rewrite saveEntry_run, validateEntry_writes, Hv. cbn zeta.
  cbn [snd write_dirty modify with_heap store trace]. by rewrite Hst, Htr.
Qed.

(** ** render *)

Lemma renderRows_eq (l : list (string * positive)) (σ : State) :
  renderRows l σ = (map (row_of σ) l, σ).
Proof.
  induction l as [|[uuid entry] l IH]; [done|].
  cbn [renderRows]. unfold renderTableRow, read, gets, ret, bind. cbn beta iota.
  by rewrite IH.
Qed.

Lemma List_filter_filter {A} (f g : A -> bool) (l : list A) :
  List.filter g (List.filter f l) = List.filter (fun x => f x && g x) l.
Proof.
  induction l as [|x l IH]; [done|]. cbn.
  destruct (f x); cbn; [|done]. destruct (g x); by rewrite IH.
Qed.

Lemma List_filter_all {A} (l : list A) : List.filter (fun _ => true) l = l.
Proof. induction l as [|x l IH]; [done|]. cbn. by rewrite IH. Qed.

(** X16.  [render] reads the component and changes nothing.  The table
    has one row for each entry of the map whose date is the date filter,
    when that filter is not empty, and whose category is the category
    filter, when that filter is not ["Any"]; the rows come in the order
    of the map, each shows the five fields of its entry and is marked
    ["invalid"] exactly when the entry is flagged invalid.  With no such
    entry the page says that there are no entries. *)
Theorem render_shows_passing (σ : State) (f : Filters) :
  NoDup (keys (entries σ)) ->
  let shown := List.filter (fun p => passes f (heap σ !!! snd p)) (entries σ) in
  snd (render f σ) = σ /\
  fst (render f σ) = match shown with
                     | [] => NoEntries
                     | _ :: _ => Table (map (row_of σ) shown)
                     end.
Proof.
  intros Hnd shown.
  assert (Hrun : forall l, l = shown ->
            (if negb (Nat.eqb (length l) 0)
             then (rows <- renderRows l ;; ret (Table rows))%M
             else ret NoEntries) σ =
            (match shown with [] => NoEntries | _ :: _ => Table (map (row_of σ) shown) end, σ)).
  { intros l ->. destruct shown as [|p rest]; [done|].
    cbn [length Nat.eqb negb]. unfold bind. by rewrite renderRows_eq. }
  enough (Heq : render f σ =
            (match shown with [] => NoEntries | _ :: _ => Table (map (row_of σ) shown) end, σ))
    by (by rewrite Heq).
  unfold render, bind at 1 2 3, gets.
  set (byDate := if negb (String.eqb (filterDate f) "") then _ else _).
  assert (HbyDate : byDate σ =
            (List.filter (fun p => String.eqb (filterDate f) "" ||
                                   String.eqb (date (heap σ !!! snd p)) (filterDate f))
                         (entries σ), σ)).
  { subst byDate. destruct (String.eqb (filterDate f) ""); cbn [negb orb].
    - by rewrite List_filter_all.
    - by rewrite filterMap_eq. }
  rewrite HbyDate.
  set (m1 := List.filter _ (entries σ)).
  assert (Hnd1 : NoDup (keys m1)).
  { eapply NoDup_keys_sublist; [apply List_filter_sublist|done]. }
  set (byCategory := if negb (String.eqb (filterCategory f) "Any") then _ else _).
  assert (HbyCategory : byCategory σ = (shown, σ)).
  { subst byCategory shown m1. unfold passes.
    destruct (String.eqb (filterCategory f) "Any") eqn:Hc; cbn [negb orb].
    - unfold ret. apply (f_equal (fun x => (x, σ))), filter_ext.
      intros p. by rewrite andb_true_r.
    - rewrite filterMap_eq by done. by rewrite List_filter_filter. }
  rewrite HbyCategory. by apply Hrun.
Qed.

(** X20.  With the filters at their initial values, and after the reset
    button whatever the filters were, [render] shows every entry of the
    map, in the order of the map; only an empty map gives the page
    without a table. *)
Theorem render_unfiltered (σ : State) (f : Filters) :
  let page := match entries σ with
              | [] => NoEntries
              | _ :: _ => Table (map (row_of σ) (entries σ))
              end in
  render initialFilters σ = (page, σ) /\
  render (onResetFilter f) σ = (page, σ).
Proof.
  assert (H : render (mkFilters "" "Any") σ =
              (match entries σ with
               | [] => NoEntries
               | _ :: _ => Table (map (row_of σ) (entries σ))
               end, σ)).
  { unfold render, bind at 1 2 3, gets, ret. cbn [filterDate filterCategory].
    change (String.eqb "" "") with true. change (String.eqb "Any" "Any") with true.
    cbn [negb]. destruct (entries σ) as [|p rest] eqn:He; [done|].
    cbn [length Nat.eqb negb]. unfold bind. by rewrite renderRows_eq. }
  by split.
Qed.

(** ** Edits *)

Lemma Map_get_elem (m : list (string * positive)) (k : string) (v : positive) :
  Map_get m k = Some v -> (k, v) ∈ m.
Proof.
  induction m as [|[k' v'] m IH]; cbn; [done|].
  destruct (String.eqb_spec k k') as [->|Hne].
  - intros [= ->]. left.
  - intros H. right. by apply IH.
Qed.

Lemma Map_set_same (m : list (string * positive)) (k : string) (v : positive) :
  Map_get m k = Some v -> Map_set m k v = m.
Proof.
  induction m as [|[k' v'] m IH]; cbn; [done|].
  destruct (String.eqb_spec k k') as [->|Hne].
  - by intros [= ->].
  - intros H. by rewrite IH.
Qed.

Lemma unshared_key (m : list (string * positive)) (k k' : string) (o : positive) :
  NoDup (map snd m) -> (k, o) ∈ m -> (k', o) ∈ m -> k = k'.
Proof.
  induction m as [|[k0 o0] m IH]; cbn; intros Hnd Ha Hb.
  - by apply elem_of_nil in Ha.
  - apply NoDup_cons in Hnd as [Ho Hnd].
    apply elem_of_cons in Ha as [Ha|Ha]; apply elem_of_cons in Hb as [Hb|Hb].
    + congruence.
    + inversion Ha; subst. exfalso. apply Ho. apply list_elem_of_fmap. by exists (k', o0).
    + inversion Hb; subst. exfalso. apply Ho. apply list_elem_of_fmap. by exists (k, o0).
    + by apply IH.
Qed.

Lemma fulfils_andThen (t k : Task) : fulfils t -> fulfils k -> fulfils (andThen t k).
Proof. intros Ht Hk. induction Ht; cbn [andThen]; [done|by constructor..]. Qed.

Lemma fulfils_saveEntry (entry : positive) (uuid : string) : fulfils (saveEntry entry uuid).
Proof.
  constructor. intros e. constructor. intros [|]; repeat (constructor; intros).
  destruct (valid e); [|constructor].
  apply fulfils_andThen; [apply fulfils_saveValidDitryEntries|repeat constructor].
Qed.

(** An input callback run without interruption: the field is written,
    the map revalidated, the entry saved. *)
Lemma generateInputCallback_run (σ : State) (field : TimeEntryKey) (uuid value : string)
    (current : positive) :
  Map_get (entries σ) uuid = Some current ->
  run (generateInputCallback field uuid value) σ =
  run (saveEntry current uuid) (snd (updateValidationStatus (edited field value current σ))).
Proof.
  intros Hget. unfold generateInputCallback. cbn [run]. unfold gets at 1.
  rewrite Hget. cbn [run]. unfold modify at 1 2.
  assert (Hσ : with_entries (fun m => Map_set m uuid current)
                 (with_heap (fun h => <[current := set_field field value (h !!! current)]> h) σ)
               = edited field value current σ).
  { unfold edited, with_entries, with_heap. cbn. by rewrite Map_set_same. }
  rewrite Hσ. destruct (updateValidationStatus _) as [[] σ3]. cbn [snd].
  by rewrite run_call_await by apply fulfils_saveEntry.
Qed.

(** What [saveEntry] does to another entry of the map: nothing, unless
    the cascade runs and the entry is dirty. *)
Lemma saveEntry_others (σ : State) (entry : positive) (uuid : string)
    (k : string) (o : positive) :
  NoDup (keys (entries σ)) -> unshared σ -> (k, o) ∈ entries σ -> o <> entry ->
  heap (run (saveEntry entry uuid) σ) !! o =
  if verdict σ entry uuid && valid (heap σ !!! entry) && dirty (heap σ !!! o)
  then Some (if verdict σ o k then set_dirty false (set_valid true (heap σ !!! o))
             else set_valid false (heap σ !!! o))
  else heap σ !! o.
Proof.
  intros Hnd Hun Hin Hne.
  rewrite saveEntry_run, validateEntry_writes. cbn zeta. cbn [snd].
  destruct (verdict σ entry uuid) eqn:Hok; cbn [andb].
  - set (σ2 := snd (persist _ _ _)).
    assert (H2 : heap σ2 !! o = heap σ !! o /\ entries σ2 = entries σ).
    { subst σ2. unfold persist, bind, write_dirty, getDB, db_put, db_close, modify, with_heap.
      cbn. by rewrite !lookup_insert_ne. }
    destruct H2 as [Hh2 He2].
    assert (Heq2 : data_equiv σ σ2).
    { subst σ2. eapply data_equiv_trans; [|apply persist_effect].
      apply data_equiv_write. intros e. apply same_data_set_valid. }
    destruct (valid (heap σ !!! entry)); cbn [andb]; [|done].
    destruct (dirty (heap σ !!! o)) eqn:Hd.
    + destruct (saveValidDitryEntries_dirty_outcome σ2 k o) as [Hh _].
      * by rewrite He2.
      * unfold unshared. by rewrite He2.
      * by rewrite He2.
      * by rewrite (lookup_total_eq _ _ _ Hh2).
      * rewrite Hh, (lookup_total_eq _ _ _ Hh2).
        by rewrite <- (verdict_data_equiv σ σ2).
    + rewrite saveValidDitryEntries_clean_untouched; [done|].
      by rewrite (lookup_total_eq _ _ _ Hh2).
  - unfold write_dirty, modify, with_heap. cbn. by rewrite !lookup_insert_ne.
Qed.


(** X15.  After the callback of an input element, on a map that holds no
    object under two identifiers, the [valid] flag of every entry of the
    map is what [validateEntry] returns for it in the state reached.  When
    the edited entry is valid the store holds a copy of it as it now is,
    and no valid entry of the map is left dirty. *)
Theorem generateInputCallback_flags_accurate (σ : State) (field : TimeEntryKey)
    (uuid value : string) (current : positive) :
  NoDup (keys (entries σ)) -> unshared σ ->
  Map_get (entries σ) uuid = Some current -> string_field field = true ->
  let σ' := run (generateInputCallback field uuid value) σ in
  (forall k o, (k, o) ∈ entries σ' ->
     valid (heap σ' !!! o) = fst (validateEntry o k σ')) /\
  (valid (heap σ' !!! current) = true ->
   store_get (store σ') uuid = Some (heap σ' !!! current) /\
   forall k o, (k, o) ∈ entries σ' -> valid (heap σ' !!! o) = true ->
               dirty (heap σ' !!! o) = false).
Proof.
  intros Hnd Hun Hget Hfield σ'. subst σ'. rewrite (generateInputCallback_run σ field uuid value current Hget).
  set (σe := edited field value current σ).
  assert (Hnde : NoDup (keys (entries σe))) by done.
  pose proof (updateValidationStatus_data_equiv σe) as Hu.
  set (σ3 := snd (updateValidationStatus σe)) in *.
  assert (He3 : entries σ3 = entries σ) by (by destruct Hu as [<- _]).
  assert (Hnd3 : NoDup (keys (entries σ3))) by (by rewrite He3).
  assert (Hun3 : unshared σ3) by (unfold unshared; by rewrite He3).
  assert (Hcur : (uuid, current) ∈ entries σ3) by (rewrite He3; by apply Map_get_elem).
  assert (Hflag : forall k o, (k, o) ∈ entries σ3 -> valid (heap σ3 !!! o) = verdict σ3 o k).
  { intros k o Hin. rewrite He3 in Hin.
    rewrite <- (verdict_data_equiv σe σ3) by done.
    apply updateValidationStatus_flag; [done|done|].
    intros k' Hk'. by apply (unshared_key (entries σ) k' k o). }
  pose proof (saveEntry_data_equiv σ3 current uuid) as Hs.
  pose proof (saveEntry_entry σ3 current uuid) as Hent.
  apply lookup_total_correct in Hent.
  set (σ4 := run (saveEntry current uuid) σ3) in *.
  assert (He4 : entries σ4 = entries σ3) by (by destruct Hs as [<- _]).
  assert (Hother : forall k o, (k, o) ∈ entries σ3 -> o <> current ->
            valid (heap σ4 !!! o) = verdict σ3 o k /\
            (valid (heap σ4 !!! current) = true -> valid (heap σ4 !!! o) = true ->
             dirty (heap σ4 !!! o) = false)).
  { intros k o Hin Hne.
    pose proof (saveEntry_others σ3 current uuid k o Hnd3 Hun3 Hin Hne) as Ho.
    fold σ4 in Ho. rewrite Hent. cbn [valid set_dirty set_valid].
    rewrite (Hflag uuid current Hcur) in Ho.
    destruct (verdict σ3 current uuid); cbn [andb] in Ho.
    - destruct (dirty (heap σ3 !!! o)) eqn:Hd.
      + rewrite (lookup_total_correct _ _ _ Ho). by destruct (verdict σ3 o k).
      + apply lookup_total_eq in Ho. rewrite Ho. split; [by apply Hflag|done].
    - apply lookup_total_eq in Ho. rewrite Ho. split; [by apply Hflag|done]. }
  split.
  - intros k o Hin. rewrite He4 in Hin.
    change (fst (validateEntry o k σ4)) with (verdict σ4 o k).
    rewrite <- (verdict_data_equiv σ3 σ4) by done.
    destruct (decide (o = current)) as [->|Hne].
    + assert (k = uuid) as -> by (by apply (unshared_key (entries σ3) k uuid current)).
      by rewrite Hent.
    + by apply Hother.
  - intros Hvc. split.
    + assert (Hok : fst (validateEntry current uuid σ3) = true).
      { rewrite Hent in Hvc. exact Hvc. }
      subst σ4. rewrite (saveEntry_stored σ3 current uuid Hnd3 Hcur Hok).
      rewrite Hent. fold (verdict σ3 current uuid) in Hok. by rewrite Hok.
    + intros k o Hin Hvo. rewrite He4 in Hin.
      destruct (decide (o = current)) as [->|Hne].
      * rewrite Hent in Hvc |- *. cbn in *. by rewrite Hvc.
      * by apply (Hother k o).
Qed.

(** ** The comparator of sortEntries *)

Lemma num_lt_asym (a b : number) : num_lt a b = true -> num_lt b a = false.
Proof.
  destruct a as [x|], b as [y|]; cbn; try done.
  intros H%Z.ltb_lt. apply Z.ltb_ge. lia.
Qed.

Lemma str_lt_asym (a b : string) : str_lt a b = true -> str_lt b a = false.
Proof.
  intros H. destruct (str_lt b a) eqn:H'; [|done].
  pose proof (str_lt_trans _ _ _ H H') as Haa. by rewrite str_lt_irrefl in Haa.
Qed.

(** X18.  The comparator [sortEntries] hands to [sort] is antisymmetric,
    whatever [Date.parse] returns, [NaN] included: swapping its arguments
    negates its result.  It returns 0 only for two entries of the same
    category and description neither of whose timestamps is less than
    the other's. *)
Theorem compareEntries_antisym (a b : TimeEntry) :
  compareEntries b a = - compareEntries a b /\
  (compareEntries a b = 0 ->
   num_lt (stamp (date a) (start a)) (stamp (date b) (start b)) = false /\
   num_lt (stamp (date b) (start b)) (stamp (date a) (start a)) = false /\
   category a = category b /\ description a = description b).
Proof.
  unfold compareEntries, num_gt.
  repeat match goal with
         | |- context [str_gt ?x ?y] => change (str_gt x y) with (str_lt y x)
         end.
  destruct (num_lt (stamp (date a) (start a)) (stamp (date b) (start b))) eqn:Hab.
  { rewrite (num_lt_asym _ _ Hab). by split. }
  destruct (num_lt (stamp (date b) (start b)) (stamp (date a) (start a))) eqn:Hba.
  { by split. }
  destruct (str_lt (category a) (category b)) eqn:Hc.
  { rewrite (str_lt_asym _ _ Hc). by split. }
  destruct (str_lt (category b) (category a)) eqn:Hc'.
  { by split. }
  destruct (str_lt (description a) (description b)) eqn:Hd.
  { rewrite (str_lt_asym _ _ Hd). by split. }
  destruct (str_lt (description b) (description a)) eqn:Hd'.
  { by split. }
  split; [done|]. intros _. split; [done|]. split; [done|].
  split; [exact (str_not_lt_gt_eq _ _ Hc Hc')|exact (str_not_lt_gt_eq _ _ Hd Hd')].
Qed.

(** ** The shape of the map *)

Lemma grows_refl (σ : State) : grows σ σ.
Proof. by intros o. Qed.

Lemma grows_trans (a b c : State) : grows a b -> grows b c -> grows a c.
Proof. intros Hab Hbc o Ho. by apply Hbc, Hab. Qed.

Lemma insert_is_Some (h : gmap positive TimeEntry) (l o : positive) (e : TimeEntry) :
  is_Some (h !! o) -> is_Some (<[l := e]> h !! o).
Proof. intros Ho. apply lookup_insert_is_Some'. by right. Qed.

Lemma validateEntry_grows (σ : State) (entry : positive) (uuid : string) :
  grows σ (snd (validateEntry entry uuid σ)).
Proof. rewrite validateEntry_writes. intros o Ho. by apply insert_is_Some. Qed.

Lemma updateValidationStatus_grows (σ : State) : grows σ (snd (updateValidationStatus σ)).
Proof.
  unfold updateValidationStatus, bind at 1, gets. generalize (entries σ) as l.
  intros l. revert σ. induction l as [|[k o] l IH]; intros σ; [apply grows_refl|].
  rewrite for_each_validate_cons. cbn zeta.
  eapply grows_trans; [|apply IH]. intros o' Ho'. by apply insert_is_Some.
Qed.

Lemma cascade_grows (db : nat) (l : list (string * positive)) (σ : State) :
  grows σ (run (cascade db l) σ).
Proof.
  revert σ. induction l as [|[k o] l IH]; intros σ; [apply grows_refl|].
  rewrite cascade_cons. eapply grows_trans; [|apply IH].
  intros o' Ho'. rewrite cascade_step_heap. by apply insert_is_Some.
Qed.

Lemma saveValidDitryEntries_grows (σ : State) : grows σ (run saveValidDitryEntries σ).
Proof.
  rewrite saveValidDitryEntries_unfold.
  eapply grows_trans; [|apply cascade_grows]. by intros o.
Qed.

Lemma saveEntry_grows (σ : State) (entry : positive) (uuid : string) :
  grows σ (run (saveEntry entry uuid) σ).
Proof.
  rewrite saveEntry_run. cbn zeta.
  eapply grows_trans; [apply (validateEntry_grows σ entry uuid)|].
  set (σ1 := snd (validateEntry entry uuid σ)).
  destruct (verdict σ entry uuid).
  - assert (H2 : grows σ1 (snd (persist entry uuid σ1))).
    { intros o Ho. unfold persist, bind, write_dirty, getDB, db_put, db_close, modify,
        with_heap. cbn. by apply insert_is_Some. }
    destruct (valid (heap σ !!! entry)); [|done].
    eapply grows_trans; [exact H2|apply saveValidDitryEntries_grows].
  - intros o Ho. unfold write_dirty, modify, with_heap. cbn. by apply insert_is_Some.
Qed.

(** A state with a rearranged part of the map and no object missing is
    well formed when the state it comes from is. *)
Lemma well_formed_part (σ σ' : State) :
  (exists m, entries σ' ≡ₚ m /\ sublist m (entries σ)) -> grows σ σ' ->
  well_formed σ -> well_formed σ'.
Proof.
  intros (m & Hperm & Hsub) Hg (Hnd & Hun & Hal). split; [|split].
  - unfold keys. change (map fst ?l) with (fst <$> l). rewrite Hperm.
    by apply (NoDup_keys_sublist (entries σ)).
  - unfold unshared. change (map snd ?l) with (snd <$> l). rewrite Hperm.
    eapply sublist_NoDup; [exact Hun|]. by apply (fmap_sublist snd).
  - unfold allocated in *. rewrite Hperm. rewrite Forall_forall in Hal |- *.
    intros p Hp. apply Hg, Hal. by eapply elem_of_sublist.
Qed.

Lemma well_formed_same (σ σ' : State) :
  entries σ' = entries σ -> grows σ σ' -> well_formed σ -> well_formed σ'.
Proof. intros He. apply well_formed_part. exists (entries σ). by rewrite He. Qed.

Lemma Map_set_unshared (m : list (string * positive)) (k : string) (l : positive) :
  NoDup (map snd m) -> l ∉ map snd m -> NoDup (map snd (Map_set m k l)).
Proof.
  induction m as [|[k' v'] m IH]; cbn [Map_set map snd]; intros Hnd Hl.
  { apply NoDup_singleton. }
  apply NoDup_cons in Hnd as [Hv Hnd]. apply not_elem_of_cons in Hl as [Hne Hl].
  destruct (String.eqb_spec k k') as [->|Hk]; cbn [map snd]; apply NoDup_cons.
  - done.
  - split; [|by apply IH]. intros Hin.
    apply list_elem_of_fmap in Hin as ([k0 o0] & Ho & Hin). cbn in Ho. subst o0.
    destruct (Map_set_elem _ _ _ _ Hin) as [Hm|Heq].
    + apply Hv. apply list_elem_of_fmap. by exists (k0, v').
    + congruence.
Qed.

(** A new object put into the map under [k] leaves the map well
    formed. *)
Lemma well_formed_set_fresh (σ : State) (k : string) (e : TimeEntry) :
  well_formed σ ->
  let l := fresh (dom (heap σ)) in
  well_formed (with_entries (fun m => Map_set m k l) (with_heap (fun h => <[l := e]> h) σ)).
Proof.
  intros (Hnd & Hun & Hal) l.
  assert (Hl : l ∉ map snd (entries σ)).
  { intros Hin. apply list_elem_of_fmap in Hin as (p & Hp & Hin).
    unfold allocated in Hal. rewrite Forall_forall in Hal.
    specialize (Hal p Hin). rewrite <- Hp in Hal.
    apply (is_fresh (dom (heap σ))). by apply elem_of_dom. }
  split; [|split]; cbn [entries heap with_entries with_heap].
  - by apply Map_set_NoDup.
  - by apply Map_set_unshared.
  - apply Forall_forall. intros [k' o] Hin. cbn.
    destruct (Map_set_elem _ _ _ _ Hin) as [Hm|Heq].
    + apply insert_is_Some. unfold allocated in Hal. rewrite Forall_forall in Hal.
      apply (Hal (k', o) Hm).
    + inversion Heq; subst. rewrite lookup_insert_eq. by eexists.
Qed.

Lemma loaded_well_formed (db : nat) (ks : list string) (σ : State) :
  well_formed σ -> well_formed (loaded db ks σ).
Proof.
  revert σ. induction ks as [|key ks IH]; intros σ Hσ; cbn [loaded]; [done|].
  destruct (store_get (store σ) key) as [v|]; [|done].
  unfold alloc, db_get. cbn [snd]. apply IH.
  apply (well_formed_set_fresh
           (mkState (heap σ) (entries σ) (store σ) (conns σ) (trace σ ++ [EvGet db key]))
           key v).
  exact Hσ.
Qed.

(** X19.  Whatever the component does, run to completion, leaves its map
    as the component builds it: the identifiers are distinct, no entry
    object is held under two identifiers, and every object held has been
    created. *)
Theorem handlers_keep_well_formed (σ : State) :
  well_formed σ ->
  (forall entry uuid, well_formed (run (saveEntry entry uuid) σ)) /\
  (forall entry uuid, well_formed (run (deleteEntry entry uuid) σ)) /\
  (forall uuid today, well_formed (run (addNew uuid today) σ)) /\
  (forall field uuid value, well_formed (run (generateInputCallback field uuid value) σ)) /\
  well_formed (run loadEntries σ).
Proof.
  intros Hσ.
  assert (Hsave : forall τ entry uuid, well_formed τ ->
                    well_formed (run (saveEntry entry uuid) τ)).
  { intros τ entry uuid. apply well_formed_same; [|apply saveEntry_grows].
    by destruct (saveEntry_data_equiv τ entry uuid) as [<- _]. }
  assert (Hpass : forall τ, well_formed τ -> well_formed (snd (updateValidationStatus τ))).
  { intros τ. apply well_formed_same; [|apply updateValidationStatus_grows].
    by destruct (updateValidationStatus_data_equiv τ) as [<- _]. }
  split; [by auto|]. split; [|split; [|split]].
  - intros entry uuid. rewrite deleteEntry_run. cbn zeta.
    set (σ1 := with_entries _ σ).
    assert (H1 : well_formed σ1).
    { revert Hσ. apply well_formed_part; [|by intros o].
      exists (entries σ1). split; [done|]. apply List_filter_sublist. }
    assert (H2 : well_formed (if valid (heap σ !!! entry) then σ1
                              else run saveValidDitryEntries σ1)).
    { destruct (valid (heap σ !!! entry)); [done|]. revert H1.
      apply well_formed_same; [|apply saveValidDitryEntries_grows].
      by destruct (saveValidDitryEntries_run σ1) as ([<- _] & _). }
    revert H2. apply well_formed_same; [done|by intros o].
  - intros uuid today. rewrite addNew_run. cbn zeta.
    destruct Hσ as (Hnd & Hun & Hal).
    destruct (getLatestTime_spec σ (dateStringOf today) Hnd) as (Hsame & _).
    destruct (getLatestTime (dateStringOf today) σ) as [s σ0]. cbn [fst snd] in *. subst σ0.
    apply Hsave, Hpass. by apply well_formed_set_fresh.
  - intros field uuid value.
    destruct (Map_get (entries σ) uuid) as [current|] eqn:Hget.
    + rewrite (generateInputCallback_run σ field uuid value current Hget).
      apply Hsave, Hpass. revert Hσ. apply well_formed_same; [done|].
      intros o Ho. unfold edited, with_heap. cbn. by apply insert_is_Some.
    + unfold generateInputCallback. cbn [run]. unfold gets at 1. by rewrite Hget.
  - rewrite loadEntries_run. cbn zeta.
    set (σ1 := snd (db_getAllKeys (conns σ) (snd (getDB σ)))).
    set (σ2 := snd (db_close (conns σ) (loaded (conns σ) (map fst (store σ)) σ1))).
    assert (H2 : well_formed σ2) by (by apply (loaded_well_formed _ _ σ1)).
    apply Hpass. revert H2. destruct (sortEntries_perm σ2) as (Hperm & Hheap & _).
    { apply (loaded_map_ok _ _ σ1). by destruct Hσ. }
    apply well_formed_part.
    + exists (entries σ2). by split.
    + intros o. by rewrite Hheap.
Qed.

End Further.

(** * The component on the reference host *)

Module Scenarios.
Import RefHost Samples.

(** C3.  [saveEntry] on an entry flagged invalid that validates: the
    entry is saved and nothing follows, the other dirty entry is neither
    revalidated nor saved.  On the same entry flagged valid beforehand the
    cascade runs and saves the other entry. *)
Theorem saveEntry_cascade_follows_old_flag :
  (let σ' := run (saveEntry 1%positive "e") (two_unsaved false) in
   valid (heap σ' !!! 1%positive) = true /\
   trace σ' = [EvOpen 0; EvPut 0 "e" (entry "2024-01-01" "08:00" "09:00" true false);
               EvClose 0] /\
   heap σ' !!! 2%positive = entry "2024-01-01" "10:00" "11:00" false true /\
   store_get (store σ') "d" = None) /\
  (let σ' := run (saveEntry 1%positive "e") (two_unsaved true) in
   trace σ' = [EvOpen 0; EvPut 0 "e" (entry "2024-01-01" "08:00" "09:00" true false);
               EvClose 0; EvOpen 1;
               EvPut 1 "d" (entry "2024-01-01" "10:00" "11:00" true false)] /\
   store_get (store σ') "d" = Some (entry "2024-01-01" "10:00" "11:00" true false)).
Proof. vm_compute. repeat split. Qed.

(** Through the callback of an input element: a valid entry whose
    description is edited stays valid, and the cascade runs (it opens the
    second connection) although no entry went from invalid to valid. *)
Example edit_of_valid_entry_runs_cascade :
  let σ' := run (generateInputCallback Kdescription "e" "standup") settled in
  valid (heap settled !!! 1%positive) = true /\
  trace σ' = [EvOpen 0;
              EvPut 0 "e" (mkTimeEntry "2024-01-01" "08:00" "09:00" "Meeting" "standup"
                                       true false);
              EvClose 0; EvOpen 1].
Proof. vm_compute. repeat split. Qed.

(** Closing tactics for goals on concrete states. *)
Ltac distinct_keys := refine (bool_decide_unpack _ _); vm_compute; exact I.
Ltac member := vm_compute; repeat constructor.

Lemma overlapping_distinct : NoDup (keys (entries overlapping)).
Proof. distinct_keys. Defined.

(** A is rejected because of B. *)
Lemma validateEntry_spec_witness : fst (validateEntry 1%positive "a" overlapping) = false.
Proof.
  destruct (validateEntry_spec overlapping 1%positive "a" overlapping_distinct)
    as (_ & _ & _ & H).
  destruct H as [H _]; [vm_compute; reflexivity|].
  apply H. exists "b", 2%positive.
  split; [member|]. split; [discriminate|]. split; [vm_compute; reflexivity|].
  vm_compute. right. split; [discriminate|reflexivity].
Defined.

(** After the pass A and B are not both valid. *)
Lemma updateValidationStatus_valid_disjoint_witness :
  let σ' := snd (updateValidationStatus overlapping) in
  ~ (valid (heap σ' !!! 1%positive) = true /\ valid (heap σ' !!! 2%positive) = true).
Proof.
  apply (updateValidationStatus_valid_disjoint overlapping overlapping_distinct
           "a" 1%positive "b" 2%positive).
  - member.
  - member.
  - discriminate.
  - vm_compute; reflexivity.
  - vm_compute. right. split; [discriminate|reflexivity].
Defined.

(** With the date inputs of A and B cleared, [Date.parse] reads none of
    their timestamps: A, from 08:00 to 09:00, and B, from 08:30 to 09:30,
    have the same date and are both valid after the pass. *)
Lemma undated_overlapping_both_valid :
  let σ' := snd (updateValidationStatus undated) in
  let a := heap σ' !!! 1%positive in
  let b := heap σ' !!! 2%positive in
  entries σ' = [("a", 1%positive); ("b", 2%positive)] /\
  date a = date b /\
  (start a, end_ a) = ("08:00", "09:00") /\ (start b, end_ b) = ("08:30", "09:30") /\
  valid a = true /\ valid b = true.
Proof. vm_compute. repeat split. Qed.

(** The same through the date inputs: after both dates of the sample
    state are cleared, A and B are valid and saved. *)
Example cleared_dates_both_saved :
  let σ' := run (generateInputCallback Kdate "b" "")
              (run (generateInputCallback Kdate "a" "") overlapping) in
  heap σ' !!! 1%positive = entry "" "08:00" "09:00" true false /\
  heap σ' !!! 2%positive = entry "" "08:30" "09:30" true false /\
  map fst (store σ') = ["a"; "b"].
Proof. vm_compute. repeat split. Qed.

(** Spec scenario: moving B's start to 09:00 makes both entries valid,
    and both are saved. *)
Example edit_resolves_overlap :
  let σ' := run (generateInputCallback Kstart "b" "09:00") overlapping in
  heap σ' !!! 1%positive = entry "2024-01-01" "08:00" "09:00" true false /\
  heap σ' !!! 2%positive = entry "2024-01-01" "09:00" "09:30" true false /\
  map fst (store σ') = ["a"; "b"].
Proof. vm_compute. repeat split. Qed.

(** Spec scenario: deleting B, invalid and the one entry in the way of A,
    makes A valid and saves it. *)
Example delete_unblocks :
  let σ' := run (deleteEntry 2%positive "b") overlapping in
  entries σ' = [("a", 1%positive)] /\
  heap σ' !!! 1%positive = entry "2024-01-01" "08:00" "09:00" true false /\
  map fst (store σ') = ["a"] /\
  trace σ' = [EvOpen 0; EvPut 0 "a" (entry "2024-01-01" "08:00" "09:00" true false);
              EvOpen 1; EvDelete 1 "b"; EvClose 1].
Proof. vm_compute. repeat split. Qed.

(** A cannot be saved while B overlaps it. *)
Lemma saveEntry_invalid_not_persisted_witness :
  let σ' := run (saveEntry 1%positive "a") overlapping in
  dirty (heap σ' !!! 1%positive) = true /\ trace σ' = [] /\ store σ' = [].
Proof.
  destruct (saveEntry_invalid_not_persisted overlapping 1%positive "a")
    as (_ & Hd & _ & Ht & Hs & _).
  - vm_compute; reflexivity.
  - split; [exact Hd|]. split; [exact Ht|exact Hs].
Defined.

Lemma two_days_distinct : NoDup (keys (entries two_days)).
Proof. distinct_keys. Defined.

Lemma filterMap_spec_witness :
  ("z", 3%positive) ∈
    fst (filterMap (entries two_days) Kdate (VString "2024-01-01") two_days) /\
  sublist (fst (filterMap (entries two_days) Kdate (VString "2024-01-01") two_days))
          (entries two_days).
Proof.
  destruct (filterMap_spec two_days (entries two_days) Kdate (VString "2024-01-01")
              two_days_distinct) as (Hin & Hsub & _).
  split; [|exact Hsub].
  apply Hin. split; [member|vm_compute; reflexivity].
Defined.

(** Spec scenario: filtering by date keeps the entries of that date in
    their order. *)
Example filter_by_date :
  fst (filterMap (entries two_days) Kdate (VString "2024-01-01") two_days)
  = [("x", 1%positive); ("z", 3%positive)].
Proof. vm_compute. reflexivity. Qed.

Lemma two_days_parse (k : string) (o : positive) :
  (k, o) ∈ entries two_days -> parses (heap two_days !!! o).
Proof.
  intros Hin. apply list_elem_of_In in Hin. cbn in Hin.
  destruct Hin as [H|[H|[H|[]]]]; inversion H; subst; vm_compute; discriminate.
Defined.

Lemma sortEntries_sorted_witness :
  StronglySorted (fun p q => key_le (heap two_days !!! snd p) (heap two_days !!! snd q))
                 (entries (snd (sortEntries two_days))).
Proof.
  apply (sortEntries_sorted two_days two_days_distinct two_days_parse).
Defined.

(** An entry whose date has been cleared compares as equal with every
    entry of its category and description: A, starting at 09:00, stays
    before B, starting at 08:00 on the same day. *)
Lemma sortEntries_unparsed_out_of_order :
  let σ' := snd (sortEntries undated_between) in
  entries σ' = [("a", 1%positive); ("n", 2%positive); ("b", 3%positive)] /\
  starts_at (heap σ' !!! 2%positive) = NaN /\
  starts_at (heap σ' !!! 1%positive) = Num (new_year_midnight + 9 * 3600000) /\
  starts_at (heap σ' !!! 3%positive) = Num (new_year_midnight + 8 * 3600000) /\
  ~ key_le (heap σ' !!! 1%positive) (heap σ' !!! 3%positive).
Proof.
  vm_compute. repeat split. intros [H|[H _]]; discriminate H.
Qed.

(** Spec scenario: of two entries on one day, the one starting at 08:00
    comes before the one starting at 09:00. *)
Example sort_on_load :
  entries (snd (sortEntries two_days))
  = [("z", 3%positive); ("x", 1%positive); ("y", 2%positive)].
Proof. vm_compute. reflexivity. Qed.

(** Spec scenario: a store holding an entry starting at 09:00 and one
    starting at 08:00 loads with the 08:00 entry first, and the connection
    used is closed. *)
Example sorting_on_load :
  let σ' := run loadEntries
              (state [] [] [("k1", entry "2024-01-01" "09:00" "10:00" true false);
                            ("k2", entry "2024-01-01" "08:00" "09:00" true false)]) in
  map fst (entries σ') = ["k2"; "k1"] /\
  map (fun p => start (heap σ' !!! snd p)) (entries σ') = ["08:00"; "09:00"] /\
  trace σ' = [EvOpen 0; EvGetAllKeys 0; EvGet 0 "k1"; EvGet 0 "k2"; EvClose 0].
Proof. vm_compute. repeat split. Qed.

(** ** New entries *)

Lemma day_distinct (e : string) : NoDup (keys (entries (day_ending_at e))).
Proof. distinct_keys. Defined.




(** Spec scenarios, evaluated: after a day ending at 17:45 the new entry
    runs from 17:45 to 18:15; after a day ending at 23:45, from 23:45 to
    23:59. *)
Example today_string :
  dateStringOf new_year = "2024-01-01" /\ dateStringOf (mkDate 2026 10 2) = "2026-11-02".
Proof. vm_compute. split; reflexivity. Qed.

Example addNew_after_1745 :
  heap (run (addNew "n" new_year) (day_ending_at "17:45")) !!! 2%positive
  = entry "2024-01-01" "17:45" "18:15" true false.
Proof. vm_compute. reflexivity. Qed.

(** On the 12-hour host the same day gives an end that is no time of day. *)
Example addNew_after_1745_twelve_hour :
  TwelveHourHost.timeString (Num (1000 * 60 * (18 * 60 + 15))) = "6:15:00 PM" /\
  heap (run (@addNew TwelveHourHost.host "n" new_year) (day_ending_at "17:45")) !!! 2%positive
  = entry "2024-01-01" "17:45" "6:15:" true false.
Proof. vm_compute. split; reflexivity. Qed.

Example addNew_after_2345 :
  heap (run (addNew "n" new_year) (day_ending_at "23:45")) !!! 2%positive
  = entry "2024-01-01" "23:45" "23:59" true false.
Proof. vm_compute. reflexivity. Qed.

(** ** A save interrupted by an edit *)

(** [saveEntry] on E validates E, clears its dirty flag and waits for the
    connection.  While it waits, an edit moves the start of F to 08:30:
    the pass of that edit marks E invalid.  Resumed, [saveEntry] writes E
    as it now is. *)
Lemma put_of_invalid_entry_when_interrupted :
  let σ' := run_with (saveEntry 1%positive "e")
                     [run (generateInputCallback Kstart "f" "08:30")] settled in
  trace σ' = [EvOpen 0;
              EvPut 0 "e" (entry "2024-01-01" "08:00" "09:00" false false);
              EvClose 0; EvOpen 1] /\
  store_get (store σ') "e" = Some (entry "2024-01-01" "08:00" "09:00" false false) /\
  ~ Forall clean_put (trace σ').
Proof.
  intros σ'.
  assert (Ht : trace σ' = [EvOpen 0;
              EvPut 0 "e" (entry "2024-01-01" "08:00" "09:00" false false);
              EvClose 0; EvOpen 1]) by (vm_compute; reflexivity).
  split; [exact Ht|]. split; [vm_compute; reflexivity|].
  rewrite Ht. intros H.
  apply Forall_cons in H as [_ H]. apply Forall_cons in H as [[Hv _] _].
  discriminate Hv.
Qed.

(** While E is being saved, and while the cascade waits, the description
    of D is edited: the handler of that edit changes no flag of E, and
    every put of the save and of the cascade writes a valid, clean
    entry. *)
Lemma puts_are_valid_and_clean_witness :
  let edit := run (generateInputCallback Kdescription "d" "review") in
  own_calls saveValidDitryEntries [edit] (two_unsaved false)
  = [EvOpen 0;
     EvPut 0 "e" (entry "2024-01-01" "08:00" "09:00" true false);
     EvPut 0 "d" (mkTimeEntry "2024-01-01" "10:00" "11:00" "Meeting" "review" true false)] /\
  own_calls (saveEntry 1%positive "e") [edit] (two_unsaved true)
  = [EvOpen 0;
     EvPut 0 "e" (entry "2024-01-01" "08:00" "09:00" true false);
     EvClose 0; EvOpen 3] /\
  Forall clean_put (own_calls saveValidDitryEntries [edit] (two_unsaved false)) /\
  Forall clean_put (own_calls (saveEntry 1%positive "e") [edit] (two_unsaved true)).
Proof.
  intros edit. split; [vm_compute; reflexivity|]. split; [vm_compute; reflexivity|].
  split.
  - destruct (puts_are_valid_and_clean (two_unsaved false) 1%positive "e" [edit])
      as (Hcascade & _); [vm_compute; split; reflexivity|exact Hcascade].
  - destruct (puts_are_valid_and_clean (two_unsaved true) 1%positive "e" [edit])
      as (_ & Hsave & _); [vm_compute; split; reflexivity|exact Hsave].
Defined.

(** ** The further properties on the sample states *)

Lemma overlapping_unshared : unshared overlapping.
Proof. distinct_keys. Defined.

Lemma two_unsaved_distinct (b : bool) : NoDup (keys (entries (two_unsaved b))).
Proof. distinct_keys. Defined.

Lemma two_unsaved_unshared (b : bool) : unshared (two_unsaved b).
Proof. distinct_keys. Defined.

Lemma settled_distinct : NoDup (keys (entries settled)).
Proof. distinct_keys. Defined.

(** A is invalid after the pass: B is in its way. *)
Lemma updateValidationStatus_valid_iff_witness :
  valid (heap (snd (updateValidationStatus overlapping)) !!! 1%positive) = false.
Proof.
  destruct (valid (heap (snd (updateValidationStatus overlapping)) !!! 1%positive)) eqn:Hv;
    [|reflexivity].
  apply (updateValidationStatus_valid_iff overlapping "a" 1%positive) in Hv.
  - destruct Hv as [_ Hfree]. exfalso. apply Hfree. exists "b", 2%positive.
    split; [member|]. split; [discriminate|]. split; [vm_compute; reflexivity|].
    vm_compute. right. split; [discriminate|reflexivity].
  - exact overlapping_distinct.
  - member.
  - intros k Hin. apply (unshared_key (entries overlapping) k "a" 1%positive).
    + exact overlapping_unshared.
    + exact Hin.
    + member.
Defined.

Lemma updateValidationStatus_idempotent_witness :
  snd (updateValidationStatus (snd (updateValidationStatus overlapping)))
  = snd (updateValidationStatus overlapping).
Proof. apply (updateValidationStatus_idempotent overlapping overlapping_distinct). Defined.

(** E validates: it is saved as it is in memory. *)
Lemma saveEntry_valid_stored_witness :
  let σ' := run (saveEntry 1%positive "e") (two_unsaved true) in
  store_get (store σ') "e" = Some (heap σ' !!! 1%positive) /\
  valid (heap σ' !!! 1%positive) = true /\ dirty (heap σ' !!! 1%positive) = false.
Proof.
  apply (saveEntry_valid_stored (two_unsaved true) 1%positive "e").
  - apply two_unsaved_distinct.
  - member.
  - vm_compute; reflexivity.
Defined.

(** The cascade saves D. *)
Lemma saveValidDitryEntries_settles_witness :
  let σ' := run saveValidDitryEntries (two_unsaved false) in
  valid (heap σ' !!! 2%positive) = true /\ dirty (heap σ' !!! 2%positive) = false /\
  store_get (store σ') "d" = Some (heap σ' !!! 2%positive).
Proof.
  destruct (saveValidDitryEntries_settles (two_unsaved false)
              (two_unsaved_distinct false) (two_unsaved_unshared false)) as [_ H].
  destruct (H "d" 2%positive) as (Hv & Hd & _ & Hs).
  - member.
  - vm_compute; reflexivity.
  - split; [exact Hv|]. split; [exact Hd|exact Hs].
Defined.

Lemma saveValidDitryEntries_once_suffices_witness :
  let σ1 := run saveValidDitryEntries (two_unsaved false) in
  let σ2 := run saveValidDitryEntries σ1 in
  heap σ2 = heap σ1 /\ entries σ2 = entries σ1 /\ store σ2 = store σ1 /\
  trace σ2 = trace σ1 ++ [EvOpen (conns σ1)].
Proof.
  apply (saveValidDitryEntries_once_suffices (two_unsaved false)
           (two_unsaved_distinct false) (two_unsaved_unshared false)).
Defined.

(** Deleting E, which is valid, leaves the verdict on F as it was. *)
Lemma deleteEntry_valid_keeps_verdicts_witness :
  fst (validateEntry 2%positive "f" (run (deleteEntry 1%positive "e") settled))
  = fst (validateEntry 2%positive "f" settled).
Proof.
  apply (deleteEntry_valid_keeps_verdicts settled 1%positive "e" settled_distinct).
  - member.
  - vm_compute; reflexivity.
  - member.
  - discriminate.
Defined.

Lemma unloaded_distinct : NoDup (keys (entries unloaded)).
Proof. distinct_keys. Defined.

(** The component loads the two entries of the store. *)
Lemma loadEntries_reads_store_witness :
  let σ' := run loadEntries unloaded in
  store σ' = store unloaded /\
  exists o, ("k1", o) ∈ entries σ' /\
            heap σ' !!! o = set_valid (valid (heap σ' !!! o))
                              (entry "2024-01-01" "09:00" "10:00" true false).
Proof.
  destruct (loadEntries_reads_store unloaded unloaded_distinct) as (Hs & _ & _ & Hget).
  split; [exact Hs|]. apply Hget. vm_compute; reflexivity.
Defined.

Lemma unloaded_parse (k : string) (v : TimeEntry) : (k, v) ∈ store unloaded -> parses v.
Proof.
  intros Hin. apply list_elem_of_In in Hin. cbn in Hin.
  destruct Hin as [H|[H|[]]]; inversion H; subst; vm_compute; discriminate.
Defined.

Lemma loadEntries_sorted_witness :
  let σ' := run loadEntries unloaded in
  StronglySorted (fun p q => key_le (heap σ' !!! snd p) (heap σ' !!! snd q)) (entries σ').
Proof.
  apply (loadEntries_sorted unloaded unloaded_distinct unloaded_parse).
  intros k o Hin. vm_compute in Hin. by apply elem_of_nil in Hin.
Defined.

(** E is saved; the component started again finds it. *)
Lemma saveEntry_then_loadEntries_witness :
  let τ' := run loadEntries (restarted (run (saveEntry 1%positive "e") (two_unsaved true))) in
  exists o, ("e", o) ∈ entries τ' /\
            same_data (heap (two_unsaved true) !!! 1%positive) (heap τ' !!! o) /\
            dirty (heap τ' !!! o) = false.
Proof.
  apply (saveEntry_then_loadEntries (two_unsaved true)
           (restarted (run (saveEntry 1%positive "e") (two_unsaved true))) 1%positive "e").
  - apply two_unsaved_distinct.
  - member.
  - vm_compute; reflexivity.
  - apply NoDup_nil_2.
  - reflexivity.
Defined.


(** After a day ending at 23:59 the new entry cannot be saved. *)
Lemma addNew_day_full_witness :
  let σ := day_ending_at "23:59" in
  let σ' := run (addNew "n" new_year) σ in
  let e := heap σ' !!! fresh (dom (heap σ)) in
  str_le "23:59" (start e) /\ end_ e = "23:59" /\ valid e = false /\ dirty e = true /\
  store σ' = store σ /\ trace σ' = trace σ.
Proof.
  apply (addNew_day_full (day_ending_at "23:59") "n" new_year "a" 1%positive
           (day_distinct "23:59")).
  - member.
  - vm_compute; reflexivity.
  - vm_compute; reflexivity.
Defined.


(** The start of B is moved to 09:00: A and B are valid, saved and not
    dirty. *)
Lemma generateInputCallback_flags_accurate_witness :
  let σ' := run (generateInputCallback Kstart "b" "09:00") overlapping in
  valid (heap σ' !!! 1%positive) = fst (validateEntry 1%positive "a" σ') /\
  (valid (heap σ' !!! 2%positive) = true ->
   store_get (store σ') "b" = Some (heap σ' !!! 2%positive)).
Proof.
  destruct (generateInputCallback_flags_accurate overlapping Kstart "b" "09:00" 2%positive)
    as (Hflags & Hsaved).
  - exact overlapping_distinct.
  - exact overlapping_unshared.
  - vm_compute; reflexivity.
  - reflexivity.
  - split.
    + apply Hflags. member.
    + intros Hv. by destruct (Hsaved Hv) as [Hs _].
Defined.

(** The sample state of A and B is well formed, and stays so when B is
    deleted. *)
Lemma handlers_keep_well_formed_witness :
  well_formed (run (deleteEntry 2%positive "b") overlapping).
Proof.
  destruct (handlers_keep_well_formed overlapping) as (_ & Hdel & _).
  - split; [exact overlapping_distinct|]. split; [exact overlapping_unshared|].
    distinct_keys.
  - apply Hdel.
Defined.

(** The table for the first of January has the rows of X and Z. *)
Lemma render_shows_passing_witness :
  exists rows, fst (render (mkFilters "2024-01-01" "Any") two_days) = Table rows /\
               map row_uuid rows = ["x"; "z"].
Proof.
  destruct (render_shows_passing two_days (mkFilters "2024-01-01" "Any") two_days_distinct)
    as [_ Hpage].
  rewrite Hpage. eexists. split; [vm_compute; reflexivity|vm_compute; reflexivity].
Defined.

End Scenarios.
